(** * Full coverage path planner

    A shallow embedding of [src/full_coverage_path_planner.cpp]: the grid
    discretisation [parseGrid] and the waypoint composition
    [parsePointlist2Plan] of [FullCoveragePathPlanner].

    C++ [double] is the binary64 type of the kernel ([PrimFloat.float]), with
    its IEEE operations; [int], [unsigned int] and [size_t] are [Z] with the
    wrap-around written out.  What the C++ standard leaves undefined (reading
    [back()] of an empty vector, converting a double that does not fit its
    integer type) is an explicit [Undefined] outcome.  The counting loops of
    [parseGrid] run on fuel and end in [OutOfFuel] when it does not suffice;
    the loop over the visit list is structural.  Functions of other libraries
    (libm, tf2, the message helpers) are parameters of the development. *)

From Stdlib Require Import String ZArith List Bool Lia.
From Stdlib Require Import Floats.
Import ListNotations.

Local Open Scope Z_scope.

(** ** Outcomes of a call *)

Inductive outcome (A : Type) : Type :=
| Done (a : A)
| Undefined
| OutOfFuel.

Arguments Done {A} a.
Arguments Undefined {A}.
Arguments OutOfFuel {A}.

Definition bind {A B : Type} (m : outcome A) (k : A -> outcome B) : outcome B :=
  match m with
  | Done a => k a
  | Undefined => Undefined
  | OutOfFuel => OutOfFuel
  end.

Notation "x <- m ;; k" := (bind m (fun x => k))
  (at level 61, m at next level, right associativity).

Definition from_option {A : Type} (o : option A) : outcome A :=
  match o with
  | Some a => Done a
  | None => Undefined
  end.

(** ** Machine integers *)

Module Int.

(** [int]: 32 bits, two's complement. *)
Definition wrap (z : Z) : Z := (z + 2 ^ 31) mod 2 ^ 32 - 2 ^ 31.

Definition add (a b : Z) : Z := wrap (a + b).
Definition sub (a b : Z) : Z := wrap (a - b).
Definition mul (a b : Z) : Z := wrap (a * b).

Definition max_int : Z := 2 ^ 31 - 1.

End Int.

Module SizeT.

(** [size_t]: 64 bits, unsigned. *)
Definition modulus : Z := 2 ^ 64.
Definition wrap (z : Z) : Z := z mod modulus.

Definition add (a b : Z) : Z := wrap (a + b).
Definition mul (a b : Z) : Z := wrap (a * b).

End SizeT.

Module UInt.

(** [unsigned int]: 32 bits. *)
Definition modulus : Z := 2 ^ 32.

End UInt.

(** ** Doubles *)

Module Double.

Definition M_PI : float := 0x1.921fb54442d18p+1%float.
Definition FLT_EPSILON : float := 0x1p-23%float.

(** Integer to double, rounded to nearest even (exact below [2 ^ 53]). *)
Definition of_Z (z : Z) : float :=
  SF2Prim (binary_normalize prec emax z 0 false).

(** The integer part of a finite double, truncated towards zero. *)
Definition trunc_SF (f : spec_float) : option Z :=
  match f with
  | S754_zero _ => Some 0
  | S754_finite s m e =>
      Some (if s then - Z.shiftl (Z.pos m) e else Z.shiftl (Z.pos m) e)
  | S754_infinity _ | S754_nan => None
  end.

Definition trunc (d : float) : option Z := trunc_SF (Prim2SF d).

(** The value of a finite double in units of [2 ^ -1074], the smallest
    positive double: an integer, in the order of the doubles. *)
Definition scaled_SF (f : spec_float) : option Z :=
  match f with
  | S754_zero _ => Some 0
  | S754_finite s m e =>
      Some (if s then - (Z.pos m * 2 ^ (e + 1074)) else Z.pos m * 2 ^ (e + 1074))
  | S754_infinity _ | S754_nan => None
  end.

Definition scaled (d : float) : option Z := scaled_SF (Prim2SF d).

(** [static_cast] of a double to an unsigned type of the given modulus:
    truncation, undefined ([None]) when the truncated value does not fit. *)
Definition to_unsigned (modulus : Z) (d : float) : option Z :=
  match trunc d with
  | Some z => if (0 <=? z) && (z <? modulus) then Some z else None
  | None => None
  end.

Definition to_size_t : float -> option Z := to_unsigned SizeT.modulus.
Definition to_unsigned_int : float -> option Z := to_unsigned UInt.modulus.

(** [a >= b], [a != b] *)
Definition geb (a b : float) : bool := (b <=? a)%float.
Definition neqb (a b : float) : bool := negb (a =? b)%float.

Definition fabs : float -> float := PrimFloat.abs.

End Double.

(** ** Declarations of the header *)

(** Modelled from the spec: the header with the macros [dmin], [dmax] and
    [clamp] is not part of the sources; the spec calls them [max] and [clamp].
    They are taken as the comparison macros of the planner's header:
    [dmax(a, b)] is [a >= b ? a : b], [dmin(a, b)] is [a <= b ? a : b] and
    [clamp(a, lower, upper)] is [dmax(dmin(a, upper), lower)]. *)
Definition dmax (a b : float) : float := if Double.geb a b then a else b.
Definition dmin (a b : float) : float := if (a <=? b)%float then a else b.
Definition clamp (a lower upper : float) : float := dmax (dmin a upper) lower.

(** Modelled from the spec: the direction codes of the header ([dir::none]
    and the four axis directions) are not part of the sources; the spec gives
    right = 1, up = 2, left = -1, down = -2 and zero for no movement. *)
Module dir.
Definition none : Z := 0.
Definition right : Z := 1.
Definition up : Z := 2.
Definition left : Z := -1.
Definition down : Z := -2.
End dir.

(** Modelled from the spec: the enumeration of turn directions is declared in
    the header, which is not part of the sources; the spec names clockwise and
    counter-clockwise. *)
Inductive eRotateDirection : Type :=
| eClockwise
| eCounterClockwise.

Definition eRotateDirection_eqb (a b : eRotateDirection) : bool :=
  match a, b with
  | eClockwise, eClockwise => true
  | eCounterClockwise, eCounterClockwise => true
  | _, _ => false
  end.

(** Modelled from the spec: [Point_t] is declared in the header, which is not
    part of the sources; a tile is a pair of integer coordinates, here two
    [int]. *)
Record Point_t : Type := mkPoint_t { pt_x : Z; pt_y : Z }.

(** Modelled from the spec: the type of [grid_origin_] is declared in the
    header; [mapToWorld] stores two doubles in it. *)
Record dPoint_t : Type := mkdPoint_t { dpt_x : float; dpt_y : float }.

(** ** Messages *)

Record Time : Type := mkTime { sec : Z; nanosec : Z }.
Record Header : Type := mkHeader { stamp : Time; frame_id : string }.
Record Point : Type := mkPoint { pos_x : float; pos_y : float; pos_z : float }.
Record Quaternion : Type :=
  mkQuaternion { q_x : float; q_y : float; q_z : float; q_w : float }.
Record Pose : Type := mkPose { position : Point; orientation : Quaternion }.
Record PoseStamped : Type := mkPoseStamped { header : Header; pose : Pose }.

(** A default-constructed message: zeros and the identity rotation. *)
Definition default_PoseStamped : PoseStamped :=
  mkPoseStamped (mkHeader (mkTime 0 0) "")
    (mkPose (mkPoint 0 0 0) (mkQuaternion 0 0 0 1)).

Definition set_frame_id (f : string) (p : PoseStamped) : PoseStamped :=
  mkPoseStamped (mkHeader (stamp (header p)) f) (pose p).

Definition set_position_xy (x y : float) (p : PoseStamped) : PoseStamped :=
  mkPoseStamped (header p)
    (mkPose (mkPoint x y (pos_z (position (pose p)))) (orientation (pose p))).

Definition set_orientation (q : Quaternion) (p : PoseStamped) : PoseStamped :=
  mkPoseStamped (header p) (mkPose (position (pose p)) q).

(** ** [std::vector] as a stack *)

Definition back {A : Type} (v : list A) : option A :=
  match rev v with
  | [] => None
  | a :: _ => Some a
  end.

Definition pop_back {A : Type} (v : list A) : list A := removelast v.

Definition push_back {A : Type} (v : list A) (a : A) : list A := v ++ [a].

(** ** The planner object *)

(** Modelled from the spec: the class is declared in the header, which is not
    part of the sources.  These are the fields the source file reads and
    writes; [tile_size_] is taken as a double and the turn directions as a
    vector. *)
Record FullCoveragePathPlanner : Type := mkPlanner {
  initialized_ : bool;
  tile_size_ : float;
  grid_origin_ : dPoint_t;
  previous_goal_ : PoseStamped;
  previous_orientation_ : float;
  turn_around_directions_ : list eRotateDirection
}.

Definition set_previous (g : PoseStamped) (o : float)
    (self : FullCoveragePathPlanner) : FullCoveragePathPlanner :=
  mkPlanner (initialized_ self) (tile_size_ self) (grid_origin_ self) g o
    (turn_around_directions_ self).

Definition set_previous_goal (g : PoseStamped)
    (self : FullCoveragePathPlanner) : FullCoveragePathPlanner :=
  mkPlanner (initialized_ self) (tile_size_ self) (grid_origin_ self) g
    (previous_orientation_ self) (turn_around_directions_ self).

Definition set_turn_around_directions (v : list eRotateDirection)
    (self : FullCoveragePathPlanner) : FullCoveragePathPlanner :=
  mkPlanner (initialized_ self) (tile_size_ self) (grid_origin_ self)
    (previous_goal_ self) (previous_orientation_ self) v.

Definition set_scale (o : dPoint_t) (t : float)
    (self : FullCoveragePathPlanner) : FullCoveragePathPlanner :=
  mkPlanner (initialized_ self) t o (previous_goal_ self)
    (previous_orientation_ self) (turn_around_directions_ self).

(** ** PathComposer: [parsePointlist2Plan] *)

Section PathComposer.

(** libm, and the helper of the header that turns a yaw into a quaternion
    message. *)
Variable cos sin : float -> float.
Variable atan2 : float -> float -> float.
Variable createQuaternionMsgFromYaw : float -> Quaternion.

(** The centre of a tile in world coordinates, on one axis. *)
Definition tile_center (tile_size origin : float) (i : Z) : float :=
  (Double.of_Z i * tile_size + origin + tile_size * 0.5)%float.

(** [new_goal] with frame, position and orientation assigned. *)
Definition goal_at (self : FullCoveragePathPlanner) (new_goal : PoseStamped)
    (p : Point_t) (q : Quaternion) : PoseStamped :=
  set_orientation q
    (set_position_xy
       (tile_center (tile_size_ self) (dpt_x (grid_origin_ self)) (pt_x p))
       (tile_center (tile_size_ self) (dpt_y (grid_origin_ self)) (pt_y p))
       (set_frame_id "map" new_goal)).

(** [dx + dy * 2] *)
Definition move_dir (dx dy : Z) : Z := Int.add dx (Int.mul dy 2).

(** The [switch] on [move_dir_now]: a code outside the five cases leaves
    the orientation as it is, like [dir::none]. *)
Definition switch_orientation (move_dir_now : Z) (orientation : float) : float :=
  if move_dir_now =? dir.none then orientation
  else if move_dir_now =? dir.right then 0%float
  else if move_dir_now =? dir.up then (Double.M_PI / 2)%float
  else if move_dir_now =? dir.left then Double.M_PI
  else if move_dir_now =? dir.down then (Double.M_PI * 1.5)%float
  else orientation.

(** The test for a turn of 180 degrees. *)
Definition reversal (orientation previous_orientation : float) : bool :=
  ((cos orientation =? - cos previous_orientation)%float
     && Double.neqb (cos orientation) 0)
  || ((sin orientation =? - sin previous_orientation)%float
        && Double.neqb (sin orientation) 0).

Definition do_publish (move_dir_now move_dir_next : Z) (first last : bool) : bool :=
  negb (move_dir_next =? move_dir_now) || first || last.

(** The state one iteration hands to the next: the planner object, the
    locals [new_goal] and [orientation] declared before the loop, and the
    plan. *)
Record loop_state : Type := mkLoop {
  self_ : FullCoveragePathPlanner;
  new_goal_ : PoseStamped;
  orientation_ : float;
  plan_ : list PoseStamped
}.

(** The differences an iteration computes: at the first tile [dx_next] and
    [dy_next] are not assigned and hold the indeterminate [uninit]. *)
Definition deltas (first : bool) (uninit : Z * Z) (p_prev p p_next : Point_t)
    : Z * Z * Z * Z :=
  if first then
    (Int.sub (pt_x p_next) (pt_x p), Int.sub (pt_y p_next) (pt_y p),
     fst uninit, snd uninit)
  else
    (Int.sub (pt_x p) (pt_x p_prev), Int.sub (pt_y p) (pt_y p_prev),
     Int.sub (pt_x p_next) (pt_x p), Int.sub (pt_y p_next) (pt_y p)).

(** The republication before a waypoint that is not the first: the
    intermediate heading on a reversal, then the previous goal with the new
    heading. *)
Definition republish (orientation : float) (q : Quaternion)
    (self : FullCoveragePathPlanner) (plan : list PoseStamped)
    : outcome (FullCoveragePathPlanner * list PoseStamped) :=
  sp <- (if reversal orientation (previous_orientation_ self) then
           d <- from_option (back (turn_around_directions_ self)) ;;
           let yaw :=
             if eRotateDirection_eqb d eClockwise
             then (orientation - Double.M_PI / 2)%float
             else (orientation + Double.M_PI / 2)%float in
           let g := set_orientation (createQuaternionMsgFromYaw yaw)
                      (previous_goal_ self) in
           Done (set_turn_around_directions
                   (pop_back (turn_around_directions_ self))
                   (set_previous_goal g self),
                 push_back plan g)
         else Done (self, plan)) ;;
  let g := set_orientation q (previous_goal_ (fst sp)) in
  Done (set_previous_goal g (fst sp), push_back (snd sp) g).

(** One iteration of the loop at tile [p]; [p_prev] and [p_next] are what
    [*it_prev] and [*it_next] read. *)
Definition visit (first last : bool) (uninit : Z * Z)
    (p_prev p p_next : Point_t) (s : loop_state) : outcome loop_state :=
  let '(dx_now, dy_now, dx_next, dy_next) := deltas first uninit p_prev p p_next in
  let move_dir_now := move_dir dx_now dy_now in
  let move_dir_next := move_dir dx_next dy_next in
  if do_publish move_dir_now move_dir_next first last then
    let orientation := switch_orientation move_dir_now (orientation_ s) in
    let q := createQuaternionMsgFromYaw orientation in
    let new_goal := goal_at (self_ s) (new_goal_ s) p q in
    sp <- (if negb first then republish orientation q (self_ s) (plan_ s)
           else Done (self_ s, plan_ s)) ;;
    Done (mkLoop (set_previous new_goal orientation (fst sp)) new_goal
            orientation (push_back (snd sp) new_goal))
  else Done s.

(** The loop over [goalpoints], from the tile [it] points to.  [past_end]
    is what dereferencing [goalpoints.end()] reads: [*it_next] at the last
    tile.  At the first tile [it_prev] is not dereferenced. *)
Fixpoint visit_from (first : bool) (uninit : Z * Z) (past_end : Point_t)
    (p_prev : Point_t) (rest : list Point_t) (s : loop_state)
    : outcome loop_state :=
  match rest with
  | [] => Done s
  | p :: rest' =>
      let last := match rest' with [] => true | _ :: _ => false end in
      let p_next := match rest' with [] => past_end | n :: _ => n end in
      s' <- visit first last uninit p_prev p p_next s ;;
      visit_from false uninit past_end p rest' s'
  end.

(** The tile-derived waypoints: the branches on the size of [goalpoints].
    The result is [None] on the early return of the empty list. *)
Definition compose_tiles (self : FullCoveragePathPlanner)
    (goalpoints : list Point_t) (plan : list PoseStamped)
    (uninit : Z * Z) (past_end : Point_t)
    : outcome (option (FullCoveragePathPlanner * list PoseStamped)) :=
  match goalpoints with
  | [] => Done None
  | [p] =>
      let new_goal :=
        goal_at self default_PoseStamped p (createQuaternionMsgFromYaw 0) in
      Done (Some (self, push_back plan new_goal))
  | _ :: _ :: _ =>
      s <- visit_from true uninit past_end past_end goalpoints
             (mkLoop self default_PoseStamped (Double.of_Z dir.none) plan) ;;
      Done (Some (self_ s, plan_ s))
  end.

(** The two poses that lead from [start] to the first pose of the plan,
    when they are not at the same place. *)
Definition start_connector (start front : PoseStamped) : list PoseStamped :=
  let dy := (pos_y (position (pose front)) - pos_y (position (pose start)))%float in
  let dx := (pos_x (position (pose front)) - pos_x (position (pose start)))%float in
  if negb ((Double.fabs dy <? 100.0 * Double.FLT_EPSILON)%float
           && (Double.fabs dx <? 100.0 * Double.FLT_EPSILON)%float)
  then
    let yaw := atan2 dy dx in
    let quat_temp := createQuaternionMsgFromYaw yaw in
    [set_orientation quat_temp start; set_orientation quat_temp front]
  else [].

(** The end of the function: the connector and the current pose go in
    front of the plan. *)
Definition connect_start (start : PoseStamped) (plan : list PoseStamped)
    : outcome (list PoseStamped) :=
  match plan with
  | [] => Undefined
  | front :: _ => Done (start :: start_connector start front ++ plan)
  end.

Definition parsePointlist2Plan (self : FullCoveragePathPlanner)
    (start : PoseStamped) (goalpoints : list Point_t)
    (plan : list PoseStamped) (uninit : Z * Z) (past_end : Point_t)
    : outcome (FullCoveragePathPlanner * list PoseStamped) :=
  r <- compose_tiles self goalpoints plan uninit past_end ;;
  match r with
  | None => Done (self, plan)
  | Some (self', plan') =>
      plan'' <- connect_start start plan' ;;
      Done (self', plan'')
  end.

End PathComposer.

(** ** GridBuilder: [parseGrid] *)

(** What [parseGrid] reads of a [nav2_costmap_2d::Costmap2D]: the getters,
    the cost bytes behind the pointer of [getCharMap] (a map from the index
    to the byte) and [mapToWorld]. *)
Record Costmap2D : Type := mkCostmap2D {
  getResolution : float;
  getSizeInCellsX : Z;
  getSizeInCellsY : Z;
  getCharMap : Z -> Z;
  mapToWorld : Z -> Z -> float * float
}.

(** What a call of [parseGrid] leaves: the returned flag, the planner object
    and the three output parameters. *)
Record parseGrid_result : Type := mkGridResult {
  returned : bool;
  planner : FullCoveragePathPlanner;
  grid_out : list (list bool);
  scaled_start_out : Point_t;
  yaw_start_out : float
}.

Section GridBuilder.

(** libm, the angle of a tf2 quaternion, and the occupancy threshold of the
    header. *)
Variable ceil floor : float -> float.
Variable getAngle : Quaternion -> float.
Variable COVERAGE_COST : Z.

Section ScaleGrid.

Variable n_rows n_cols node_size : Z.
Variable cpp_costmap_data : Z -> Z.
(** The fuel every inner loop starts with. *)
Variable budget : nat.

(** The loop over [node_col], in the row [iy + node_row] of the map. *)
Fixpoint scan_cols (fuel : nat) (iy node_row ix node_col : Z)
    (node_occupied : bool) : outcome bool :=
  match fuel with
  | O => OutOfFuel
  | S fuel' =>
      if (node_col <? node_size) && (SizeT.add ix node_col <? n_cols) then
        let index_grid :=
          Int.wrap (SizeT.add (SizeT.mul (SizeT.add iy node_row) n_cols)
                      (SizeT.add ix node_col)) in
        if COVERAGE_COST <? cpp_costmap_data index_grid then Done true
        else scan_cols fuel' iy node_row ix (SizeT.add node_col 1) node_occupied
      else Done node_occupied
  end.

(** The loop over [node_row]: it stops at the first row that found an
    occupied cell. *)
Fixpoint scan_rows (fuel : nat) (iy ix node_row : Z) (node_occupied : bool)
    : outcome bool :=
  match fuel with
  | O => OutOfFuel
  | S fuel' =>
      if (node_row <? node_size) && (SizeT.add iy node_row <? n_rows)
         && Bool.eqb node_occupied false then
        occ <- scan_cols budget iy node_row ix 0 node_occupied ;;
        scan_rows fuel' iy ix (SizeT.add node_row 1) occ
      else Done node_occupied
  end.

(** The loop over [ix]: one row of tiles. *)
Fixpoint row_tiles (fuel : nat) (iy ix : Z) (grid_row : list bool)
    : outcome (list bool) :=
  match fuel with
  | O => OutOfFuel
  | S fuel' =>
      if ix <? n_cols then
        node_occupied <- scan_rows budget iy ix 0 false ;;
        row_tiles fuel' iy (SizeT.add ix node_size)
          (push_back grid_row node_occupied)
      else Done grid_row
  end.

(** The loop over [iy]: the rows of the grid. *)
Fixpoint grid_rows (fuel : nat) (iy : Z) (grid : list (list bool))
    : outcome (list (list bool)) :=
  match fuel with
  | O => OutOfFuel
  | S fuel' =>
      if iy <? n_rows then
        grid_row <- row_tiles budget iy 0 [] ;;
        grid_rows fuel' (SizeT.add iy node_size) (push_back grid grid_row)
      else Done grid
  end.

End ScaleGrid.

(** [node_size], the number of cells on the edge of a tile. *)
Definition node_size_of (cpp_costmap : Costmap2D) (grid_size : float) : option Z :=
  Double.to_size_t (dmax (ceil (grid_size / getResolution cpp_costmap)) 1).

(** The upper bound of the clamp of a start coordinate. *)
Definition start_bound (cells : Z) (tile_size : float) : float :=
  floor (Double.of_Z cells / tile_size).

(** A start coordinate in tiles, before the assignment to the [int]. *)
Definition scale_start (real origin tile_size : float) (cells : Z) : option Z :=
  Double.to_unsigned_int
    (clamp ((real - origin) / tile_size) 0.0 (start_bound cells tile_size)).

Definition parseGrid (fuel : nat) (self : FullCoveragePathPlanner)
    (cpp_costmap : Costmap2D) (grid : list (list bool)) (grid_size : float)
    (real_start : PoseStamped) (scaled_start : Point_t) (yaw_start : float)
    : outcome parseGrid_result :=
  node_size <- from_option (node_size_of cpp_costmap grid_size) ;;
  let n_rows := getSizeInCellsY cpp_costmap in
  let n_cols := getSizeInCellsX cpp_costmap in
  let cpp_costmap_data := getCharMap cpp_costmap in
  if (n_rows =? 0) || (n_cols =? 0) then
    Done (mkGridResult false self grid scaled_start yaw_start)
  else
    let origin := mapToWorld cpp_costmap 0 0 in
    let tile_size := (Double.of_Z node_size * getResolution cpp_costmap)%float in
    let self := set_scale (mkdPoint_t (fst origin) (snd origin)) tile_size self in
    x <- from_option
           (scale_start (pos_x (position (pose real_start)))
              (dpt_x (grid_origin_ self)) (tile_size_ self)
              (getSizeInCellsX cpp_costmap)) ;;
    y <- from_option
           (scale_start (pos_y (position (pose real_start)))
              (dpt_y (grid_origin_ self)) (tile_size_ self)
              (getSizeInCellsY cpp_costmap)) ;;
    let scaled_start := mkPoint_t (Int.wrap x) (Int.wrap y) in
    let yaw_start := getAngle (orientation (pose real_start)) in
    grid <- grid_rows n_rows n_cols node_size cpp_costmap_data fuel fuel 0 grid ;;
    Done (mkGridResult true self grid scaled_start yaw_start).

End GridBuilder.

(** ** Notions the statements use *)

(** The direction code of the step from tile [p] to tile [q]. *)
Definition step_dir (p q : Point_t) : Z :=
  move_dir (Int.sub (pt_x q) (pt_x p)) (Int.sub (pt_y q) (pt_y p)).

(** Every step of [p :: rest] has the direction code [d]. *)
Fixpoint steps_all (d : Z) (p : Point_t) (rest : list Point_t) : bool :=
  match rest with
  | [] => true
  | q :: rest' => (step_dir p q =? d) && steps_all d q rest'
  end.

(** A visit list without a change of direction: all its steps have the code
    of the first one. *)
Definition straight (goalpoints : list Point_t) : bool :=
  match goalpoints with
  | p :: q :: rest => steps_all (step_dir p q) p (q :: rest)
  | _ => true
  end.

(** The heading between the old and the new one on a reversal. *)
Definition intermediate_yaw (d : eRotateDirection) (o : float) : float :=
  match d with
  | eClockwise => (o - Double.M_PI / 2)%float
  | eCounterClockwise => (o + Double.M_PI / 2)%float
  end.

(** The plan a run of [compose_tiles] leaves; on an empty incoming plan,
    the tile-derived waypoints. *)
Definition tile_waypoints
    (r : outcome (option (FullCoveragePathPlanner * list PoseStamped)))
    : list PoseStamped :=
  match r with
  | Done (Some (_, plan)) => plan
  | _ => []
  end.

(** The plan a call of [parsePointlist2Plan] leaves. *)
Definition plan_of (r : outcome (FullCoveragePathPlanner * list PoseStamped))
    : option (list PoseStamped) :=
  match r with
  | Done (_, plan) => Some plan
  | _ => None
  end.

(** The direction codes an iteration compares. *)
Definition dir_now (first : bool) (uninit : Z * Z) (p_prev p p_next : Point_t) : Z :=
  let '(dx_now, dy_now, _, _) := deltas first uninit p_prev p p_next in
  move_dir dx_now dy_now.

Definition dir_next (first : bool) (uninit : Z * Z) (p_prev p p_next : Point_t) : Z :=
  let '(_, _, dx_next, dy_next) := deltas first uninit p_prev p p_next in
  move_dir dx_next dy_next.

(** The getters of a costmap return [unsigned int]. *)
Definition sizes_in_range (cpp_costmap : Costmap2D) : Prop :=
  0 <= getSizeInCellsX cpp_costmap < UInt.modulus
  /\ 0 <= getSizeInCellsY cpp_costmap < UInt.modulus.

(** Every index of a cell fits the [int] that [index_grid] is. *)
Definition index_fits_int (cpp_costmap : Costmap2D) : Prop :=
  getSizeInCellsY cpp_costmap * getSizeInCellsX cpp_costmap <= Int.max_int + 1.

(** The cost of the cell in row [r] and column [c] of the map. *)
Definition cell_cost (cpp_costmap : Costmap2D) (r c : Z) : Z :=
  getCharMap cpp_costmap (r * getSizeInCellsX cpp_costmap + c).

(** Some cell of the footprint of the tile [(tx, ty)], clipped to the map,
    costs more than [threshold]. *)
Definition footprint_occupied (cpp_costmap : Costmap2D) (threshold node_size : Z)
    (ty tx : Z) : Prop :=
  exists r c,
    ty * node_size <= r < Z.min ((ty + 1) * node_size) (getSizeInCellsY cpp_costmap)
    /\ tx * node_size <= c < Z.min ((tx + 1) * node_size) (getSizeInCellsX cpp_costmap)
    /\ threshold < cell_cost cpp_costmap r c.

(** The doubles [parseGrid] converts to integers fit their types: the
    rounded-up ratio of the tile edge to the resolution is below [2 ^ 64] (or
    not a number), and the upper bounds of the start coordinates are not
    negative and below [2 ^ 31]. *)
Definition node_size_in_range (ceil : float -> float) (cpp_costmap : Costmap2D)
    (grid_size : float) : Prop :=
  (0x1p64 <=? ceil (grid_size / getResolution cpp_costmap))%float = false.

Definition bound_in_range (h : float) : Prop :=
  (0 <=? h)%float = true /\ (h <? 0x1p31)%float = true.

Definition start_bounds_in_range (ceil floor : float -> float)
    (cpp_costmap : Costmap2D) (grid_size : float) : Prop :=
  forall node_size,
    node_size_of ceil cpp_costmap grid_size = Some node_size ->
    let tile_size := (Double.of_Z node_size * getResolution cpp_costmap)%float in
    bound_in_range (start_bound floor (getSizeInCellsX cpp_costmap) tile_size)
    /\ bound_in_range (start_bound floor (getSizeInCellsY cpp_costmap) tile_size).

(** The weaker condition under which the conversions of [parseGrid] are
    defined: the upper bounds of the start coordinates are not negative and
    below [2 ^ 32], the range of [unsigned int]. *)
Definition bound_defined (h : float) : Prop :=
  (0 <=? h)%float = true /\ (h <? 0x1p32)%float = true.

Definition start_bounds_defined (ceil floor : float -> float)
    (cpp_costmap : Costmap2D) (grid_size : float) : Prop :=
  forall node_size,
    node_size_of ceil cpp_costmap grid_size = Some node_size ->
    let tile_size := (Double.of_Z node_size * getResolution cpp_costmap)%float in
    bound_defined (start_bound floor (getSizeInCellsX cpp_costmap) tile_size)
    /\ bound_defined (start_bound floor (getSizeInCellsY cpp_costmap) tile_size).

(** The boolean of the tile [(tx, ty)] of a grid. *)
Definition tile (grid : list (list bool)) (ty tx : nat) : option bool :=
  match nth_error grid ty with
  | Some grid_row => nth_error grid_row tx
  | None => None
  end.

(** ** The constructor and [publishPlan] *)

(** [nav_msgs::msg::Path]: a header and the poses. *)
Record Path : Type := mkPath { path_header : Header; poses : list PoseStamped }.

(** The constructor sets [initialized_] and nothing else: the message and the
    vector are default-constructed, the doubles are left indeterminate. *)
Definition FullCoveragePathPlanner_new (tile_size : float)
    (grid_origin : dPoint_t) (previous_orientation : float)
    : FullCoveragePathPlanner :=
  mkPlanner false tile_size grid_origin default_PoseStamped
    previous_orientation [].

(** [publishPlan]: [plan_pub_] is the list of the messages published so far.
    The error of the guard goes to the log, which is not modelled; [path[0]]
    of an empty path is undefined. *)
Definition publishPlan (self : FullCoveragePathPlanner)
    (path : list PoseStamped) (plan_pub_ : list Path) : outcome (list Path) :=
  if negb (initialized_ self) then Done plan_pub_
  else
    match path with
    | [] => Undefined
    | first :: _ =>
        let gui_header :=
          mkHeader (stamp (header first)) (frame_id (header first)) in
        let gui_poses := fold_left push_back path [] in
        Done (push_back plan_pub_ (mkPath gui_header gui_poses))
    end.

(** ** More notions the statements use *)

(** The tiles after the first at which a waypoint is published: the last
    tile, and every tile where the direction code changes. *)
Fixpoint publications (p_prev : Point_t) (rest : list Point_t) : nat :=
  match rest with
  | [] => O
  | p :: rest' =>
      match rest' with
      | [] => 1%nat
      | p_next :: _ =>
          Nat.add
            (if step_dir p p_next =? step_dir p_prev p then O else 1%nat)
            (publications p rest')
      end
  end.

(** A pose at the centre of one of the tiles, as [parsePointlist2Plan] makes
    them: frame "map", zero stamp and height. *)
Definition on_tile (self : FullCoveragePathPlanner) (tiles : list Point_t)
    (w : PoseStamped) : Prop :=
  exists p,
    In p tiles /\ w = goal_at self default_PoseStamped p (orientation (pose w)).

(** What the loop of [parsePointlist2Plan] keeps of the planner and of
    [new_goal]. *)
Definition same_scale (self self' : FullCoveragePathPlanner) : Prop :=
  initialized_ self' = initialized_ self
  /\ tile_size_ self' = tile_size_ self
  /\ grid_origin_ self' = grid_origin_ self.

Definition loop_base (self : FullCoveragePathPlanner) (s : loop_state) : Prop :=
  same_scale self (self_ s)
  /\ stamp (header (new_goal_ s)) = mkTime 0 0
  /\ pos_z (position (pose (new_goal_ s))) = 0%float.

(** The quotient rounded up. *)
Definition ceil_div (a b : Z) : Z := (a + b - 1) / b.

(** ** A sample of the external functions *)

Module Sample.

Import Double.

(** libm at the headings of the four directions and at the half angles the
    quaternions of the examples need; [nan] stands for every other
    argument. *)
Definition cos (x : float) : float :=
  if (x =? 0)%float then 1%float
  else if (x =? M_PI / 4)%float then 0x1.6a09e667f3bcdp-1%float
  else if (x =? M_PI / 2)%float then 0x1.1a62633145c07p-54%float
  else if (x =? M_PI)%float then (-1)%float
  else if (x =? M_PI * 1.5)%float then (-0x1.a79394c9e8a0ap-53)%float
  else nan.

Definition sin (x : float) : float :=
  if (x =? 0)%float then x
  else if (x =? M_PI / 4)%float then 0x1.6a09e667f3bccp-1%float
  else if (x =? M_PI / 2)%float then 1%float
  else if (x =? M_PI)%float then 0x1.1a62633145c07p-53%float
  else if (x =? M_PI * 1.5)%float then (-1)%float
  else nan.

Definition atan2 (y x : float) : float :=
  if (y =? 0)%float && (0 <? x)%float then y
  else if (x =? 0)%float && (0 <? y)%float then (M_PI / 2)%float
  else nan.

(** Rounding to an integer by the sum with [2 ^ 52], exact for every
    double. *)
Definition rint (x : float) : float :=
  if (abs x <? 0x1p52)%float then
    if (x <? 0)%float then (x - 0x1p52 + 0x1p52)%float
    else (x + 0x1p52 - 0x1p52)%float
  else x.

Definition floor (x : float) : float :=
  let r := rint x in if (x <? r)%float then (r - 1)%float else r.

Definition ceil (x : float) : float :=
  let r := rint x in if (r <? x)%float then (r + 1)%float else r.

(** tf2: a rotation about the vertical axis, and the angle of a quaternion
    (twice the arc cosine of [w], here for the identity only). *)
Definition createQuaternionMsgFromYaw (yaw : float) : Quaternion :=
  mkQuaternion 0 0 (sin (yaw * 0.5)) (cos (yaw * 0.5)).

Definition getAngle (q : Quaternion) : float :=
  if (q_w q =? 1)%float then 0%float else nan.

Definition COVERAGE_COST : Z := 65.

Definition planner0 : FullCoveragePathPlanner :=
  mkPlanner true 1 (mkdPoint_t 0 0) default_PoseStamped 0 [].

Definition pose_at (x y : float) : PoseStamped :=
  mkPoseStamped (mkHeader (mkTime 0 0) "map")
    (mkPose (mkPoint x y 0) (mkQuaternion 0 0 0 1)).

(** The planner with two pending turns, the last one clockwise. *)
Definition planner2 : FullCoveragePathPlanner :=
  set_turn_around_directions [eCounterClockwise; eClockwise] planner0.

(** The loop after the tiles (0,0) and (1,0) of a visit list that goes on:
    heading 0, three poses in the plan. *)
Definition heading_right : loop_state :=
  mkLoop (set_previous (pose_at 1.5 0.5) 0 planner2) (pose_at 1.5 0.5) 0
    [pose_at 0.5 0.5; pose_at 0.5 0.5; pose_at 1.5 0.5].

(** A map of 3 rows and 5 columns with resolution 1 and two occupied cells:
    row 1, column 2 and row 2, column 4. *)
Definition costmap : Costmap2D :=
  mkCostmap2D 1 5 3
    (fun i => if (i =? 7) || (i =? 14) then 254 else 0)
    (fun mx my =>
       ((Double.of_Z mx + 0.5) * 1, (Double.of_Z my + 0.5) * 1)%float).

(** The same map without columns. *)
Definition costmap_no_columns : Costmap2D :=
  mkCostmap2D 1 0 3 (getCharMap costmap) (mapToWorld costmap).

(** The double nearest to [1e-9]. *)
Definition nano : float := 0x1.12e0be826d695p-30.

(** A free map of 3 rows and 3 columns with resolution [nano]. *)
Definition costmap_fine : Costmap2D :=
  mkCostmap2D nano 3 3 (fun _ => 0)
    (fun mx my =>
       ((Double.of_Z mx + 0.5) * nano, (Double.of_Z my + 0.5) * nano)%float).

(** The planner an earlier call left heading right at the tile (1,0), with
    two turns pending. *)
Definition planner_heading_right : FullCoveragePathPlanner :=
  set_previous (pose_at 1.5 0.5) 0 planner2.

(** The loop at the start of the next call on that planner. *)
Definition second_call : loop_state :=
  mkLoop planner_heading_right default_PoseStamped (Double.of_Z dir.none) [].

End Sample.

(** * Properties *)

(** ** The vector as a stack *)

Lemma back_push_back (A : Type) (v : list A) (a : A) :
  back (push_back v a) = Some a.
Proof.
  unfold back, push_back. rewrite rev_app_distr. reflexivity.
Qed.

Lemma pop_back_push_back (A : Type) (v : list A) (a : A) :
  pop_back (push_back v a) = v.
Proof.
  unfold pop_back, push_back. apply removelast_last.
Qed.

Lemma back_None (A : Type) (v : list A) : back v = None <-> v = [].
Proof.
  split.
  - destruct v as [| a v] using rev_ind; [reflexivity |].
    change (v ++ [a]) with (push_back v a). rewrite back_push_back. discriminate.
  - intros ->. reflexivity.
Qed.

Lemma back_Some (A : Type) (v : list A) (a : A) :
  back v = Some a -> v = push_back (pop_back v) a.
Proof.
  destruct v as [| b v _] using rev_ind; [discriminate |].
  change (v ++ [b]) with (push_back v b).
  rewrite back_push_back, pop_back_push_back. congruence.
Qed.

Lemma last_cons_default (A : Type) (l : list A) :
  forall (a d d' : A), last (a :: l) d = last (a :: l) d'.
Proof.
  induction l as [| b l IH]; intros a d d'; [reflexivity |].
  change (last (b :: l) d = last (b :: l) d'). apply IH.
Qed.

(** ** Comparisons of doubles *)

Lemma Prim2SF_zero : Prim2SF 0%float = S754_zero false.
Proof. reflexivity. Qed.

(** A double equal to its opposite is a zero. *)
Lemma eqb_opp_self (x : float) :
  (x =? - x)%float = true -> (x =? 0)%float = true.
Proof.
  rewrite !eqb_spec, opp_spec, Prim2SF_zero.
  destruct (Prim2SF x) as [s | s | | s m e]; cbn; try discriminate.
  - reflexivity.
  - destruct s; discriminate.
  - destruct s; cbn; discriminate.
Qed.

Lemma antiparallel_self (x : float) :
  (x =? - x)%float && Double.neqb x 0 = false.
Proof.
  unfold Double.neqb.
  destruct (x =? - x)%float eqn:E; [| reflexivity].
  rewrite (eqb_opp_self _ E). reflexivity.
Qed.

(** ** The order of the doubles and the truncation *)

Lemma digits2_pos_bounds (m : positive) :
  2 ^ (Z.pos (digits2_pos m) - 1) <= Z.pos m < 2 ^ Z.pos (digits2_pos m).
Proof.
  induction m as [m IH | m IH |]; cbn [digits2_pos].
  - rewrite Pos2Z.inj_succ. change (Z.pos m~1) with (2 * Z.pos m + 1).
    replace (Z.succ (Z.pos (digits2_pos m)) - 1) with (Z.succ (Z.pos (digits2_pos m) - 1)) by lia.
    rewrite !Z.pow_succ_r by lia.
    lia.
  - rewrite Pos2Z.inj_succ. change (Z.pos m~0) with (2 * Z.pos m).
    replace (Z.succ (Z.pos (digits2_pos m)) - 1) with (Z.succ (Z.pos (digits2_pos m) - 1)) by lia.
    rewrite !Z.pow_succ_r by lia.
    lia.
  - cbn. lia.
Qed.

Lemma valid_finite (s : bool) (m : positive) (e : Z) :
  valid_binary (S754_finite s m e) = true ->
  -1074 <= e <= 971 /\ Z.pos m < 2 ^ 53 /\ (-1074 < e -> 2 ^ 52 <= Z.pos m).
Proof.
  cbn [SpecFloat.valid_binary]. unfold bounded, canonical_mantissa, fexp, emin.
  change prec with 53. change emax with 1024.
  intros H. apply andb_prop in H as [Hc He].
  apply Z.eqb_eq in Hc. apply Z.leb_le in He.
  pose proof (digits2_pos_bounds m) as [Hlo Hhi].
  set (d := Z.pos (digits2_pos m)) in *.
  assert (Hd : 1 <= d) by (unfold d; lia).
  split; [lia |]. split.
  - apply Z.lt_le_trans with (1 := Hhi). apply Z.pow_le_mono_r; lia.
  - intros Hgt. assert (d = 53) as E by lia. rewrite E in Hlo. exact Hlo.
Qed.

Lemma pow2_pos (k : Z) : 0 <= k -> 0 < 2 ^ k.
Proof. intros. apply Z.pow_pos_nonneg; lia. Qed.

(** Magnitudes of two valid doubles compare like their exponents, then their
    mantissas. *)
Lemma magnitude_compare (s1 s2 : bool) (m1 m2 : positive) (e1 e2 : Z) :
  valid_binary (S754_finite s1 m1 e1) = true ->
  valid_binary (S754_finite s2 m2 e2) = true ->
  match e1 ?= e2 with
  | Lt => Lt
  | Gt => Gt
  | Eq => Pos.compare_cont Eq m1 m2
  end = (Z.pos m1 * 2 ^ (e1 + 1074) ?= Z.pos m2 * 2 ^ (e2 + 1074)).
Proof.
  intros V1 V2.
  apply valid_finite in V1 as (He1 & Hm1 & Hn1).
  apply valid_finite in V2 as (He2 & Hm2 & Hn2).
  destruct (Z.compare_spec e1 e2) as [E | L | G].
  - subst e2. pose proof (pow2_pos (e1 + 1074) ltac:(lia)) as Hp.
    change (Pos.compare_cont Eq m1 m2) with (Z.pos m1 ?= Z.pos m2).
    destruct (Z.compare_spec (Z.pos m1) (Z.pos m2)) as [E | L | G]; symmetry.
    + apply Z.compare_eq_iff. now rewrite E.
    + apply Z.compare_lt_iff. nia.
    + apply Z.compare_gt_iff. nia.
  - symmetry. apply Z.compare_lt_iff.
    replace (e2 + 1074) with ((e1 + 1074) + (e2 - e1)) by lia.
    rewrite (Z.pow_add_r 2 (e1 + 1074) (e2 - e1)) by lia.
    pose proof (pow2_pos (e1 + 1074) ltac:(lia)) as Hp.
    assert (Hj : 2 ^ 1 <= 2 ^ (e2 - e1)) by (apply Z.pow_le_mono_r; lia).
    change (2 ^ 1) with 2 in Hj.
    specialize (Hn2 ltac:(lia)).
    change (2 ^ 53) with (2 * 2 ^ 52) in Hm1.
    set (P := 2 ^ (e1 + 1074)) in *. set (J := 2 ^ (e2 - e1)) in *.
    set (H52 := 2 ^ 52) in *.
    assert (Hlt : Z.pos m1 < Z.pos m2 * J) by nia.
    replace (Z.pos m2 * (P * J)) with (Z.pos m2 * J * P) by ring.
    now apply Z.mul_lt_mono_pos_r.
  - symmetry. apply Z.compare_gt_iff. apply Z.gt_lt_iff.
    replace (e1 + 1074) with ((e2 + 1074) + (e1 - e2)) by lia.
    rewrite (Z.pow_add_r 2 (e2 + 1074) (e1 - e2)) by lia.
    pose proof (pow2_pos (e2 + 1074) ltac:(lia)) as Hp.
    assert (Hj : 2 ^ 1 <= 2 ^ (e1 - e2)) by (apply Z.pow_le_mono_r; lia).
    change (2 ^ 1) with 2 in Hj.
    specialize (Hn1 ltac:(lia)).
    change (2 ^ 53) with (2 * 2 ^ 52) in Hm2.
    set (P := 2 ^ (e2 + 1074)) in *. set (J := 2 ^ (e1 - e2)) in *.
    set (H52 := 2 ^ 52) in *.
    assert (Hlt : Z.pos m2 < Z.pos m1 * J) by nia.
    replace (Z.pos m1 * (P * J)) with (Z.pos m1 * J * P) by ring.
    apply Z.lt_gt. now apply Z.mul_lt_mono_pos_r.
Qed.

Lemma magnitude_pos (s : bool) (m : positive) (e : Z) :
  valid_binary (S754_finite s m e) = true -> 0 < Z.pos m * 2 ^ (e + 1074).
Proof.
  intros V. apply valid_finite in V as (He & _).
  apply Z.mul_pos_pos; [lia | apply pow2_pos; lia].
Qed.

Lemma scaled_compare (f1 f2 : spec_float) (z1 z2 : Z) :
  valid_binary f1 = true -> valid_binary f2 = true ->
  Double.scaled_SF f1 = Some z1 -> Double.scaled_SF f2 = Some z2 ->
  SFcompare f1 f2 = Some (z1 ?= z2).
Proof.
  intros V1 V2 H1 H2.
  destruct f1 as [s1 | s1 | | s1 m1 e1]; try discriminate;
    destruct f2 as [s2 | s2 | | s2 m2 e2]; try discriminate;
    unfold Double.scaled_SF in H1, H2;
    apply (f_equal (fun o => match o with Some z => z | None => 0 end)) in H1, H2;
    subst z1 z2; unfold SFcompare.
  - reflexivity.
  - pose proof (magnitude_pos _ _ _ V2).
    f_equal. symmetry. destruct s2.
    + apply Z.compare_gt_iff. lia.
    + apply Z.compare_lt_iff. lia.
  - pose proof (magnitude_pos _ _ _ V1).
    f_equal. symmetry. destruct s1.
    + apply Z.compare_lt_iff. lia.
    + apply Z.compare_gt_iff. lia.
  - pose proof (magnitude_compare _ _ _ _ _ _ V1 V2) as Hm.
    pose proof (magnitude_pos _ _ _ V1).
    pose proof (magnitude_pos _ _ _ V2).
    f_equal. destruct s1, s2.
    + rewrite Z.compare_opp.
      rewrite (Z.compare_antisym (Z.pos m1 * 2 ^ (e1 + 1074))), <- Hm.
      destruct (e1 ?= e2); reflexivity.
    + symmetry. apply Z.compare_lt_iff. lia.
    + symmetry. apply Z.compare_gt_iff. lia.
    + exact Hm.
Qed.

Lemma shiftl_scaled (m : positive) (e : Z) :
  -1074 <= e ->
  Z.shiftl (Z.pos m) e = (Z.pos m * 2 ^ (e + 1074)) / 2 ^ 1074.
Proof.
  intros He. destruct (Z.le_gt_cases 0 e) as [Hp | Hn].
  - rewrite Z.shiftl_mul_pow2 by assumption.
    rewrite Z.pow_add_r by lia. rewrite Z.mul_assoc.
    rewrite Z.div_mul; [reflexivity |].
    pose proof (pow2_pos 1074 ltac:(lia)). lia.
  - rewrite Z.shiftl_div_pow2 by lia.
    replace (2 ^ 1074) with (2 ^ (- e) * 2 ^ (e + 1074))
      by (rewrite <- Z.pow_add_r by lia; f_equal; lia).
    pose proof (pow2_pos (- e) ltac:(lia)).
    pose proof (pow2_pos (e + 1074) ltac:(lia)).
    rewrite Z.div_mul_cancel_r by lia. reflexivity.
Qed.

Lemma trunc_scaled (f : spec_float) (z : Z) :
  valid_binary f = true -> Double.scaled_SF f = Some z ->
  Double.trunc_SF f = Some (z ÷ 2 ^ 1074).
Proof.
  intros V H. destruct f as [s | s | | s m e]; try discriminate;
    unfold Double.scaled_SF in H;
    apply (f_equal (fun o => match o with Some z => z | None => 0 end)) in H;
    subst z; unfold Double.trunc_SF.
  - rewrite Z.quot_0_l; [reflexivity |].
    pose proof (pow2_pos 1074 ltac:(lia)). lia.
  - pose proof (valid_finite _ _ _ V) as (He & _).
    pose proof (pow2_pos 1074 ltac:(lia)) as HP.
    pose proof (magnitude_pos _ _ _ V) as HQ.
    rewrite shiftl_scaled by lia.
    f_equal. destruct s.
    + rewrite Z.quot_opp_l by lia. f_equal.
      symmetry. apply Z.quot_div_nonneg; lia.
    + symmetry. apply Z.quot_div_nonneg; lia.
Qed.

(** *** On primitive doubles *)

Lemma leb_scaled (a b : float) (za zb : Z) :
  Double.scaled a = Some za -> Double.scaled b = Some zb ->
  (a <=? b)%float = (za <=? zb).
Proof.
  intros Ha Hb. rewrite leb_spec. unfold SFleb.
  rewrite (scaled_compare _ _ _ _ (Prim2SF_valid a) (Prim2SF_valid b) Ha Hb).
  unfold Z.leb. destruct (za ?= zb); reflexivity.
Qed.

Lemma ltb_scaled (a b : float) (za zb : Z) :
  Double.scaled a = Some za -> Double.scaled b = Some zb ->
  (a <? b)%float = (za <? zb).
Proof.
  intros Ha Hb. rewrite ltb_spec. unfold SFltb.
  rewrite (scaled_compare _ _ _ _ (Prim2SF_valid a) (Prim2SF_valid b) Ha Hb).
  unfold Z.ltb. destruct (za ?= zb); reflexivity.
Qed.

Lemma trunc_of_scaled (a : float) (za : Z) :
  Double.scaled a = Some za -> Double.trunc a = Some (za ÷ 2 ^ 1074).
Proof.
  intros Ha. apply trunc_scaled; [apply Prim2SF_valid | exact Ha].
Qed.

(** A double between two finite doubles is finite. *)
Lemma between_finite (lo a hi : float) (zlo zhi : Z) :
  Double.scaled lo = Some zlo -> Double.scaled hi = Some zhi ->
  (lo <=? a)%float = true -> (a <=? hi)%float = true ->
  exists za, Double.scaled a = Some za.
Proof.
  unfold Double.scaled. rewrite !leb_spec. unfold SFleb.
  intros Hlo Hhi H1 H2.
  destruct (Prim2SF a) as [s | s | | s m e].
  - eexists. reflexivity.
  - destruct s.
    + destruct (Prim2SF lo); discriminate.
    + destruct (Prim2SF hi); discriminate.
  - destruct (Prim2SF hi); discriminate.
  - eexists. reflexivity.
Qed.

Lemma scaled_0 : Double.scaled 0 = Some 0.
Proof. reflexivity. Qed.

Lemma scaled_1 : Double.scaled 1 = Some (2 ^ 1074).
Proof. vm_compute. reflexivity. Qed.

Lemma scaled_pow31 : Double.scaled 0x1p31 = Some (2 ^ 31 * 2 ^ 1074).
Proof. vm_compute. reflexivity. Qed.

Lemma scaled_pow64 : Double.scaled 0x1p64 = Some (2 ^ 64 * 2 ^ 1074).
Proof. vm_compute. reflexivity. Qed.

Lemma unit_pos : 0 < 2 ^ 1074.
Proof. apply pow2_pos. lia. Qed.

(** The conversion of [dmax(a, 1)] to [size_t]: defined unless [a] is
    [2 ^ 64] or more, and then at least 1. *)
Lemma to_size_t_dmax_1 (a : float) :
  (0x1p64 <=? a)%float = false ->
  exists n,
    Double.to_size_t (dmax a 1) = Some n
    /\ 1 <= n < SizeT.modulus
    /\ ((1 <=? a)%float = true -> Double.trunc a = Some n)
    /\ ((1 <=? a)%float = false -> n = 1).
Proof.
  intros Hmax. unfold dmax, Double.geb.
  destruct (1 <=? a)%float eqn:H1.
  - assert (exists za, Double.scaled a = Some za) as [za Ha].
    { revert H1 Hmax. unfold Double.scaled. rewrite !leb_spec. unfold SFleb.
      destruct (Prim2SF a) as [s | s | | s m e]; try (eexists; reflexivity).
      - destruct s; [intros H; discriminate H | intros _ H; discriminate H].
      - intros H; discriminate H. }
    rewrite (leb_scaled _ _ _ _ scaled_1 Ha) in H1. apply Z.leb_le in H1.
    rewrite (leb_scaled _ _ _ _ scaled_pow64 Ha) in Hmax.
    apply Z.leb_gt in Hmax.
    pose proof unit_pos as HP.
    assert (Hlo : 1 <= za ÷ 2 ^ 1074)
      by (apply Z.quot_le_lower_bound; lia).
    assert (Hhi : za ÷ 2 ^ 1074 < 2 ^ 64)
      by (apply Z.quot_lt_upper_bound; lia).
    exists (za ÷ 2 ^ 1074).
    unfold Double.to_size_t, Double.to_unsigned. rewrite (trunc_of_scaled _ _ Ha).
    unfold SizeT.modulus.
    replace (0 <=? za ÷ 2 ^ 1074) with true by (symmetry; apply Z.leb_le; lia).
    replace (za ÷ 2 ^ 1074 <? 2 ^ 64) with true by (symmetry; apply Z.ltb_lt; lia).
    repeat split; try lia; discriminate.
  - exists 1. unfold SizeT.modulus. repeat split; try lia; discriminate.
Qed.

(** The conversion of [clamp(a, 0, hi)] to [unsigned int]: for an upper bound
    that is not negative and is below [2 ^ 31], it is defined for every [a]
    and lies between 0 and the integer part of the bound. *)
Lemma to_unsigned_int_clamp (a hi : float) :
  (0 <=? hi)%float = true -> (hi <? 0x1p31)%float = true ->
  exists z zhi,
    Double.to_unsigned_int (clamp a 0 hi) = Some z
    /\ Double.trunc hi = Some zhi
    /\ 0 <= z <= zhi /\ zhi < 2 ^ 31.
Proof.
  intros Hlo Hhi.
  assert (exists zh, Double.scaled hi = Some zh) as [zh Hh].
  { revert Hlo Hhi. unfold Double.scaled. rewrite leb_spec, ltb_spec.
    unfold SFleb, SFltb.
    destruct (Prim2SF hi) as [s | s | | s m e]; try (eexists; reflexivity).
    - destruct s; [intros H; discriminate H | intros _ H; discriminate H].
    - intros H; discriminate H. }
  rewrite (leb_scaled _ _ _ _ scaled_0 Hh) in Hlo. apply Z.leb_le in Hlo.
  rewrite (ltb_scaled _ _ _ _ Hh scaled_pow31) in Hhi. apply Z.ltb_lt in Hhi.
  pose proof unit_pos as HP.
  assert (Hq0 : 0 <= zh ÷ 2 ^ 1074) by (apply Z.quot_pos; lia).
  assert (Hq1 : zh ÷ 2 ^ 1074 < 2 ^ 31)
    by (apply Z.quot_lt_upper_bound; lia).
  assert (Hc : exists zc, Double.scaled (clamp a 0 hi) = Some zc /\ 0 <= zc <= zh).
  { unfold clamp, dmax, dmin, Double.geb.
    destruct (a <=? hi)%float eqn:Ha.
    - destruct (0 <=? a)%float eqn:H0.
      + destruct (between_finite _ _ _ _ _ scaled_0 Hh H0 Ha) as [za Hza].
        exists za. split; [exact Hza |].
        rewrite (leb_scaled _ _ _ _ scaled_0 Hza) in H0.
        rewrite (leb_scaled _ _ _ _ Hza Hh) in Ha.
        apply Z.leb_le in H0, Ha. lia.
      + exists 0. split; [exact scaled_0 | lia].
    - rewrite (leb_scaled _ _ _ _ scaled_0 Hh).
      replace (0 <=? zh) with true by (symmetry; apply Z.leb_le; lia).
      exists zh. split; [exact Hh | lia]. }
  destruct Hc as (zc & Hzc & Hc0 & Hc1).
  exists (zc ÷ 2 ^ 1074), (zh ÷ 2 ^ 1074).
  assert (Hz0 : 0 <= zc ÷ 2 ^ 1074) by (apply Z.quot_pos; lia).
  assert (Hz1 : zc ÷ 2 ^ 1074 <= zh ÷ 2 ^ 1074)
    by (apply Z.quot_le_mono; lia).
  unfold Double.to_unsigned_int, Double.to_unsigned.
  rewrite (trunc_of_scaled _ _ Hzc), (trunc_of_scaled _ _ Hh).
  unfold UInt.modulus.
  replace (0 <=? zc ÷ 2 ^ 1074) with true by (symmetry; apply Z.leb_le; lia).
  replace (zc ÷ 2 ^ 1074 <? 2 ^ 32) with true by (symmetry; apply Z.ltb_lt; lia).
  repeat split; lia.
Qed.

Lemma scaled_pow32 : Double.scaled 0x1p32 = Some (2 ^ 32 * 2 ^ 1074).
Proof. vm_compute. reflexivity. Qed.

(** The same for an upper bound below [2 ^ 32], the whole range of
    [unsigned int]. *)
Lemma to_unsigned_int_clamp_wide (a hi : float) :
  (0 <=? hi)%float = true -> (hi <? 0x1p32)%float = true ->
  exists z zhi,
    Double.to_unsigned_int (clamp a 0 hi) = Some z
    /\ Double.trunc hi = Some zhi
    /\ 0 <= z <= zhi /\ zhi < 2 ^ 32.
Proof.
  intros Hlo Hhi.
  assert (exists zh, Double.scaled hi = Some zh) as [zh Hh].
  { revert Hlo Hhi. unfold Double.scaled. rewrite leb_spec, ltb_spec.
    unfold SFleb, SFltb.
    destruct (Prim2SF hi) as [s | s | | s m e]; try (eexists; reflexivity).
    - destruct s; [intros H; discriminate H | intros _ H; discriminate H].
    - intros H; discriminate H. }
  rewrite (leb_scaled _ _ _ _ scaled_0 Hh) in Hlo. apply Z.leb_le in Hlo.
  rewrite (ltb_scaled _ _ _ _ Hh scaled_pow32) in Hhi. apply Z.ltb_lt in Hhi.
  pose proof unit_pos as HP.
  assert (Hq0 : 0 <= zh ÷ 2 ^ 1074) by (apply Z.quot_pos; lia).
  assert (Hq1 : zh ÷ 2 ^ 1074 < 2 ^ 32)
    by (apply Z.quot_lt_upper_bound; lia).
  assert (Hc : exists zc, Double.scaled (clamp a 0 hi) = Some zc /\ 0 <= zc <= zh).
  { unfold clamp, dmax, dmin, Double.geb.
    destruct (a <=? hi)%float eqn:Ha.
    - destruct (0 <=? a)%float eqn:H0.
      + destruct (between_finite _ _ _ _ _ scaled_0 Hh H0 Ha) as [za Hza].
        exists za. split; [exact Hza |].
        rewrite (leb_scaled _ _ _ _ scaled_0 Hza) in H0.
        rewrite (leb_scaled _ _ _ _ Hza Hh) in Ha.
        apply Z.leb_le in H0, Ha. lia.
      + exists 0. split; [exact scaled_0 | lia].
    - rewrite (leb_scaled _ _ _ _ scaled_0 Hh).
      replace (0 <=? zh) with true by (symmetry; apply Z.leb_le; lia).
      exists zh. split; [exact Hh | lia]. }
  destruct Hc as (zc & Hzc & Hc0 & Hc1).
  exists (zc ÷ 2 ^ 1074), (zh ÷ 2 ^ 1074).
  assert (Hz0 : 0 <= zc ÷ 2 ^ 1074) by (apply Z.quot_pos; lia).
  assert (Hz1 : zc ÷ 2 ^ 1074 <= zh ÷ 2 ^ 1074)
    by (apply Z.quot_le_mono; lia).
  unfold Double.to_unsigned_int, Double.to_unsigned.
  rewrite (trunc_of_scaled _ _ Hzc), (trunc_of_scaled _ _ Hh).
  unfold UInt.modulus.
  replace (0 <=? zc ÷ 2 ^ 1074) with true by (symmetry; apply Z.leb_le; lia).
  replace (zc ÷ 2 ^ 1074 <? 2 ^ 32) with true by (symmetry; apply Z.ltb_lt; lia).
  repeat split; lia.
Qed.

(** ** PathComposer *)

Section PathComposerFacts.

Variable cos sin : float -> float.
Variable atan2 : float -> float -> float.
Variable createQuaternionMsgFromYaw : float -> Quaternion.

Local Abbreviation reversal' := (reversal cos sin).
Local Abbreviation republish' := (republish cos sin createQuaternionMsgFromYaw).
Local Abbreviation visit' := (visit cos sin createQuaternionMsgFromYaw).
Local Abbreviation visit_from' := (visit_from cos sin createQuaternionMsgFromYaw).
Local Abbreviation compose_tiles' := (compose_tiles cos sin createQuaternionMsgFromYaw).
Local Abbreviation start_connector' :=
  (start_connector atan2 createQuaternionMsgFromYaw).
Local Abbreviation connect_start' := (connect_start atan2 createQuaternionMsgFromYaw).
Local Abbreviation parsePointlist2Plan' :=
  (parsePointlist2Plan cos sin atan2 createQuaternionMsgFromYaw).

(** *** The heading *)

Lemma reversal_same (o : float) : reversal' o o = false.
Proof.
  unfold reversal. now rewrite !antiparallel_self.
Qed.

Lemma switch_orientation_idem (d : Z) (o : float) :
  switch_orientation d (switch_orientation d o) = switch_orientation d o.
Proof.
  unfold switch_orientation.
  repeat match goal with |- context [if ?b then _ else _] => destruct b end;
    reflexivity.
Qed.

(** *** One iteration *)

Lemma dir_now_first (uninit : Z * Z) (p_prev p p_next : Point_t) :
  dir_now true uninit p_prev p p_next = step_dir p p_next.
Proof. reflexivity. Qed.

Lemma dir_now_later (uninit : Z * Z) (p_prev p p_next : Point_t) :
  dir_now false uninit p_prev p p_next = step_dir p_prev p.
Proof. reflexivity. Qed.

Lemma dir_next_later (uninit : Z * Z) (p_prev p p_next : Point_t) :
  dir_next false uninit p_prev p p_next = step_dir p p_next.
Proof. reflexivity. Qed.

(** The iteration in terms of the two direction codes. *)
Lemma visit_eq (first last : bool) (uninit : Z * Z) (p_prev p p_next : Point_t)
    (s : loop_state) :
  visit' first last uninit p_prev p p_next s =
    if do_publish (dir_now first uninit p_prev p p_next)
         (dir_next first uninit p_prev p p_next) first last
    then
      let orientation :=
        switch_orientation (dir_now first uninit p_prev p p_next) (orientation_ s) in
      let q := createQuaternionMsgFromYaw orientation in
      let new_goal := goal_at (self_ s) (new_goal_ s) p q in
      sp <- (if negb first then republish' orientation q (self_ s) (plan_ s)
             else Done (self_ s, plan_ s)) ;;
      Done (mkLoop (set_previous new_goal orientation (fst sp)) new_goal
              orientation (push_back (snd sp) new_goal))
    else Done s.
Proof.
  unfold visit, dir_now, dir_next.
  destruct (deltas first uninit p_prev p p_next) as [[[dx_now dy_now] dx_next] dy_next].
  reflexivity.
Qed.

Lemma do_publish_first (now next : Z) (last : bool) :
  do_publish now next true last = true.
Proof. unfold do_publish. now rewrite orb_true_r. Qed.

Lemma do_publish_last (now next : Z) (first : bool) :
  do_publish now next first true = true.
Proof. unfold do_publish. now rewrite orb_true_r. Qed.

Lemma do_publish_inner (now next : Z) :
  do_publish now next false false = negb (next =? now).
Proof. unfold do_publish. now rewrite !orb_false_r. Qed.

(** *** The republication *)

Lemma republish_plain (o : float) (q : Quaternion)
    (self : FullCoveragePathPlanner) (plan : list PoseStamped) :
  reversal' o (previous_orientation_ self) = false ->
  republish' o q self plan =
    Done (set_previous_goal (set_orientation q (previous_goal_ self)) self,
          push_back plan (set_orientation q (previous_goal_ self))).
Proof.
  intros H. unfold republish. rewrite H. reflexivity.
Qed.

Lemma republish_reversal (o : float) (q : Quaternion)
    (self : FullCoveragePathPlanner) (plan : list PoseStamped)
    (stack : list eRotateDirection) (d : eRotateDirection) :
  reversal' o (previous_orientation_ self) = true ->
  turn_around_directions_ self = push_back stack d ->
  republish' o q self plan =
    Done (set_turn_around_directions stack
            (set_previous_goal (set_orientation q (previous_goal_ self)) self),
          plan
            ++ [set_orientation
                  (createQuaternionMsgFromYaw (intermediate_yaw d o))
                  (previous_goal_ self);
                set_orientation q (previous_goal_ self)]).
Proof.
  intros H Hs. unfold republish.
  rewrite H, Hs, back_push_back, pop_back_push_back. cbn.
  unfold push_back. rewrite <- app_assoc.
  destruct d; reflexivity.
Qed.

Lemma republish_underflow (o : float) (q : Quaternion)
    (self : FullCoveragePathPlanner) (plan : list PoseStamped) :
  reversal' o (previous_orientation_ self) = true ->
  turn_around_directions_ self = [] ->
  republish' o q self plan = Undefined.
Proof.
  intros H Hs. unfold republish. rewrite H, Hs. reflexivity.
Qed.

(** *** The loop *)

Lemma visit_from_cons (first : bool) (uninit : Z * Z) (past_end p_prev p : Point_t)
    (rest : list Point_t) (s : loop_state) :
  visit_from' first uninit past_end p_prev (p :: rest) s =
    s' <- visit' first (match rest with [] => true | _ :: _ => false end) uninit
            p_prev p (match rest with [] => past_end | n :: _ => n end) s ;;
    visit_from' false uninit past_end p rest s'.
Proof. reflexivity. Qed.

(** *** A visit list without a change of direction *)

(** A tile that is neither first nor last and continues in the direction it
    was reached by publishes nothing. *)
Lemma visit_skip (uninit : Z * Z) (p_prev p p_next : Point_t) (s : loop_state) :
  step_dir p p_next = step_dir p_prev p ->
  visit' false false uninit p_prev p p_next s = Done s.
Proof.
  intros H. rewrite visit_eq, do_publish_inner, dir_now_later, dir_next_later, H.
  now rewrite Z.eqb_refl.
Qed.

(** The last tile, reached with the heading the previous waypoint has:
    the previous goal is republished, then the tile itself. *)
Lemma visit_last_same (uninit : Z * Z) (p_prev p p_next : Point_t) (s : loop_state) :
  switch_orientation (step_dir p_prev p) (orientation_ s) = orientation_ s ->
  previous_orientation_ (self_ s) = orientation_ s ->
  let o := orientation_ s in
  let q := createQuaternionMsgFromYaw o in
  let turned := set_orientation q (previous_goal_ (self_ s)) in
  let new_goal := goal_at (self_ s) (new_goal_ s) p q in
  visit' false true uninit p_prev p p_next s =
    Done (mkLoop (set_previous new_goal o (self_ s)) new_goal o
            (plan_ s ++ [turned; new_goal])).
Proof.
  intros Ho Hp o q turned new_goal.
  rewrite visit_eq, do_publish_last, dir_now_later. cbv zeta. rewrite Ho.
  cbn [negb]. rewrite republish_plain by (rewrite Hp; apply reversal_same).
  cbn. unfold push_back. now rewrite <- app_assoc.
Qed.

Lemma visit_from_straight (uninit : Z * Z) (past_end : Point_t) (d : Z) :
  forall (rest : list Point_t) (p_prev : Point_t) (s : loop_state),
    rest <> [] ->
    steps_all d p_prev rest = true ->
    switch_orientation d (orientation_ s) = orientation_ s ->
    previous_orientation_ (self_ s) = orientation_ s ->
    let o := orientation_ s in
    let q := createQuaternionMsgFromYaw o in
    let turned := set_orientation q (previous_goal_ (self_ s)) in
    let new_goal := goal_at (self_ s) (new_goal_ s) (last rest p_prev) q in
    visit_from' false uninit past_end p_prev rest s =
      Done (mkLoop (set_previous new_goal o (self_ s)) new_goal o
              (plan_ s ++ [turned; new_goal])).
Proof.
  induction rest as [| p rest IH]; intros p_prev s Hne Hd Ho Hp; [congruence |].
  cbn [steps_all] in Hd. apply andb_prop in Hd as [Hstep Hd].
  apply Z.eqb_eq in Hstep.
  destruct rest as [| p' rest].
  - rewrite visit_from_cons.
    rewrite visit_last_same by (rewrite ?Hstep; assumption).
    reflexivity.
  - rewrite visit_from_cons.
    assert (Hnext : step_dir p p' = d).
    { cbn [steps_all] in Hd. apply andb_prop in Hd as [H _]. now apply Z.eqb_eq. }
    rewrite visit_skip by congruence. cbn [bind].
    rewrite IH by (assumption || discriminate). cbv zeta.
    change (last (p :: p' :: rest) p_prev) with (last (p' :: rest) p_prev).
    now rewrite (last_cons_default _ rest p' p_prev p).
Qed.

Lemma of_Z_none : Double.of_Z dir.none = 0%float.
Proof. reflexivity. Qed.

(** The tile-derived waypoints of a straight visit list. *)
Lemma compose_tiles_straight (self : FullCoveragePathPlanner)
    (p0 p1 : Point_t) (rest : list Point_t) (plan : list PoseStamped)
    (uninit : Z * Z) (past_end : Point_t) :
  straight (p0 :: p1 :: rest) = true ->
  let o := switch_orientation (step_dir p0 p1) 0 in
  let q := createQuaternionMsgFromYaw o in
  let first_goal := goal_at self default_PoseStamped p0 q in
  let last_goal := goal_at self default_PoseStamped (last rest p1) q in
  compose_tiles' self (p0 :: p1 :: rest) plan uninit past_end =
    Done (Some (set_previous last_goal o self,
                plan ++ [first_goal; first_goal; last_goal])).
Proof.
  intros Hs o q first_goal last_goal. unfold straight in Hs.
  unfold compose_tiles. rewrite visit_from_cons.
  rewrite visit_eq, do_publish_first, dir_now_first. cbn [negb bind].
  rewrite of_Z_none. cbv zeta. fold o. fold q. cbn [self_ new_goal_ plan_ fst snd].
  fold first_goal.
  rewrite (@visit_from_straight uninit past_end (step_dir p0 p1));
    [ | discriminate | assumption | apply switch_orientation_idem | reflexivity ].
  cbv zeta. cbn [bind self_ plan_ new_goal_ orientation_].
  replace (last (p1 :: rest) p0) with (last rest p1)
    by (destruct rest as [| p2 rest2];
        [reflexivity | symmetry; apply (last_cons_default _ rest2 p2 p0 p1)]).
  unfold push_back. rewrite <- app_assoc. reflexivity.
Qed.
(** *** When the call is defined *)

Lemma visit_first (last : bool) (uninit : Z * Z) (p_prev p p_next : Point_t)
    (s : loop_state) :
  let o := switch_orientation (step_dir p p_next) (orientation_ s) in
  let new_goal := goal_at (self_ s) (new_goal_ s) p (createQuaternionMsgFromYaw o) in
  visit' true last uninit p_prev p p_next s =
    Done (mkLoop (set_previous new_goal o (self_ s)) new_goal o
            (push_back (plan_ s) new_goal)).
Proof.
  cbv zeta. rewrite visit_eq, do_publish_first, dir_now_first. reflexivity.
Qed.

Lemma republish_total (o : float) (q : Quaternion)
    (self : FullCoveragePathPlanner) (plan : list PoseStamped) :
  turn_around_directions_ self <> [] ->
  exists self' ext,
    republish' o q self plan = Done (self', plan ++ ext)
    /\ (length (turn_around_directions_ self)
        <= S (length (turn_around_directions_ self')))%nat.
Proof.
  intros Hne.
  destruct (reversal' o (previous_orientation_ self)) eqn:Hr.
  - destruct (back (turn_around_directions_ self)) as [d |] eqn:Hb.
    + apply back_Some in Hb.
      rewrite (republish_reversal _ q _ plan _ _ Hr Hb).
      eexists _, _. split; [reflexivity |].
      rewrite Hb at 1. unfold push_back. rewrite length_app. cbn. lia.
    + apply back_None in Hb. contradiction.
  - rewrite (republish_plain _ q _ plan Hr).
    eexists _, [_]. split; [reflexivity |]. cbn. lia.
Qed.

Lemma visit_total (last : bool) (uninit : Z * Z) (p_prev p p_next : Point_t)
    (s : loop_state) :
  turn_around_directions_ (self_ s) <> [] ->
  exists s' ext,
    visit' false last uninit p_prev p p_next s = Done s'
    /\ plan_ s' = plan_ s ++ ext
    /\ (length (turn_around_directions_ (self_ s))
        <= S (length (turn_around_directions_ (self_ s'))))%nat.
Proof.
  intros Hne. rewrite visit_eq.
  destruct (do_publish _ _ false last).
  - cbv zeta. cbn [negb].
    match goal with |- context [republish' ?o ?q ?self ?plan] =>
      destruct (@republish_total o q self plan Hne) as (self' & ext & -> & Hlen)
    end.
    cbn. eexists _, (ext ++ [_]). split; [reflexivity |].
    split; [unfold push_back; now rewrite app_assoc | exact Hlen].
  - exists s, []. rewrite app_nil_r. repeat split. lia.
Qed.

Lemma visit_from_total (uninit : Z * Z) (past_end : Point_t) :
  forall (rest : list Point_t) (p_prev : Point_t) (s : loop_state),
    (length rest <= length (turn_around_directions_ (self_ s)))%nat ->
    exists s' ext,
      visit_from' false uninit past_end p_prev rest s = Done s'
      /\ plan_ s' = plan_ s ++ ext.
Proof.
  induction rest as [| p rest IH]; intros p_prev s Hlen.
  - exists s, []. now rewrite app_nil_r.
  - rewrite visit_from_cons. cbn [length] in Hlen.
    match goal with |- context [visit' false ?l uninit p_prev p ?n s] =>
      destruct (@visit_total l uninit p_prev p n s) as (s1 & ext1 & -> & Hp1 & Hl1)
    end.
    { intros E. rewrite E in Hlen. cbn in Hlen. lia. }
    cbn [bind].
    destruct (IH p s1) as (s2 & ext2 & -> & Hp2); [lia |].
    exists s2, (ext1 ++ ext2). split; [reflexivity |].
    now rewrite Hp2, Hp1, app_assoc.
Qed.

Lemma compose_tiles_total (self : FullCoveragePathPlanner)
    (goalpoints : list Point_t) (plan : list PoseStamped)
    (uninit : Z * Z) (past_end : Point_t) :
  goalpoints <> [] ->
  (length goalpoints <= S (length (turn_around_directions_ self)))%nat ->
  exists self' g ext,
    compose_tiles' self goalpoints plan uninit past_end =
      Done (Some (self', plan ++ g :: ext)).
Proof.
  intros Hne Hlen. destruct goalpoints as [| p0 [| p1 rest]]; [congruence | |].
  - eexists _, _, []. reflexivity.
  - unfold compose_tiles. rewrite visit_from_cons, visit_first. cbn [bind].
    match goal with |- context [visit_from' false uninit past_end p0 _ ?s1] =>
      destruct (@visit_from_total uninit past_end (p1 :: rest) p0 s1)
        as (s2 & ext & -> & Hp)
    end.
    { cbn in *. lia. }
    cbn [bind]. rewrite Hp. cbn [plan_]. unfold push_back.
    rewrite <- app_assoc. eexists _, _, _. reflexivity.
Qed.

Lemma compose_tiles_None (self : FullCoveragePathPlanner)
    (goalpoints : list Point_t) (plan : list PoseStamped)
    (uninit : Z * Z) (past_end : Point_t) :
  compose_tiles' self goalpoints plan uninit past_end = Done None ->
  goalpoints = [].
Proof.
  destruct goalpoints as [| p0 [| p1 rest]]; [reflexivity | discriminate |].
  unfold compose_tiles.
  destruct (visit_from' true uninit past_end past_end (p0 :: p1 :: rest) _);
    discriminate.
Qed.

Lemma connect_start_head (start : PoseStamped) (plan plan' : list PoseStamped) :
  connect_start' start plan = Done plan' -> hd_error plan' = Some start.
Proof.
  destruct plan as [| front plan]; [discriminate |].
  cbn. intros [= <-]. reflexivity.
Qed.

(** *** The turn stack over a whole call *)

Lemma republish_stack (o : float) (q : Quaternion)
    (self self' : FullCoveragePathPlanner) (plan plan' : list PoseStamped) :
  republish' o q self plan = Done (self', plan') ->
  exists consumed,
    turn_around_directions_ self = turn_around_directions_ self' ++ consumed.
Proof.
  destruct (reversal' o (previous_orientation_ self)) eqn:Hr.
  - destruct (back (turn_around_directions_ self)) as [d |] eqn:Hb.
    + apply back_Some in Hb.
      rewrite (republish_reversal _ q _ plan _ _ Hr Hb).
      intros [= <- _]. exists [d]. exact Hb.
    + apply back_None in Hb.
      rewrite (republish_underflow _ q _ plan Hr Hb). discriminate.
  - rewrite (republish_plain _ q _ plan Hr).
    intros [= <- _]. exists []. cbn. now rewrite app_nil_r.
Qed.

Lemma visit_stack (first last : bool) (uninit : Z * Z)
    (p_prev p p_next : Point_t) (s s' : loop_state) :
  visit' first last uninit p_prev p p_next s = Done s' ->
  exists consumed,
    turn_around_directions_ (self_ s)
    = turn_around_directions_ (self_ s') ++ consumed.
Proof.
  rewrite visit_eq.
  destruct (do_publish _ _ first last).
  - cbv zeta. destruct first; cbn [negb].
    + cbn [bind]. intros [= <-]. exists []. cbn. now rewrite app_nil_r.
    + match goal with |- context [republish' ?o ?q ?self ?plan] =>
        destruct (republish' o q self plan) as [[self1 plan1] | |] eqn:Hr
      end; cbn [bind]; try discriminate.
      intros [= <-]. cbn. eapply republish_stack, Hr.
  - intros [= <-]. exists []. now rewrite app_nil_r.
Qed.

Lemma visit_from_stack (uninit : Z * Z) (past_end : Point_t) :
  forall (rest : list Point_t) (first : bool) (p_prev : Point_t)
         (s s' : loop_state),
    visit_from' first uninit past_end p_prev rest s = Done s' ->
    exists consumed,
      turn_around_directions_ (self_ s)
      = turn_around_directions_ (self_ s') ++ consumed.
Proof.
  induction rest as [| p rest IH]; intros first p_prev s s'.
  - intros [= <-]. exists []. now rewrite app_nil_r.
  - rewrite visit_from_cons.
    match goal with |- context [visit' first ?l uninit p_prev p ?n s] =>
      destruct (visit' first l uninit p_prev p n s) as [s1 | |] eqn:Hv
    end; cbn [bind]; try discriminate.
    intros Hrest.
    destruct (visit_stack _ _ _ _ _ _ _ _ Hv) as [c1 H1].
    destruct (IH _ _ _ _ Hrest) as [c2 H2].
    exists (c2 ++ c1). now rewrite H1, H2, app_assoc.
Qed.

(** A call that is defined leaves a turn stack that is the one it found
    without some of its last entries. *)
Lemma parsePointlist2Plan_stack (self self' : FullCoveragePathPlanner)
    (start : PoseStamped) (goalpoints : list Point_t)
    (plan plan' : list PoseStamped) (uninit : Z * Z) (past_end : Point_t) :
  parsePointlist2Plan' self start goalpoints plan uninit past_end
  = Done (self', plan') ->
  exists consumed,
    turn_around_directions_ self = turn_around_directions_ self' ++ consumed.
Proof.
  unfold parsePointlist2Plan.
  destruct goalpoints as [| p0 [| p1 rest]].
  - cbn. intros [= <- _]. exists []. now rewrite app_nil_r.
  - cbn [compose_tiles bind]. unfold connect_start, push_back.
    destruct (plan ++ _) as [| front plan1]; cbn [bind]; [discriminate |].
    intros [= <- _]. exists []. now rewrite app_nil_r.
  - unfold compose_tiles.
    match goal with |- context [visit_from' true uninit past_end past_end ?l ?s0] =>
      destruct (visit_from' true uninit past_end past_end l s0) as [s1 | |] eqn:Hv
    end; cbn [bind]; try discriminate.
    destruct (connect_start' start (plan_ s1)) as [plan1 | |]; cbn [bind];
      try discriminate.
    intros [= <- _].
    apply (visit_from_stack _ _ _ _ _ _ _ Hv).
Qed.

(** *** The indeterminate values *)

Lemma visit_first_indep (last : bool) (uninit uninit' : Z * Z)
    (p_prev p_prev' p p_next : Point_t) (s : loop_state) :
  visit' true last uninit p_prev p p_next s
  = visit' true last uninit' p_prev' p p_next s.
Proof.
  now rewrite !visit_eq, !do_publish_first, !dir_now_first.
Qed.

Lemma visit_last_indep (uninit uninit' : Z * Z)
    (p_prev p p_next p_next' : Point_t) (s : loop_state) :
  visit' false true uninit p_prev p p_next s
  = visit' false true uninit' p_prev p p_next' s.
Proof.
  now rewrite !visit_eq, !do_publish_last, !dir_now_later.
Qed.

Lemma visit_later_indep (last : bool) (uninit uninit' : Z * Z)
    (p_prev p p_next : Point_t) (s : loop_state) :
  visit' false last uninit p_prev p p_next s
  = visit' false last uninit' p_prev p p_next s.
Proof. reflexivity. Qed.

Lemma visit_from_later_indep (uninit uninit' : Z * Z) (past_end past_end' : Point_t) :
  forall (rest : list Point_t) (p_prev : Point_t) (s : loop_state),
    visit_from' false uninit past_end p_prev rest s
    = visit_from' false uninit' past_end' p_prev rest s.
Proof.
  induction rest as [| p rest IH]; intros p_prev s; [reflexivity |].
  rewrite !visit_from_cons.
  destruct rest as [| p' rest].
  - rewrite (visit_last_indep uninit uninit' p_prev p past_end past_end').
    destruct (visit' false true uninit' p_prev p past_end' s); reflexivity.
  - rewrite (visit_later_indep false uninit uninit').
    destruct (visit' false false uninit' p_prev p p' s); cbn [bind];
      [apply IH | reflexivity | reflexivity].
Qed.
(** *** The claims about [parsePointlist2Plan] *)

(** C1, as the code has it: a visit list of two or more tiles without a
    change of direction yields exactly three tile-derived plan entries,
    whatever its length: the waypoint of the first tile, the same waypoint
    once more (the republication of the previous goal that precedes every
    waypoint but the first, here with an unchanged heading), and the waypoint
    of the last tile.  With an empty incoming plan the result is the start
    pose, the connector, and these three. *)
Theorem straight_line_tile_waypoints (self : FullCoveragePathPlanner)
    (start : PoseStamped) (p0 p1 : Point_t) (rest : list Point_t)
    (plan : list PoseStamped) (uninit : Z * Z) (past_end : Point_t) :
  straight (p0 :: p1 :: rest) = true ->
  let o := switch_orientation (step_dir p0 p1) 0 in
  let q := createQuaternionMsgFromYaw o in
  let first_goal := goal_at self default_PoseStamped p0 q in
  let last_goal := goal_at self default_PoseStamped (last rest p1) q in
  compose_tiles' self (p0 :: p1 :: rest) plan uninit past_end =
    Done (Some (set_previous last_goal o self,
                plan ++ [first_goal; first_goal; last_goal]))
  /\ parsePointlist2Plan' self start (p0 :: p1 :: rest) [] uninit past_end =
       Done (set_previous last_goal o self,
             start :: start_connector' start first_goal
               ++ [first_goal; first_goal; last_goal]).
Proof.
  intros Hs o q first_goal last_goal. split.
  - now apply compose_tiles_straight.
  - unfold parsePointlist2Plan.
    rewrite (compose_tiles_straight self p0 p1 rest [] uninit past_end Hs).
    reflexivity.
Qed.

(** The empty visit list: the early return leaves the plan as it was. *)
Lemma empty_goalpoints_plan_unchanged (self : FullCoveragePathPlanner)
    (start : PoseStamped) (plan : list PoseStamped) (uninit : Z * Z)
    (past_end : Point_t) :
  parsePointlist2Plan' self start [] plan uninit past_end = Done (self, plan).
Proof. reflexivity. Qed.

(** C2, as the code has it: for every visit list that is not empty, a plan
    the call produces begins with the start pose, and the call does produce
    one whenever the turn stack holds an entry for every tile after the
    first. *)
Theorem nonempty_plan_begins_with_start (self : FullCoveragePathPlanner)
    (start : PoseStamped) (goalpoints : list Point_t) (plan : list PoseStamped)
    (uninit : Z * Z) (past_end : Point_t) :
  goalpoints <> [] ->
  (forall self' plan',
      parsePointlist2Plan' self start goalpoints plan uninit past_end
      = Done (self', plan') ->
      hd_error plan' = Some start)
  /\ ((length goalpoints <= S (length (turn_around_directions_ self)))%nat ->
      exists self' rest,
        parsePointlist2Plan' self start goalpoints plan uninit past_end
        = Done (self', start :: rest)).
Proof.
  intros Hne. split.
  - intros self' plan'. unfold parsePointlist2Plan.
    destruct (compose_tiles' self goalpoints plan uninit past_end)
      as [[[self1 plan1] |] | |] eqn:Hc; cbn [bind]; try discriminate.
    + destruct (connect_start' start plan1) as [plan2 | |] eqn:Hs;
        cbn [bind]; try discriminate.
      intros [= _ <-]. eapply connect_start_head, Hs.
    + apply compose_tiles_None in Hc. contradiction.
  - intros Hlen. unfold parsePointlist2Plan.
    destruct (compose_tiles_total self goalpoints plan uninit past_end Hne Hlen)
      as (self' & g & ext & ->).
    cbn [bind]. unfold connect_start.
    destruct (plan ++ g :: ext) as [| front plan1] eqn:E.
    + now apply app_eq_nil in E as [_ E].
    + cbn [bind]. eexists _, _. reflexivity.
Qed.

(** C3, as the code has it: at a tile after the first of the visit list that
    is published with a heading for which the reversal test holds against the
    previous heading, with [d] on top of the turn stack, the plan receives the previous goal with the new heading
    minus a quarter turn when [d] is clockwise and plus a quarter turn when it
    is counter-clockwise, then the previous goal with the new heading, then the
    new waypoint; and [d] is removed from the stack. *)
Theorem reversal_inserts_intermediate_heading (last : bool) (uninit : Z * Z)
    (p_prev p p_next : Point_t) (s : loop_state)
    (stack : list eRotateDirection) (d : eRotateDirection) :
  do_publish (dir_now false uninit p_prev p p_next)
    (dir_next false uninit p_prev p p_next) false last = true ->
  let o := switch_orientation (step_dir p_prev p) (orientation_ s) in
  reversal' o (previous_orientation_ (self_ s)) = true ->
  turn_around_directions_ (self_ s) = push_back stack d ->
  exists s',
    visit' false last uninit p_prev p p_next s = Done s'
    /\ plan_ s' =
         plan_ s
           ++ [set_orientation
                 (createQuaternionMsgFromYaw
                    (match d with
                     | eClockwise => o - Double.M_PI / 2
                     | eCounterClockwise => o + Double.M_PI / 2
                     end)%float)
                 (previous_goal_ (self_ s));
               set_orientation (createQuaternionMsgFromYaw o)
                 (previous_goal_ (self_ s));
               goal_at (self_ s) (new_goal_ s) p (createQuaternionMsgFromYaw o)]
    /\ turn_around_directions_ (self_ s') = stack.
Proof.
  intros Hpub o Hrev Hstack.
  rewrite visit_eq, Hpub, dir_now_later. cbv zeta. fold o. cbn [negb].
  rewrite (republish_reversal _ (createQuaternionMsgFromYaw o) _ (plan_ s) _ _
             Hrev Hstack).
  cbn [bind fst snd]. eexists. split; [reflexivity |]. cbn [plan_ self_].
  split; [| reflexivity].
  unfold push_back. rewrite <- app_assoc. reflexivity.
Qed.

(** C8, as the code has it: for a visit list of a single tile the tile-derived
    part of the plan is exactly one waypoint, at the centre of the tile with
    heading 0; the plan the call returns has the start pose and the connector
    in front of it. *)
Theorem single_tile_plan (self : FullCoveragePathPlanner)
    (start : PoseStamped) (p : Point_t) (plan : list PoseStamped)
    (uninit : Z * Z) (past_end : Point_t) :
  let new_goal :=
    goal_at self default_PoseStamped p (createQuaternionMsgFromYaw 0) in
  compose_tiles' self [p] plan uninit past_end =
    Done (Some (self, plan ++ [new_goal]))
  /\ parsePointlist2Plan' self start [p] [] uninit past_end =
       Done (self, start :: start_connector' start new_goal ++ [new_goal])
  /\ position (pose new_goal) =
       mkPoint
         (tile_center (tile_size_ self) (dpt_x (grid_origin_ self)) (pt_x p))
         (tile_center (tile_size_ self) (dpt_y (grid_origin_ self)) (pt_y p))
         0
  /\ orientation (pose new_goal) = createQuaternionMsgFromYaw 0.
Proof.
  repeat split.
Qed.

(** C9: for a visit list of two or more tiles the result of the call is the
    same whatever the indeterminate values are: [dx_next] and [dy_next] at
    the first tile, and what [*it_next] and [*it_prev] read past the ends of
    the list. *)
Theorem plan_independent_of_indeterminate_values
    (self : FullCoveragePathPlanner) (start : PoseStamped)
    (goalpoints : list Point_t) (plan : list PoseStamped)
    (uninit uninit' : Z * Z) (past_end past_end' : Point_t) :
  (2 <= length goalpoints)%nat ->
  parsePointlist2Plan' self start goalpoints plan uninit past_end
  = parsePointlist2Plan' self start goalpoints plan uninit' past_end'.
Proof.
  intros Hlen. destruct goalpoints as [| p0 [| p1 rest]]; cbn in Hlen; try lia.
  unfold parsePointlist2Plan, compose_tiles.
  rewrite !visit_from_cons.
  rewrite (visit_first_indep false uninit uninit' past_end past_end').
  destruct (visit' true false uninit' past_end' p0 p1 _) as [s1 | |];
    cbn [bind]; try reflexivity.
  now rewrite (visit_from_later_indep uninit uninit' past_end past_end').
Qed.


End PathComposerFacts.

(** ** GridBuilder *)

Lemma SizeT_add_small (a b : Z) :
  0 <= a + b < SizeT.modulus -> SizeT.add a b = a + b.
Proof. intros H. unfold SizeT.add, SizeT.wrap. now apply Z.mod_small. Qed.

Lemma SizeT_mul_small (a b : Z) :
  0 <= a * b < SizeT.modulus -> SizeT.mul a b = a * b.
Proof. intros H. unfold SizeT.mul, SizeT.wrap. now apply Z.mod_small. Qed.

Lemma Int_wrap_small (z : Z) : - 2 ^ 31 <= z < 2 ^ 31 -> Int.wrap z = z.
Proof.
  intros H. unfold Int.wrap. rewrite Z.mod_small; lia.
Qed.

Section ScaleGridFacts.

Variable COVERAGE_COST : Z.
Variable n_rows n_cols node_size : Z.
Variable cpp_costmap_data : Z -> Z.
Variable budget : nat.

Hypothesis rows_range : 0 <= n_rows < UInt.modulus.
Hypothesis cols_range : 0 <= n_cols < UInt.modulus.
Hypothesis node_range : 1 <= node_size < SizeT.modulus.
Hypothesis index_fits : n_rows * n_cols <= Int.max_int + 1.
Hypothesis budget_rows : n_rows < Z.of_nat budget.
Hypothesis budget_cols : n_cols < Z.of_nat budget.

Local Abbreviation scan_cols' :=
  (scan_cols COVERAGE_COST n_cols node_size cpp_costmap_data).
Local Abbreviation scan_rows' :=
  (scan_rows COVERAGE_COST n_rows n_cols node_size cpp_costmap_data budget).
Local Abbreviation row_tiles' :=
  (row_tiles COVERAGE_COST n_rows n_cols node_size cpp_costmap_data budget).
Local Abbreviation grid_rows' :=
  (grid_rows COVERAGE_COST n_rows n_cols node_size cpp_costmap_data budget).

(** Some cell in the rows from [r0] and the columns from [c0] of the tile
    whose first cell is [(ix, iy)] costs more than the threshold. *)
Local Abbreviation occupied_from iy ix r0 c0 :=
  (exists r c,
      r0 <= r < Z.min (iy + node_size) n_rows
      /\ c0 <= c < Z.min (ix + node_size) n_cols
      /\ COVERAGE_COST < cpp_costmap_data (r * n_cols + c)).

Lemma index_grid_eq (r c : Z) :
  0 <= r < n_rows -> 0 <= c < n_cols ->
  0 <= r * n_cols + c < 2 ^ 31.
Proof.
  intros Hr Hc. unfold Int.max_int in index_fits.
  assert (r * n_cols + c < n_rows * n_cols) by nia.
  split; [nia | lia].
Qed.

Lemma scan_cols_spec (iy node_row ix : Z) :
  0 <= iy -> 0 <= node_row -> iy + node_row < n_rows -> 0 <= ix ->
  forall (fuel : nat) (node_col : Z),
    0 <= node_col -> ix + node_col <= n_cols ->
    n_cols - (ix + node_col) < Z.of_nat fuel ->
    exists b,
      scan_cols' fuel iy node_row ix node_col false = Done b
      /\ (b = true <->
          exists c,
            ix + node_col <= c < Z.min (ix + node_size) n_cols
            /\ COVERAGE_COST < cpp_costmap_data ((iy + node_row) * n_cols + c)).
Proof.
  intros Hiy Hnr Hr Hix.
  unfold SizeT.modulus, UInt.modulus in *.
  induction fuel as [| fuel IH]; intros node_col Hnc Hinv Hfuel; [lia |].
  cbn [scan_cols].
  rewrite (SizeT_add_small ix node_col) by (unfold SizeT.modulus; lia).
  destruct (node_col <? node_size) eqn:E1; cbn [andb];
    [destruct (ix + node_col <? n_cols) eqn:E2 |].
  - apply Z.ltb_lt in E1, E2.
    pose proof (index_grid_eq (iy + node_row) (ix + node_col)
                  ltac:(lia) ltac:(lia)) as Hidx.
    rewrite (SizeT_add_small iy node_row) by (unfold SizeT.modulus; lia).
    rewrite SizeT_mul_small by (unfold SizeT.modulus; nia).
    rewrite SizeT_add_small by (unfold SizeT.modulus; lia).
    rewrite Int_wrap_small by lia.
    destruct (COVERAGE_COST
              <? cpp_costmap_data ((iy + node_row) * n_cols + (ix + node_col)))
      eqn:Ehit.
    + exists true. split; [reflexivity |]. split; [intros _ | reflexivity].
      exists (ix + node_col). apply Z.ltb_lt in Ehit. split; [lia | exact Ehit].
    + rewrite SizeT_add_small by (unfold SizeT.modulus; lia).
      destruct (IH (node_col + 1)) as (b & Hb & Hiff); [lia | lia | lia |].
      exists b. split; [exact Hb |]. rewrite Hiff. apply Z.ltb_ge in Ehit.
      split; intros (c & Hc & Hcost).
      * exists c. split; [lia | exact Hcost].
      * exists c. split; [| exact Hcost].
        assert (c <> ix + node_col) by (intros ->; lia). lia.
  - apply Z.ltb_lt in E1. apply Z.ltb_ge in E2.
    exists false. split; [reflexivity |]. split; [discriminate |].
    intros (c & Hc & _). lia.
  - apply Z.ltb_ge in E1.
    exists false. split; [reflexivity |]. split; [discriminate |].
    intros (c & Hc & _). lia.
Qed.

Lemma scan_rows_occupied (fuel : nat) (iy ix node_row : Z) :
  scan_rows' (S fuel) iy ix node_row true = Done true.
Proof. cbn [scan_rows]. now rewrite !andb_false_r. Qed.

Lemma scan_rows_spec (iy ix : Z) :
  0 <= iy -> 0 <= ix < n_cols ->
  forall (fuel : nat) (node_row : Z),
    0 <= node_row -> iy + node_row <= n_rows ->
    n_rows - (iy + node_row) < Z.of_nat fuel ->
    exists b,
      scan_rows' fuel iy ix node_row false = Done b
      /\ (b = true <-> occupied_from iy ix (iy + node_row) ix).
Proof.
  intros Hiy Hix.
  unfold SizeT.modulus, UInt.modulus in *.
  induction fuel as [| fuel IH]; intros node_row Hnr Hinv Hfuel; [lia |].
  cbn [scan_rows Bool.eqb andb].
  rewrite (SizeT_add_small iy node_row) by (unfold SizeT.modulus; lia).
  rewrite andb_true_r.
  destruct (node_row <? node_size) eqn:E1; cbn [andb];
    [destruct (iy + node_row <? n_rows) eqn:E2 |].
  - apply Z.ltb_lt in E1, E2.
    destruct (scan_cols_spec iy node_row ix Hiy Hnr E2 (proj1 Hix) budget 0)
      as (occ & Hocc & Hiff); [lia | lia | lia |].
    rewrite Hocc. cbn [bind].
    rewrite SizeT_add_small by (unfold SizeT.modulus; lia).
    destruct occ.
    + destruct fuel as [| fuel]; [lia |].
      rewrite scan_rows_occupied. exists true. split; [reflexivity |].
      split; [intros _ | reflexivity].
      destruct (proj1 Hiff eq_refl) as (c & Hc & Hcost).
      exists (iy + node_row), c.
      split; [lia |]. split; [lia | exact Hcost].
    + destruct (IH (node_row + 1)) as (b & Hb & Hb_iff); [lia | lia | lia |].
      exists b. split; [exact Hb |]. rewrite Hb_iff.
      split; intros (r & c & Hr & Hc & Hcost).
      * exists r, c. split; [lia |]. split; [lia | exact Hcost].
      * exists r, c. split; [| split; [lia | exact Hcost]].
        assert (r <> iy + node_row); [| lia].
        intros ->. assert (false = true); [| discriminate].
        apply Hiff. exists c. split; [lia | exact Hcost].
  - apply Z.ltb_lt in E1. apply Z.ltb_ge in E2.
    exists false. split; [reflexivity |]. split; [discriminate |].
    intros (r & c & Hr & _). lia.
  - apply Z.ltb_ge in E1.
    exists false. split; [reflexivity |]. split; [discriminate |].
    intros (r & c & Hr & _). lia.
Qed.

Lemma row_tiles_spec (iy : Z) :
  0 <= iy < n_rows ->
  forall (fuel : nat) (ix : Z) (grid_row : list bool),
    0 <= ix -> ix = 0 \/ node_size <= ix ->
    n_cols - ix < Z.of_nat fuel -> 0 < Z.of_nat fuel ->
    exists tiles,
      row_tiles' fuel iy ix grid_row = Done (grid_row ++ tiles)
      /\ forall (k : nat) (b : bool),
           nth_error tiles k = Some b ->
           (b = true <->
            occupied_from iy (ix + Z.of_nat k * node_size)
              iy (ix + Z.of_nat k * node_size)).
Proof.
  intros Hiy.
  unfold SizeT.modulus, UInt.modulus in *.
  induction fuel as [| fuel IH]; intros ix grid_row Hix Hinv Hfuel Hpos; [lia |].
  cbn [row_tiles].
  destruct (ix <? n_cols) eqn:E.
  - apply Z.ltb_lt in E.
    destruct (scan_rows_spec iy ix (proj1 Hiy) (conj Hix E) budget 0)
      as (b0 & Hb0 & Hiff0); [lia | lia | lia |].
    rewrite Hb0. cbn [bind]. rewrite Z.add_0_r in Hiff0.
    rewrite SizeT_add_small by (unfold SizeT.modulus; lia).
    destruct (IH (ix + node_size) (push_back grid_row b0))
      as (tiles & Ht & Htiles); [lia | right; lia | lia | lia |].
    exists (b0 :: tiles). split.
    + rewrite Ht. unfold push_back. now rewrite <- app_assoc.
    + intros [| k] b Hk; cbn [nth_error] in Hk.
      * injection Hk as <-. cbn [Z.of_nat]. rewrite Z.mul_0_l, Z.add_0_r.
        exact Hiff0.
      * specialize (Htiles k b Hk).
        replace (ix + Z.of_nat (S k) * node_size)
          with (ix + node_size + Z.of_nat k * node_size)
          by (rewrite Nat2Z.inj_succ; ring).
        exact Htiles.
  - exists []. rewrite app_nil_r. split; [reflexivity |].
    intros [| k] b Hk; discriminate Hk.
Qed.

Lemma grid_rows_spec :
  forall (fuel : nat) (iy : Z) (grid : list (list bool)),
    0 <= iy -> iy = 0 \/ node_size <= iy ->
    n_rows - iy < Z.of_nat fuel -> 0 < Z.of_nat fuel ->
    exists rows,
      grid_rows' fuel iy grid = Done (grid ++ rows)
      /\ forall (j : nat) (grid_row : list bool),
           nth_error rows j = Some grid_row ->
           forall (k : nat) (b : bool),
             nth_error grid_row k = Some b ->
             (b = true <->
              occupied_from (iy + Z.of_nat j * node_size) (Z.of_nat k * node_size)
                (iy + Z.of_nat j * node_size) (Z.of_nat k * node_size)).
Proof.
  unfold SizeT.modulus, UInt.modulus in *.
  induction fuel as [| fuel IH]; intros iy grid Hiy Hinv Hfuel Hpos; [lia |].
  cbn [grid_rows].
  destruct (iy <? n_rows) eqn:E.
  - apply Z.ltb_lt in E.
    destruct (row_tiles_spec iy (conj Hiy E) budget 0 [])
      as (grid_row0 & Hr0 & Htiles0); [lia | now left | lia | lia |].
    rewrite Hr0. cbn [bind app].
    rewrite SizeT_add_small by (unfold SizeT.modulus; lia).
    destruct (IH (iy + node_size) (push_back grid grid_row0))
      as (rows & Hrows & Hspec); [lia | right; lia | lia | lia |].
    exists (grid_row0 :: rows). split.
    + rewrite Hrows. unfold push_back. now rewrite <- app_assoc.
    + intros [| j] grid_row Hj k b Hk; cbn [nth_error] in Hj.
      * injection Hj as <-. cbn [Z.of_nat]. rewrite Z.mul_0_l, Z.add_0_r.
        specialize (Htiles0 k b Hk). rewrite Z.add_0_l in Htiles0.
        exact Htiles0.
      * specialize (Hspec j grid_row Hj k b Hk).
        replace (iy + Z.of_nat (S j) * node_size)
          with (iy + node_size + Z.of_nat j * node_size)
          by (rewrite Nat2Z.inj_succ; ring).
        exact Hspec.
  - exists []. rewrite app_nil_r. split; [reflexivity |].
    intros [| j] grid_row Hj; discriminate Hj.
Qed.

End ScaleGridFacts.

Section GridBuilderFacts.

Variable ceil floor : float -> float.
Variable getAngle : Quaternion -> float.
Variable COVERAGE_COST : Z.

Local Abbreviation node_size_of' := (node_size_of ceil).
Local Abbreviation scale_start' := (scale_start floor).
Local Abbreviation parseGrid' := (parseGrid ceil floor getAngle COVERAGE_COST).

Lemma node_size_of_defined (cpp_costmap : Costmap2D) (grid_size : float) :
  node_size_in_range ceil cpp_costmap grid_size ->
  exists node_size,
    node_size_of' cpp_costmap grid_size = Some node_size
    /\ 1 <= node_size < SizeT.modulus
    /\ ((1 <=? ceil (grid_size / getResolution cpp_costmap))%float = true ->
        Double.trunc (ceil (grid_size / getResolution cpp_costmap))
        = Some node_size)
    /\ ((1 <=? ceil (grid_size / getResolution cpp_costmap))%float = false ->
        node_size = 1).
Proof.
  intros H. apply to_size_t_dmax_1. exact H.
Qed.

(** A map without rows or without columns: the call returns [false] and
    leaves everything as it was. *)
Lemma parseGrid_empty (fuel : nat) (self : FullCoveragePathPlanner)
    (cpp_costmap : Costmap2D) (grid : list (list bool)) (grid_size : float)
    (real_start : PoseStamped) (scaled_start : Point_t) (yaw_start : float) :
  node_size_in_range ceil cpp_costmap grid_size ->
  getSizeInCellsY cpp_costmap = 0 \/ getSizeInCellsX cpp_costmap = 0 ->
  parseGrid' fuel self cpp_costmap grid grid_size real_start scaled_start yaw_start
  = Done (mkGridResult false self grid scaled_start yaw_start).
Proof.
  intros Hn Hz. destruct (node_size_of_defined _ _ Hn) as (ns & Hns & _).
  unfold parseGrid. rewrite Hns. cbn [from_option bind].
  replace ((getSizeInCellsY cpp_costmap =? 0) || (getSizeInCellsX cpp_costmap =? 0))
    with true; [reflexivity |].
  symmetry. apply orb_true_iff. rewrite !Z.eqb_eq. exact Hz.
Qed.

(** A map with cells: the call returns [true], with the scale, the scaled
    start and the rows of tiles appended to the grid. *)
Lemma parseGrid_nonempty (fuel : nat) (self : FullCoveragePathPlanner)
    (cpp_costmap : Costmap2D) (grid : list (list bool)) (grid_size : float)
    (real_start : PoseStamped) (scaled_start : Point_t) (yaw_start : float) :
  sizes_in_range cpp_costmap -> index_fits_int cpp_costmap ->
  getSizeInCellsY cpp_costmap <> 0 -> getSizeInCellsX cpp_costmap <> 0 ->
  node_size_in_range ceil cpp_costmap grid_size ->
  start_bounds_in_range ceil floor cpp_costmap grid_size ->
  Z.max (getSizeInCellsX cpp_costmap) (getSizeInCellsY cpp_costmap)
  < Z.of_nat fuel ->
  exists node_size x y zx zy rows,
    let tile_size := (Double.of_Z node_size * getResolution cpp_costmap)%float in
    let origin := mapToWorld cpp_costmap 0 0 in
    parseGrid' fuel self cpp_costmap grid grid_size real_start scaled_start yaw_start
    = Done (mkGridResult true
              (set_scale (mkdPoint_t (fst origin) (snd origin)) tile_size self)
              (grid ++ rows) (mkPoint_t x y)
              (getAngle (orientation (pose real_start))))
    /\ node_size_of' cpp_costmap grid_size = Some node_size
    /\ 1 <= node_size
    /\ Double.trunc (start_bound floor (getSizeInCellsX cpp_costmap) tile_size)
       = Some zx
    /\ Double.trunc (start_bound floor (getSizeInCellsY cpp_costmap) tile_size)
       = Some zy
    /\ 0 <= x <= zx /\ 0 <= y <= zy
    /\ forall (ty tx : nat) (b : bool),
         tile rows ty tx = Some b ->
         (b = true <->
          footprint_occupied cpp_costmap COVERAGE_COST node_size
            (Z.of_nat ty) (Z.of_nat tx)).
Proof.
  intros Hsizes Hfits Hy Hx Hn Hb Hfuel.
  destruct (node_size_of_defined _ _ Hn) as (ns & Hns & Hrange & _).
  destruct (Hb ns Hns) as [[Hx0 Hx1] [Hy0 Hy1]].
  set (tile_size := (Double.of_Z ns * getResolution cpp_costmap)%float) in *.
  set (origin := mapToWorld cpp_costmap 0 0).
  destruct (to_unsigned_int_clamp
              ((pos_x (position (pose real_start)) - fst origin) / tile_size)
              _ Hx0 Hx1) as (x & zx & Hcx & Htx & Hbx & Hlx).
  destruct (to_unsigned_int_clamp
              ((pos_y (position (pose real_start)) - snd origin) / tile_size)
              _ Hy0 Hy1) as (y & zy & Hcy & Hty & Hby & Hly).
  destruct Hsizes as [Hsx Hsy].
  destruct (grid_rows_spec COVERAGE_COST (getSizeInCellsY cpp_costmap)
              (getSizeInCellsX cpp_costmap) ns (getCharMap cpp_costmap) fuel
              Hsy Hsx Hrange Hfits ltac:(lia) ltac:(lia) fuel 0 grid)
    as (rows & Hrows & Hspec); [lia | now left | lia | lia |].
  exists ns, x, y, zx, zy, rows. cbv zeta.
  split; [| repeat (split; [first [assumption | lia] |])].
  - unfold parseGrid. rewrite Hns. cbn [from_option bind].
    replace ((getSizeInCellsY cpp_costmap =? 0) || (getSizeInCellsX cpp_costmap =? 0))
      with false
      by (symmetry; apply orb_false_iff; rewrite !Z.eqb_neq; now split).
    cbn [set_scale grid_origin_ tile_size_ dpt_x dpt_y].
    unfold scale_start. fold tile_size. fold origin.
    rewrite Hcx, Hcy. cbn [from_option bind]. rewrite Hrows. cbn [bind].
    rewrite !Int_wrap_small by lia. reflexivity.
  - intros ty tx b Ht. unfold tile in Ht.
    destruct (nth_error rows ty) as [grid_row |] eqn:Hrow; [| discriminate].
    rewrite (Hspec ty grid_row Hrow tx b Ht).
    unfold footprint_occupied, cell_cost. rewrite !Z.add_0_l.
    split; intros (r & c & Hr & Hc & Hcost); exists r, c;
      (split; [| split; [| exact Hcost]]); lia.
Qed.

(** The same under the weaker condition on the bounds: the scaled start is
    what the assignment to the [int] makes of a value between 0 and the
    bound. *)
Lemma parseGrid_nonempty_wide (fuel : nat) (self : FullCoveragePathPlanner)
    (cpp_costmap : Costmap2D) (grid : list (list bool)) (grid_size : float)
    (real_start : PoseStamped) (scaled_start : Point_t) (yaw_start : float) :
  sizes_in_range cpp_costmap -> index_fits_int cpp_costmap ->
  getSizeInCellsY cpp_costmap <> 0 -> getSizeInCellsX cpp_costmap <> 0 ->
  node_size_in_range ceil cpp_costmap grid_size ->
  start_bounds_defined ceil floor cpp_costmap grid_size ->
  Z.max (getSizeInCellsX cpp_costmap) (getSizeInCellsY cpp_costmap)
  < Z.of_nat fuel ->
  exists node_size x y zx zy rows,
    let tile_size := (Double.of_Z node_size * getResolution cpp_costmap)%float in
    let origin := mapToWorld cpp_costmap 0 0 in
    parseGrid' fuel self cpp_costmap grid grid_size real_start scaled_start yaw_start
    = Done (mkGridResult true
              (set_scale (mkdPoint_t (fst origin) (snd origin)) tile_size self)
              (grid ++ rows) (mkPoint_t (Int.wrap x) (Int.wrap y))
              (getAngle (orientation (pose real_start))))
    /\ node_size_of' cpp_costmap grid_size = Some node_size
    /\ Double.trunc (start_bound floor (getSizeInCellsX cpp_costmap) tile_size)
       = Some zx
    /\ Double.trunc (start_bound floor (getSizeInCellsY cpp_costmap) tile_size)
       = Some zy
    /\ scale_start' (pos_x (position (pose real_start))) (fst origin) tile_size
         (getSizeInCellsX cpp_costmap) = Some x
    /\ scale_start' (pos_y (position (pose real_start))) (snd origin) tile_size
         (getSizeInCellsY cpp_costmap) = Some y
    /\ 0 <= x <= zx /\ 0 <= y <= zy.
Proof.
  intros Hsizes Hfits Hy Hx Hn Hb Hfuel.
  destruct (node_size_of_defined _ _ Hn) as (ns & Hns & Hrange & _).
  destruct (Hb ns Hns) as [[Hx0 Hx1] [Hy0 Hy1]].
  set (tile_size := (Double.of_Z ns * getResolution cpp_costmap)%float) in *.
  set (origin := mapToWorld cpp_costmap 0 0).
  destruct (to_unsigned_int_clamp_wide
              ((pos_x (position (pose real_start)) - fst origin) / tile_size)
              _ Hx0 Hx1) as (x & zx & Hcx & Htx & Hbx & _).
  destruct (to_unsigned_int_clamp_wide
              ((pos_y (position (pose real_start)) - snd origin) / tile_size)
              _ Hy0 Hy1) as (y & zy & Hcy & Hty & Hby & _).
  destruct Hsizes as [Hsx Hsy].
  destruct (grid_rows_spec COVERAGE_COST (getSizeInCellsY cpp_costmap)
              (getSizeInCellsX cpp_costmap) ns (getCharMap cpp_costmap) fuel
              Hsy Hsx Hrange Hfits ltac:(lia) ltac:(lia) fuel 0 grid)
    as (rows & Hrows & _); [lia | now left | lia | lia |].
  exists ns, x, y, zx, zy, rows. cbv zeta.
  split; [| repeat split; first [assumption | lia]].
  unfold parseGrid. rewrite Hns. cbn [from_option bind].
  replace ((getSizeInCellsY cpp_costmap =? 0) || (getSizeInCellsX cpp_costmap =? 0))
    with false
    by (symmetry; apply orb_false_iff; rewrite !Z.eqb_neq; now split).
  cbn [set_scale grid_origin_ tile_size_ dpt_x dpt_y].
  unfold scale_start. fold tile_size. fold origin.
  rewrite Hcx, Hcy. cbn [from_option bind]. rewrite Hrows. cbn [bind].
  reflexivity.
Qed.

(** *** The claims about [parseGrid] *)

(** C4: on a map with cells, with enough fuel, [parseGrid] returns [true] and
    the boolean of every tile of the grid it built is [true] if and only if
    some cell of the footprint of the tile, clipped to the map, costs more
    than [COVERAGE_COST]. *)
Theorem tile_occupied_iff_footprint (fuel : nat) (self : FullCoveragePathPlanner)
    (cpp_costmap : Costmap2D) (grid_size : float) (real_start : PoseStamped)
    (scaled_start : Point_t) (yaw_start : float) :
  sizes_in_range cpp_costmap -> index_fits_int cpp_costmap ->
  getSizeInCellsY cpp_costmap <> 0 -> getSizeInCellsX cpp_costmap <> 0 ->
  node_size_in_range ceil cpp_costmap grid_size ->
  start_bounds_in_range ceil floor cpp_costmap grid_size ->
  Z.max (getSizeInCellsX cpp_costmap) (getSizeInCellsY cpp_costmap)
  < Z.of_nat fuel ->
  exists r node_size,
    parseGrid' fuel self cpp_costmap [] grid_size real_start scaled_start yaw_start
    = Done r
    /\ returned r = true
    /\ node_size_of' cpp_costmap grid_size = Some node_size
    /\ forall (ty tx : nat) (b : bool),
         tile (grid_out r) ty tx = Some b ->
         (b = true <->
          footprint_occupied cpp_costmap COVERAGE_COST node_size
            (Z.of_nat ty) (Z.of_nat tx)).
Proof.
  intros Hsizes Hfits Hy Hx Hn Hb Hfuel.
  destruct (parseGrid_nonempty fuel self cpp_costmap [] grid_size real_start
              scaled_start yaw_start Hsizes Hfits Hy Hx Hn Hb Hfuel)
    as (ns & x & y & zx & zy & rows & Hrun & Hns & _ & _ & _ & _ & _ & Htiles).
  eexists _, ns. split; [exact Hrun |].
  split; [reflexivity |]. split; [exact Hns |]. exact Htiles.
Qed.

(** C5, as the code has it: [node_size] is the conversion to [size_t] of
    [dmax(ceil(grid_size / resolution), 1)]: the truncated [ceil] when that is
    1 or more and 1 otherwise, so never below 1.  A call on a map with cells
    sets [tile_size_] to [node_size] times the resolution; a call on a map
    without rows or without columns returns before that and leaves
    [tile_size_] as it was. *)
Theorem node_size_and_tile_size (fuel : nat) (self : FullCoveragePathPlanner)
    (cpp_costmap : Costmap2D) (grid : list (list bool)) (grid_size : float)
    (real_start : PoseStamped) (scaled_start : Point_t) (yaw_start : float) :
  sizes_in_range cpp_costmap -> index_fits_int cpp_costmap ->
  node_size_in_range ceil cpp_costmap grid_size ->
  (getSizeInCellsY cpp_costmap <> 0 -> getSizeInCellsX cpp_costmap <> 0 ->
   start_bounds_defined ceil floor cpp_costmap grid_size) ->
  Z.max (getSizeInCellsX cpp_costmap) (getSizeInCellsY cpp_costmap)
  < Z.of_nat fuel ->
  let ratio := ceil (grid_size / getResolution cpp_costmap) in
  exists r node_size,
    parseGrid' fuel self cpp_costmap grid grid_size real_start scaled_start yaw_start
    = Done r
    /\ Double.to_size_t (dmax ratio 1) = Some node_size
    /\ 1 <= node_size
    /\ ((1 <=? ratio)%float = true -> Double.trunc ratio = Some node_size)
    /\ ((1 <=? ratio)%float = false -> node_size = 1)
    /\ (getSizeInCellsY cpp_costmap <> 0 /\ getSizeInCellsX cpp_costmap <> 0 ->
        tile_size_ (planner r)
        = (Double.of_Z node_size * getResolution cpp_costmap)%float)
    /\ (getSizeInCellsY cpp_costmap = 0 \/ getSizeInCellsX cpp_costmap = 0 ->
        tile_size_ (planner r) = tile_size_ self).
Proof.
  intros Hsizes Hfits Hn Hb Hfuel ratio.
  destruct (node_size_of_defined _ _ Hn) as (ns & Hns & Hrange & Hge & Hlt).
  destruct (Z.eq_dec (getSizeInCellsY cpp_costmap) 0) as [Hy | Hy];
    [| destruct (Z.eq_dec (getSizeInCellsX cpp_costmap) 0) as [Hx | Hx]].
  - eexists _, ns. split; [apply parseGrid_empty; [exact Hn | now left] |].
    cbn [planner]. repeat split; try assumption; try lia; try reflexivity.
  - eexists _, ns. split; [apply parseGrid_empty; [exact Hn | now right] |].
    cbn [planner]. repeat split; try assumption; try lia; try reflexivity.
  - destruct (parseGrid_nonempty_wide fuel self cpp_costmap grid grid_size
                real_start scaled_start yaw_start Hsizes Hfits Hy Hx Hn
                (Hb Hy Hx) Hfuel)
      as (ns' & x & y & zx & zy & rows & Hrun & Hns' & _).
    assert (ns' = ns) as -> by congruence.
    eexists _, ns. split; [exact Hrun |].
    cbn [planner set_scale tile_size_].
    repeat split; try assumption; try lia; try reflexivity.
Qed.

(** C6, as the code has it: on a map with cells whose bounds
    [floor(cells / tile_size_)] convert to [unsigned int], whatever the start
    pose is, the clamped and converted coordinates lie between 0 and the
    integer part of the bound of their axis, and the scaled start
    [parseGrid] returns is what the assignment to the [int] makes of them: on
    an axis whose bound is below [2 ^ 31] it lies between 0 and the bound. *)
Theorem scaled_start_within_bounds (fuel : nat) (self : FullCoveragePathPlanner)
    (cpp_costmap : Costmap2D) (grid : list (list bool)) (grid_size : float)
    (real_start : PoseStamped) (scaled_start : Point_t) (yaw_start : float) :
  sizes_in_range cpp_costmap -> index_fits_int cpp_costmap ->
  getSizeInCellsY cpp_costmap <> 0 -> getSizeInCellsX cpp_costmap <> 0 ->
  node_size_in_range ceil cpp_costmap grid_size ->
  start_bounds_defined ceil floor cpp_costmap grid_size ->
  Z.max (getSizeInCellsX cpp_costmap) (getSizeInCellsY cpp_costmap)
  < Z.of_nat fuel ->
  exists r zx zy x y,
    parseGrid' fuel self cpp_costmap grid grid_size real_start scaled_start yaw_start
    = Done r
    /\ Double.trunc
         (floor (Double.of_Z (getSizeInCellsX cpp_costmap) / tile_size_ (planner r)))
       = Some zx
    /\ Double.trunc
         (floor (Double.of_Z (getSizeInCellsY cpp_costmap) / tile_size_ (planner r)))
       = Some zy
    /\ scale_start' (pos_x (position (pose real_start)))
         (dpt_x (grid_origin_ (planner r))) (tile_size_ (planner r))
         (getSizeInCellsX cpp_costmap) = Some x
    /\ scale_start' (pos_y (position (pose real_start)))
         (dpt_y (grid_origin_ (planner r))) (tile_size_ (planner r))
         (getSizeInCellsY cpp_costmap) = Some y
    /\ 0 <= x <= zx /\ 0 <= y <= zy
    /\ scaled_start_out r = mkPoint_t (Int.wrap x) (Int.wrap y)
    /\ (zx < 2 ^ 31 -> 0 <= pt_x (scaled_start_out r) <= zx)
    /\ (zy < 2 ^ 31 -> 0 <= pt_y (scaled_start_out r) <= zy).
Proof.
  intros Hsizes Hfits Hy Hx Hn Hb Hfuel.
  destruct (parseGrid_nonempty_wide fuel self cpp_costmap grid grid_size
              real_start scaled_start yaw_start Hsizes Hfits Hy Hx Hn Hb Hfuel)
    as (ns & x & y & zx & zy & rows & Hrun & _ & Hzx & Hzy & Hsx & Hsy & Hbx
        & Hby).
  eexists _, zx, zy, x, y. split; [exact Hrun |].
  cbn [planner scaled_start_out set_scale tile_size_ grid_origin_ dpt_x dpt_y
         pt_x pt_y].
  split; [exact Hzx |]. split; [exact Hzy |].
  split; [exact Hsx |]. split; [exact Hsy |].
  split; [exact Hbx |]. split; [exact Hby |]. split; [reflexivity |].
  split; intros Hlt; rewrite Int_wrap_small by lia; lia.
Qed.

(** C7: with enough fuel, [parseGrid] returns [false] if the map has no rows
    or no columns and [true] otherwise. *)
Theorem parseGrid_returns_false_iff_no_cells (fuel : nat)
    (self : FullCoveragePathPlanner) (cpp_costmap : Costmap2D)
    (grid : list (list bool)) (grid_size : float) (real_start : PoseStamped)
    (scaled_start : Point_t) (yaw_start : float) :
  sizes_in_range cpp_costmap -> index_fits_int cpp_costmap ->
  node_size_in_range ceil cpp_costmap grid_size ->
  (getSizeInCellsY cpp_costmap <> 0 -> getSizeInCellsX cpp_costmap <> 0 ->
   start_bounds_in_range ceil floor cpp_costmap grid_size) ->
  Z.max (getSizeInCellsX cpp_costmap) (getSizeInCellsY cpp_costmap)
  < Z.of_nat fuel ->
  exists r,
    parseGrid' fuel self cpp_costmap grid grid_size real_start scaled_start yaw_start
    = Done r
    /\ (returned r = false <->
        getSizeInCellsY cpp_costmap = 0 \/ getSizeInCellsX cpp_costmap = 0)
    /\ (returned r = true <->
        getSizeInCellsY cpp_costmap <> 0 /\ getSizeInCellsX cpp_costmap <> 0).
Proof.
  intros Hsizes Hfits Hn Hb Hfuel.
  destruct (Z.eq_dec (getSizeInCellsY cpp_costmap) 0) as [Hy | Hy];
    [| destruct (Z.eq_dec (getSizeInCellsX cpp_costmap) 0) as [Hx | Hx]].
  - eexists. split; [apply parseGrid_empty; [exact Hn | now left] |].
    cbn [returned]. split; split; tauto || discriminate.
  - eexists. split; [apply parseGrid_empty; [exact Hn | now right] |].
    cbn [returned]. split; split; tauto || discriminate.
  - destruct (parseGrid_nonempty fuel self cpp_costmap grid grid_size real_start
                scaled_start yaw_start Hsizes Hfits Hy Hx Hn (Hb Hy Hx) Hfuel)
      as (ns & x & y & zx & zy & rows & Hrun & _).
    eexists. split; [exact Hrun |].
    cbn [returned]. split; split; tauto || discriminate.
Qed.

End GridBuilderFacts.

(** ** The claims on the sample *)

Section OnTheSample.

Import Sample.

Local Abbreviation compose_tiles' :=
  (compose_tiles cos sin createQuaternionMsgFromYaw).
Local Abbreviation visit' := (visit cos sin createQuaternionMsgFromYaw).
Local Abbreviation parsePointlist2Plan' :=
  (parsePointlist2Plan cos sin atan2 createQuaternionMsgFromYaw).
Local Abbreviation parseGrid' := (parseGrid ceil floor getAngle COVERAGE_COST).

(** Four tiles in a row, from a start at the centre of the first: the start
    pose and three tile-derived plan entries. *)
Lemma straight_line_tile_waypoints_witness :
  straight [mkPoint_t 0 0; mkPoint_t 1 0; mkPoint_t 2 0; mkPoint_t 3 0] = true
  /\ plan_of
       (parsePointlist2Plan' planner0 (pose_at 0.5 0.5)
          [mkPoint_t 0 0; mkPoint_t 1 0; mkPoint_t 2 0; mkPoint_t 3 0] []
          (7, 9) (mkPoint_t 55 66))
     = Some [pose_at 0.5 0.5; pose_at 0.5 0.5; pose_at 0.5 0.5; pose_at 3.5 0.5].
Proof.
  split; [reflexivity |].
  destruct (straight_line_tile_waypoints cos sin atan2 createQuaternionMsgFromYaw
              planner0 (pose_at 0.5 0.5) (mkPoint_t 0 0) (mkPoint_t 1 0)
              [mkPoint_t 2 0; mkPoint_t 3 0] [] (7, 9) (mkPoint_t 55 66)
              eq_refl) as [_ H].
  rewrite H. vm_compute. reflexivity.
Defined.

(** C1 as stated fails: two tiles in a row give three tile-derived plan
    entries, not two. *)
Lemma straight_line_not_two_waypoints :
  straight [mkPoint_t 0 0; mkPoint_t 1 0] = true
  /\ tile_waypoints
       (compose_tiles' planner0 [mkPoint_t 0 0; mkPoint_t 1 0] [] (0, 0)
          (mkPoint_t 0 0))
     = [pose_at 0.5 0.5; pose_at 0.5 0.5; pose_at 1.5 0.5]
  /\ length
       (tile_waypoints
          (compose_tiles' planner0 [mkPoint_t 0 0; mkPoint_t 1 0] [] (0, 0)
             (mkPoint_t 0 0)))
     <> 2%nat.
Proof.
  split; [reflexivity |]. split; [vm_compute; reflexivity |].
  vm_compute. discriminate.
Qed.

Lemma nonempty_plan_begins_with_start_witness :
  [mkPoint_t 0 0; mkPoint_t 1 0; mkPoint_t 0 0] <> []
  /\ exists self' rest,
       parsePointlist2Plan' planner2 (pose_at 3 4)
         [mkPoint_t 0 0; mkPoint_t 1 0; mkPoint_t 0 0] [] (7, 9) (mkPoint_t 55 66)
       = Done (self', pose_at 3 4 :: rest).
Proof.
  split; [discriminate |].
  apply (nonempty_plan_begins_with_start cos sin atan2 createQuaternionMsgFromYaw
           planner2 (pose_at 3 4) [mkPoint_t 0 0; mkPoint_t 1 0; mkPoint_t 0 0]
           [] (7, 9) (mkPoint_t 55 66)).
  - discriminate.
  - cbn. lia.
Defined.

(** C2 as stated fails on the empty visit list: the plan stays empty and has
    no first entry. *)
Lemma empty_goalpoints_plan_lacks_start :
  plan_of
    (parsePointlist2Plan' planner0 (pose_at 0.5 0.5) [] [] (0, 0) (mkPoint_t 0 0))
  = Some []
  /\ hd_error (@nil PoseStamped) <> Some (pose_at 0.5 0.5).
Proof.
  split; [reflexivity | discriminate].
Qed.

(** The turn back from (1,0) to (0,0), clockwise on top of the stack. *)
Lemma reversal_inserts_intermediate_heading_witness :
  exists s',
    visit' false true (7, 9) (mkPoint_t 1 0) (mkPoint_t 0 0) (mkPoint_t 55 66)
      heading_right = Done s'
    /\ plan_ s' =
         plan_ heading_right
           ++ [set_orientation
                 (createQuaternionMsgFromYaw (Double.M_PI - Double.M_PI / 2))
                 (pose_at 1.5 0.5);
               set_orientation (createQuaternionMsgFromYaw Double.M_PI)
                 (pose_at 1.5 0.5);
               set_orientation (createQuaternionMsgFromYaw Double.M_PI)
                 (pose_at 0.5 0.5)]
    /\ turn_around_directions_ (self_ s') = [eCounterClockwise].
Proof.
  apply (reversal_inserts_intermediate_heading cos sin createQuaternionMsgFromYaw
           true (7, 9) (mkPoint_t 1 0) (mkPoint_t 0 0) (mkPoint_t 55 66)
           heading_right [eCounterClockwise] eClockwise).
  - vm_compute. reflexivity.
  - vm_compute. reflexivity.
  - reflexivity.
Defined.

(** C3 as stated fails at the first waypoint of a call: on the planner an
    earlier call left heading right, a visit list that starts to the left
    publishes its first waypoint with the heading [M_PI], for which the
    reversal test holds against the remembered heading 0; no pose is put at
    the previous position and the two pending turns stay on the stack. *)
Lemma antiparallel_first_waypoint_inserts_nothing :
  do_publish (dir_now true (7, 9) (mkPoint_t 55 66) (mkPoint_t 1 0) (mkPoint_t 0 0))
    (dir_next true (7, 9) (mkPoint_t 55 66) (mkPoint_t 1 0) (mkPoint_t 0 0))
    true false = true
  /\ switch_orientation
       (dir_now true (7, 9) (mkPoint_t 55 66) (mkPoint_t 1 0) (mkPoint_t 0 0))
       (orientation_ second_call) = Double.M_PI
  /\ reversal cos sin Double.M_PI (previous_orientation_ (self_ second_call))
     = true
  /\ turn_around_directions_ (self_ second_call)
     = push_back [eCounterClockwise] eClockwise
  /\ (exists s',
        visit' true false (7, 9) (mkPoint_t 55 66) (mkPoint_t 1 0) (mkPoint_t 0 0)
          second_call = Done s'
        /\ plan_ s'
           = plan_ second_call
               ++ [set_orientation (createQuaternionMsgFromYaw Double.M_PI)
                     (pose_at 1.5 0.5)]
        /\ turn_around_directions_ (self_ s')
           = [eCounterClockwise; eClockwise]
        /\ turn_around_directions_ (self_ s') <> [eCounterClockwise])
  /\ (exists self' plan',
        parsePointlist2Plan' planner_heading_right (pose_at 1.5 0.5)
          [mkPoint_t 1 0; mkPoint_t 0 0] [] (7, 9) (mkPoint_t 55 66)
        = Done (self', plan')
        /\ plan'
           = [pose_at 1.5 0.5;
              set_orientation (createQuaternionMsgFromYaw Double.M_PI)
                (pose_at 1.5 0.5);
              set_orientation (createQuaternionMsgFromYaw Double.M_PI)
                (pose_at 1.5 0.5);
              set_orientation (createQuaternionMsgFromYaw Double.M_PI)
                (pose_at 0.5 0.5)]
        /\ turn_around_directions_ self'
           = turn_around_directions_ planner_heading_right).
Proof.
  split; [vm_compute; reflexivity |]. split; [vm_compute; reflexivity |].
  split; [vm_compute; reflexivity |]. split; [reflexivity |]. split.
  - eexists. split; [vm_compute; reflexivity |].
    split; [vm_compute; reflexivity |]. split; [reflexivity | discriminate].
  - eexists _, _. split; [vm_compute; reflexivity |].
    split; [vm_compute; reflexivity | reflexivity].
Qed.

(** C8 as stated fails: with the start at the centre of the only tile the
    plan has two entries, and four with the start elsewhere. *)
Lemma single_tile_plan_not_one_waypoint :
  plan_of
    (parsePointlist2Plan' planner0 (pose_at 0.5 0.5) [mkPoint_t 0 0] [] (0, 0)
       (mkPoint_t 0 0))
  = Some [pose_at 0.5 0.5; pose_at 0.5 0.5]
  /\ option_map (@length PoseStamped)
       (plan_of
          (parsePointlist2Plan' planner0 (pose_at 0.5 0.5) [mkPoint_t 0 0] []
             (0, 0) (mkPoint_t 0 0)))
     <> Some 1%nat
  /\ option_map (@length PoseStamped)
       (plan_of
          (parsePointlist2Plan' planner0 (pose_at 0 0.5) [mkPoint_t 0 0] []
             (0, 0) (mkPoint_t 0 0)))
     = Some 4%nat.
Proof.
  split; [vm_compute; reflexivity |].
  split; [vm_compute; discriminate | vm_compute; reflexivity].
Qed.

Lemma plan_independent_of_indeterminate_values_witness :
  (2 <= length [mkPoint_t 0 0; mkPoint_t 1 0; mkPoint_t 1 1])%nat
  /\ parsePointlist2Plan' planner2 (pose_at 0.5 0.5)
       [mkPoint_t 0 0; mkPoint_t 1 0; mkPoint_t 1 1] [] (7, 9) (mkPoint_t 55 66)
     = parsePointlist2Plan' planner2 (pose_at 0.5 0.5)
         [mkPoint_t 0 0; mkPoint_t 1 0; mkPoint_t 1 1] [] (-1, 0) (mkPoint_t 2 1).
Proof.
  split; [cbn; lia |].
  apply (plan_independent_of_indeterminate_values cos sin atan2
           createQuaternionMsgFromYaw).
  cbn. lia.
Defined.


(** The same turn with nothing on the stack is undefined. *)
Example reversal_on_empty_stack :
  parsePointlist2Plan' planner0 (pose_at 0.5 0.5)
    [mkPoint_t 0 0; mkPoint_t 1 0; mkPoint_t 0 0] [] (7, 9) (mkPoint_t 55 66)
  = Undefined.
Proof. vm_compute. reflexivity. Qed.

(** The whole run of the turn back: seven poses, one entry of the stack
    consumed. *)
Example reversal_run :
  option_map (@length PoseStamped)
    (plan_of
       (parsePointlist2Plan' planner2 (pose_at 0.5 0.5)
          [mkPoint_t 0 0; mkPoint_t 1 0; mkPoint_t 0 0] [] (7, 9)
          (mkPoint_t 55 66)))
  = Some 7%nat.
Proof. vm_compute. reflexivity. Qed.

(** *** The grid of the sample map, with tiles of two cells *)

Lemma costmap_sizes_in_range : sizes_in_range costmap.
Proof. unfold sizes_in_range, UInt.modulus. cbn. lia. Qed.

Lemma costmap_index_fits_int : index_fits_int costmap.
Proof. unfold index_fits_int, Int.max_int. cbn. lia. Qed.

Lemma costmap_node_size_in_range : node_size_in_range ceil costmap 2.
Proof. vm_compute. reflexivity. Qed.

Lemma costmap_start_bounds_in_range : start_bounds_in_range ceil floor costmap 2.
Proof.
  intros node_size H. vm_compute in H. injection H as <-.
  vm_compute. repeat split.
Qed.

Lemma tile_occupied_iff_footprint_witness :
  exists r,
    parseGrid' 6 planner0 costmap [] 2 (pose_at 3.25 100) (mkPoint_t 0 0) 0 = Done r
    /\ grid_out r = [[false; true; false]; [false; false; true]]
    /\ forall (ty tx : nat) (b : bool),
         tile (grid_out r) ty tx = Some b ->
         (b = true <->
          footprint_occupied costmap COVERAGE_COST 2 (Z.of_nat ty) (Z.of_nat tx)).
Proof.
  destruct (tile_occupied_iff_footprint ceil floor getAngle COVERAGE_COST 6
              planner0 costmap 2 (pose_at 3.25 100) (mkPoint_t 0 0) 0
              costmap_sizes_in_range costmap_index_fits_int
              ltac:(cbn; lia) ltac:(cbn; lia)
              costmap_node_size_in_range costmap_start_bounds_in_range
              ltac:(cbn; lia))
    as (r & node_size & Hrun & _ & Hns & Htiles).
  vm_compute in Hns. injection Hns as <-.
  exists r. split; [exact Hrun |]. split; [| exact Htiles].
  vm_compute in Hrun. injection Hrun as <-. reflexivity.
Defined.

Lemma costmap_start_bounds_defined : start_bounds_defined ceil floor costmap 2.
Proof.
  intros node_size H. vm_compute in H. injection H as <-.
  vm_compute. repeat split.
Qed.

Lemma node_size_and_tile_size_witness :
  exists r,
    parseGrid' 6 planner0 costmap [] 2 (pose_at 3.25 100) (mkPoint_t 0 0) 0 = Done r
    /\ Double.to_size_t (dmax (ceil (2 / getResolution costmap)) 1) = Some 2
    /\ tile_size_ (planner r) = (Double.of_Z 2 * getResolution costmap)%float.
Proof.
  destruct (node_size_and_tile_size ceil floor getAngle COVERAGE_COST 6
              planner0 costmap [] 2 (pose_at 3.25 100) (mkPoint_t 0 0) 0
              costmap_sizes_in_range costmap_index_fits_int
              costmap_node_size_in_range
              (fun _ _ => costmap_start_bounds_defined)
              ltac:(cbn; lia))
    as (r & node_size & Hrun & Hns & _ & _ & _ & Htile & _).
  assert (node_size = 2) as -> by (vm_compute in Hns; now injection Hns).
  exists r. split; [exact Hrun |]. split; [exact Hns |].
  apply Htile. split; cbn; lia.
Defined.

(** C5 as stated fails: on the map without columns, which has a positive
    resolution, [node_size] is 2 and the call returns [false] with
    [tile_size_] still 1, not 2 times the resolution. *)
Lemma empty_map_leaves_tile_size :
  (0 <? getResolution costmap_no_columns)%float = true
  /\ Double.to_size_t (dmax (ceil (2 / getResolution costmap_no_columns)) 1)
     = Some 2
  /\ exists r,
       parseGrid' 6 planner0 costmap_no_columns [] 2 (pose_at 3.25 100)
         (mkPoint_t 0 0) 0 = Done r
       /\ returned r = false
       /\ tile_size_ (planner r) = 1%float
       /\ tile_size_ (planner r)
          <> (Double.of_Z 2 * getResolution costmap_no_columns)%float.
Proof.
  split; [vm_compute; reflexivity |]. split; [vm_compute; reflexivity |].
  eexists. split; [vm_compute; reflexivity |].
  split; [reflexivity |]. split; [reflexivity |].
  cbn [planner tile_size_ planner0]. intros H.
  apply (f_equal (fun d => (d =? 1)%float)) in H. vm_compute in H.
  discriminate H.
Qed.

(** A start pose far outside the map, and not a number on one axis. *)
Lemma scaled_start_within_bounds_witness :
  exists r,
    parseGrid' 6 planner0 costmap [] 2 (pose_at (-3.25) nan) (mkPoint_t 0 0) 0
    = Done r
    /\ 0 <= pt_x (scaled_start_out r) <= 2
    /\ 0 <= pt_y (scaled_start_out r) <= 1.
Proof.
  destruct (scaled_start_within_bounds ceil floor getAngle COVERAGE_COST 6
              planner0 costmap [] 2 (pose_at (-3.25) nan) (mkPoint_t 0 0) 0
              costmap_sizes_in_range costmap_index_fits_int
              ltac:(cbn; lia) ltac:(cbn; lia)
              costmap_node_size_in_range costmap_start_bounds_defined
              ltac:(cbn; lia))
    as (r & zx & zy & x & y & Hrun & Hzx & Hzy & _ & _ & _ & _ & _ & Hx & Hy).
  exists r. split; [exact Hrun |].
  pose proof Hrun as Hr. vm_compute in Hr. injection Hr as <-.
  vm_compute in Hzx, Hzy. injection Hzx as <-. injection Hzy as <-.
  split; [apply Hx | apply Hy]; lia.
Defined.

(** C6 as stated fails: on the free map of 3 by 3 cells of resolution [nano]
    in tiles of one cell, the bound is 3000000000; a start far to the right is
    clamped to it, and the [int] it is assigned to holds -1294967296. *)
Lemma scaled_start_beyond_int_is_negative :
  exists r,
    parseGrid' 6 planner0 costmap_fine [] nano (pose_at 100 (-1)) (mkPoint_t 0 0) 0
    = Done r
    /\ returned r = true
    /\ Double.trunc
         (floor (Double.of_Z (getSizeInCellsX costmap_fine) / tile_size_ (planner r)))
       = Some 3000000000
    /\ pt_x (scaled_start_out r) = -1294967296
    /\ ~ (0 <= pt_x (scaled_start_out r) <= 3000000000).
Proof.
  eexists. split; [vm_compute; reflexivity |].
  split; [reflexivity |]. split; [vm_compute; reflexivity |].
  split; [reflexivity |]. cbn [scaled_start_out pt_x]. lia.
Qed.

Lemma parseGrid_returns_false_iff_no_cells_witness :
  exists r,
    parseGrid' 6 planner0 costmap_no_columns [] 2 (pose_at 3.25 100)
      (mkPoint_t 0 0) 0 = Done r
    /\ returned r = false.
Proof.
  destruct (parseGrid_returns_false_iff_no_cells ceil floor getAngle
              COVERAGE_COST 6 planner0 costmap_no_columns [] 2 (pose_at 3.25 100)
              (mkPoint_t 0 0) 0)
    as (r & Hrun & Hfalse & _).
  - unfold sizes_in_range, UInt.modulus. cbn. lia.
  - unfold index_fits_int, Int.max_int. cbn. lia.
  - vm_compute. reflexivity.
  - cbn. lia.
  - cbn. lia.
  - exists r. split; [exact Hrun |]. apply Hfalse. right. reflexivity.
Defined.

(** On the map with cells the call returns [true]. *)
Example parseGrid_returns_true :
  option_map returned
    (match
       parseGrid' 6 planner0 costmap [] 2 (pose_at 3.25 100) (mkPoint_t 0 0) 0
     with
     | Done r => Some r
     | _ => None
     end)
  = Some true.
Proof. vm_compute. reflexivity. Qed.

End OnTheSample.

(** * More of the planner *)

Lemma last_cons_In (A : Type) (l : list A) :
  forall (a d : A), In (last (a :: l) d) (a :: l).
Proof.
  induction l as [| b l IH]; intros a d; [now left |].
  right. change (In (last (b :: l) d) (b :: l)). apply IH.
Qed.

(** ** What a call of [parsePointlist2Plan] keeps and what it adds *)

Section PathComposerInvariants.

Variable cos sin : float -> float.
Variable atan2 : float -> float -> float.
Variable createQuaternionMsgFromYaw : float -> Quaternion.

Local Abbreviation reversal' := (reversal cos sin).
Local Abbreviation republish' := (republish cos sin createQuaternionMsgFromYaw).
Local Abbreviation visit' := (visit cos sin createQuaternionMsgFromYaw).
Local Abbreviation visit_from' := (visit_from cos sin createQuaternionMsgFromYaw).
Local Abbreviation compose_tiles' := (compose_tiles cos sin createQuaternionMsgFromYaw).
Local Abbreviation start_connector' :=
  (start_connector atan2 createQuaternionMsgFromYaw).
Local Abbreviation connect_start' := (connect_start atan2 createQuaternionMsgFromYaw).
Local Abbreviation parsePointlist2Plan' :=
  (parsePointlist2Plan cos sin atan2 createQuaternionMsgFromYaw).

(** *** The republication, by cases *)

Lemma republish_cases (o : float) (q : Quaternion)
    (self self' : FullCoveragePathPlanner) (plan plan' : list PoseStamped) :
  republish' o q self plan = Done (self', plan') ->
  let g := set_orientation q (previous_goal_ self) in
  (self' = set_previous_goal g self /\ plan' = plan ++ [g])
  \/ (exists stack d,
         turn_around_directions_ self = push_back stack d
         /\ self' = set_turn_around_directions stack (set_previous_goal g self)
         /\ plan' =
              plan
                ++ [set_orientation
                      (createQuaternionMsgFromYaw (intermediate_yaw d o))
                      (previous_goal_ self);
                    g]).
Proof.
  intros H g.
  destruct (reversal' o (previous_orientation_ self)) eqn:Hr.
  - destruct (back (turn_around_directions_ self)) as [d |] eqn:Hb.
    + apply back_Some in Hb.
      rewrite (republish_reversal _ _ _ _ q _ plan _ _ Hr Hb) in H.
      injection H as <- <-. right. eexists _, d. repeat split. exact Hb.
    + apply back_None in Hb.
      rewrite (republish_underflow _ _ _ _ q _ plan Hr Hb) in H. discriminate.
  - rewrite (republish_plain _ _ _ _ q _ plan Hr) in H.
    injection H as <- <-. left. split; reflexivity.
Qed.

(** One iteration after the first, by cases: nothing, or the republication
    and the new waypoint. *)
Lemma visit_cases (last : bool) (uninit : Z * Z) (p_prev p p_next : Point_t)
    (s s' : loop_state) :
  visit' false last uninit p_prev p p_next s = Done s' ->
  let o := switch_orientation (step_dir p_prev p) (orientation_ s) in
  let q := createQuaternionMsgFromYaw o in
  let new_goal := goal_at (self_ s) (new_goal_ s) p q in
  (do_publish (step_dir p_prev p) (step_dir p p_next) false last = false
   /\ s' = s)
  \/ (do_publish (step_dir p_prev p) (step_dir p p_next) false last = true
      /\ exists self1 plan1,
           republish' o q (self_ s) (plan_ s) = Done (self1, plan1)
           /\ s' = mkLoop (set_previous new_goal o self1) new_goal o
                     (plan1 ++ [new_goal])).
Proof.
  rewrite visit_eq, dir_now_later, dir_next_later. intros H o q new_goal.
  destruct (do_publish (step_dir p_prev p) (step_dir p p_next) false last).
  - right. split; [reflexivity |]. cbv zeta in H. cbn [negb] in H.
    fold o in H. fold q in H. fold new_goal in H.
    destruct (republish' o q (self_ s) (plan_ s)) as [[self1 plan1] | |];
      cbn [bind] in H; try discriminate.
    injection H as <-. eexists _, _. split; reflexivity.
  - left. injection H as <-. split; reflexivity.
Qed.

(** *** The count of the poses *)

Lemma visit_account (last : bool) (uninit : Z * Z) (p_prev p p_next : Point_t)
    (s s' : loop_state) :
  visit' false last uninit p_prev p p_next s = Done s' ->
  (length (plan_ s') + length (turn_around_directions_ (self_ s'))
   = length (plan_ s) + length (turn_around_directions_ (self_ s))
     + (if do_publish (step_dir p_prev p) (step_dir p p_next) false last
        then 2 else 0))%nat.
Proof.
  intros H. destruct (visit_cases _ _ _ _ _ _ _ H)
    as [[-> ->] | [-> (self1 & plan1 & Hrep & ->)]]; [lia |].
  cbn [plan_ self_ set_previous turn_around_directions_].
  destruct (republish_cases _ _ _ _ _ _ Hrep)
    as [[-> ->] | (stack & d & Hst & -> & ->)].
  - cbn [set_previous_goal turn_around_directions_].
    rewrite !length_app. cbn. lia.
  - cbn [set_turn_around_directions turn_around_directions_].
    rewrite Hst. unfold push_back. rewrite !length_app. cbn. lia.
Qed.

Lemma visit_from_account (uninit : Z * Z) (past_end : Point_t) :
  forall (rest : list Point_t) (p_prev : Point_t) (s s' : loop_state),
    visit_from' false uninit past_end p_prev rest s = Done s' ->
    (length (plan_ s') + length (turn_around_directions_ (self_ s'))
     = length (plan_ s) + length (turn_around_directions_ (self_ s))
       + 2 * publications p_prev rest)%nat.
Proof.
  induction rest as [| p rest IH]; intros p_prev s s' H.
  - injection H as <-. cbn. lia.
  - rewrite visit_from_cons in H.
    match type of H with context [visit' false ?l uninit p_prev p ?n s] =>
      destruct (visit' false l uninit p_prev p n s) as [s1 | |] eqn:Hv
    end; cbn [bind] in H; try discriminate.
    apply visit_account in Hv. apply IH in H. rewrite H, Hv.
    destruct rest as [| p' rest].
    + rewrite do_publish_last. cbn. lia.
    + rewrite do_publish_inner. cbn [publications].
      destruct (step_dir p p' =? step_dir p_prev p); cbn [negb]; lia.
Qed.

Lemma start_connector_length (start front : PoseStamped) :
  length (start_connector' start front) = 0%nat
  \/ length (start_connector' start front) = 2%nat.
Proof.
  unfold start_connector.
  destruct (negb _); [right | left]; reflexivity.
Qed.

(** *** The scale, the frame and the tiles *)

Lemma same_scale_refl (self : FullCoveragePathPlanner) : same_scale self self.
Proof. repeat split. Qed.

Lemma goal_at_base (self : FullCoveragePathPlanner) (s : loop_state)
    (p : Point_t) (q : Quaternion) :
  loop_base self s ->
  goal_at (self_ s) (new_goal_ s) p q = goal_at self default_PoseStamped p q.
Proof.
  intros ((_ & Ht & Hg) & Hst & Hz).
  unfold goal_at, set_orientation, set_position_xy, set_frame_id.
  cbn [header pose position orientation stamp pos_z default_PoseStamped].
  now rewrite Ht, Hg, Hst, Hz.
Qed.

Lemma on_tile_goal_at (self : FullCoveragePathPlanner) (tiles : list Point_t)
    (p : Point_t) (q : Quaternion) :
  In p tiles -> on_tile self tiles (goal_at self default_PoseStamped p q).
Proof.
  intros Hin. exists p. split; [exact Hin | reflexivity].
Qed.

Lemma on_tile_set_orientation (self : FullCoveragePathPlanner)
    (tiles : list Point_t) (q : Quaternion) (w : PoseStamped) :
  on_tile self tiles w -> on_tile self tiles (set_orientation q w).
Proof.
  intros (p & Hin & Hw). exists p. split; [exact Hin |].
  cbn [set_orientation pose orientation]. rewrite Hw. reflexivity.
Qed.

Lemma republish_inv (self : FullCoveragePathPlanner) (tiles : list Point_t)
    (o : float) (q : Quaternion) (self0 self1 : FullCoveragePathPlanner)
    (plan plan1 : list PoseStamped) :
  republish' o q self0 plan = Done (self1, plan1) ->
  same_scale self self0 ->
  on_tile self tiles (previous_goal_ self0) ->
  same_scale self self1
  /\ exists ext, plan1 = plan ++ ext /\ Forall (on_tile self tiles) ext.
Proof.
  intros H Hs Hprev.
  pose proof (on_tile_set_orientation self tiles q _ Hprev) as Hg.
  destruct (republish_cases _ _ _ _ _ _ H)
    as [[-> ->] | (stack & d & Hst & -> & ->)].
  - split; [exact Hs |]. eexists. split; [reflexivity |].
    constructor; [exact Hg | constructor].
  - split; [exact Hs |]. eexists. split; [reflexivity |].
    constructor; [now apply on_tile_set_orientation |].
    constructor; [exact Hg | constructor].
Qed.

(** One iteration keeps the scale and the base of [new_goal], and appends
    poses on the tiles; when it publishes, the last one is the new goal. *)
Lemma visit_inv (self : FullCoveragePathPlanner) (tiles : list Point_t)
    (first last : bool) (uninit : Z * Z) (p_prev p p_next : Point_t)
    (s s' : loop_state) :
  visit' first last uninit p_prev p p_next s = Done s' ->
  loop_base self s -> In p tiles ->
  first = true \/ on_tile self tiles (previous_goal_ (self_ s)) ->
  loop_base self s'
  /\ on_tile self tiles (previous_goal_ (self_ s'))
  /\ exists ext,
       plan_ s' = plan_ s ++ ext
       /\ Forall (on_tile self tiles) ext
       /\ (first = true \/ last = true ->
           exists mid,
             ext = mid ++ [previous_goal_ (self_ s')]
             /\ previous_goal_ (self_ s')
                = goal_at self default_PoseStamped p
                    (createQuaternionMsgFromYaw (previous_orientation_ (self_ s')))).
Proof.
  intros H Hbase Hin Hprev.
  pose proof (goal_at_base self s p) as Hgoal.
  destruct first.
  - rewrite visit_first in H. injection H as <-.
    cbn [self_ new_goal_ plan_ set_previous previous_goal_ previous_orientation_].
    rewrite Hgoal by assumption.
    destruct Hbase as (Hs & _ & _).
    repeat split; try apply Hs.
    + now apply on_tile_goal_at.
    + exists [goal_at self default_PoseStamped p
                (createQuaternionMsgFromYaw
                   (switch_orientation (step_dir p p_next) (orientation_ s)))].
      split; [reflexivity |]. split.
      * constructor; [now apply on_tile_goal_at | constructor].
      * intros _. exists []. split; reflexivity.
  - destruct Hprev as [Hprev | Hprev]; [discriminate |].
    destruct (visit_cases _ _ _ _ _ _ _ H)
      as [[Hpub ->] | [Hpub (self1 & plan1 & Hrep & ->)]].
    + split; [exact Hbase |]. split; [exact Hprev |].
      exists []. rewrite app_nil_r. split; [reflexivity |].
      split; [constructor |].
      intros [E | E]; [discriminate |]. subst last.
      rewrite do_publish_last in Hpub. discriminate.
    + cbn [self_ new_goal_ plan_ set_previous previous_goal_
             previous_orientation_].
      rewrite Hgoal by assumption.
      destruct (republish_inv self tiles _ _ _ _ _ _ Hrep
                  (proj1 Hbase) Hprev) as (Hs1 & ext & -> & Hext).
      repeat split; try apply Hs1.
      * now apply on_tile_goal_at.
      * eexists (ext ++ [_]). split; [now rewrite app_assoc |]. split.
        -- apply Forall_app. split; [exact Hext |].
           constructor; [now apply on_tile_goal_at | constructor].
        -- intros _. exists ext. split; reflexivity.
Qed.

Lemma visit_from_inv (self : FullCoveragePathPlanner) (tiles : list Point_t)
    (uninit : Z * Z) (past_end : Point_t) :
  forall (rest : list Point_t) (first : bool) (p_prev : Point_t)
         (s s' : loop_state),
    visit_from' first uninit past_end p_prev rest s = Done s' ->
    loop_base self s -> incl rest tiles ->
    first = true \/ on_tile self tiles (previous_goal_ (self_ s)) ->
    loop_base self s'
    /\ exists ext,
         plan_ s' = plan_ s ++ ext
         /\ Forall (on_tile self tiles) ext
         /\ (rest <> [] ->
             exists mid,
               ext = mid ++ [previous_goal_ (self_ s')]
               /\ previous_goal_ (self_ s')
                  = goal_at self default_PoseStamped (last rest past_end)
                      (createQuaternionMsgFromYaw
                         (previous_orientation_ (self_ s')))).
Proof.
  induction rest as [| p rest IH]; intros first p_prev s s' H Hbase Hincl Hprev.
  - injection H as <-. split; [exact Hbase |].
    exists []. rewrite app_nil_r. repeat split; [constructor | congruence].
  - rewrite visit_from_cons in H.
    match type of H with context [visit' first ?l uninit p_prev p ?n s] =>
      destruct (visit' first l uninit p_prev p n s) as [s1 | |] eqn:Hv
    end; cbn [bind] in H; try discriminate.
    destruct (visit_inv self tiles _ _ _ _ _ _ _ _ Hv Hbase
                (Hincl p (or_introl eq_refl)) Hprev)
      as (Hbase1 & Hprev1 & ext1 & Hp1 & Hext1 & Hlast1).
    destruct rest as [| p' rest].
    + injection H as <-. split; [exact Hbase1 |].
      exists ext1. split; [exact Hp1 |]. split; [exact Hext1 |].
      intros _. apply Hlast1. now right.
    + destruct (IH false p s1 s' H Hbase1) as (Hbase2 & ext2 & Hp2 & Hext2 & Hlast2).
      { intros x Hx. apply Hincl. now right. }
      { now right. }
      split; [exact Hbase2 |].
      exists (ext1 ++ ext2). split; [now rewrite Hp2, Hp1, app_assoc |].
      split; [apply Forall_app; now split |].
      intros _. destruct (Hlast2 ltac:(discriminate)) as (mid & -> & Hgoal).
      exists (ext1 ++ mid). split; [now rewrite app_assoc |].
      exact Hgoal.
Qed.

(** *** Properties of a whole call *)

Lemma compose_tiles_inv (self self' : FullCoveragePathPlanner)
    (p0 p1 : Point_t) (rest : list Point_t) (plan plan' : list PoseStamped)
    (uninit : Z * Z) (past_end : Point_t) :
  compose_tiles' self (p0 :: p1 :: rest) plan uninit past_end
  = Done (Some (self', plan')) ->
  let first_goal :=
    goal_at self default_PoseStamped p0
      (createQuaternionMsgFromYaw (switch_orientation (step_dir p0 p1) 0)) in
  same_scale self self'
  /\ (length plan' + length (turn_around_directions_ self')
      = length plan + length (turn_around_directions_ self) + 1
        + 2 * publications p0 (p1 :: rest))%nat
  /\ exists mid,
       plan' = plan ++ first_goal :: mid ++ [previous_goal_ self']
       /\ Forall (on_tile self (p0 :: p1 :: rest)) mid
       /\ previous_goal_ self'
          = goal_at self default_PoseStamped (last rest p1)
              (createQuaternionMsgFromYaw (previous_orientation_ self')).
Proof.
  intros H first_goal. unfold compose_tiles in H.
  rewrite visit_from_cons, visit_first in H. cbn [bind] in H.
  rewrite of_Z_none in H. cbn [self_ new_goal_ plan_ orientation_] in H.
  fold first_goal in H.
  match type of H with context [visit_from' false uninit past_end p0 _ ?s] =>
    set (s1 := s) in H;
    destruct (visit_from' false uninit past_end p0 (p1 :: rest) s1)
      as [s2 | |] eqn:Hv
  end; cbn [bind] in H; try discriminate.
  injection H as <- <-.
  assert (Hbase : loop_base self s1) by (repeat split).
  destruct (visit_from_inv self (p0 :: p1 :: rest) uninit past_end
              (p1 :: rest) false p0 s1 s2 Hv Hbase)
    as ((Hs & _) & ext & Hp & Hext & Hlast).
  { intros x Hx. now right. }
  { right. apply on_tile_goal_at. now left. }
  split; [exact Hs |]. split.
  - apply visit_from_account in Hv. rewrite Hv. subst s1.
    cbn [plan_ self_ set_previous turn_around_directions_].
    unfold push_back. rewrite length_app. cbn. lia.
  - destruct (Hlast ltac:(discriminate)) as (mid & -> & Hgoal).
    exists mid. split; [| split].
    + rewrite Hp. subst s1. cbn [plan_]. unfold push_back.
      now rewrite <- app_assoc.
    + apply Forall_app in Hext. apply Hext.
    + rewrite Hgoal. f_equal.
      destruct rest as [| p2 rest2];
        [reflexivity | apply (last_cons_default _ rest2 p2 past_end p1)].
Qed.

(** For a visit list of two or more tiles, the poses of the plan and the
    entries left on the turn stack add up: the incoming ones, the start pose,
    none or two connector poses, the first waypoint, and two for every tile
    after the first at which a waypoint is published. *)
Theorem plan_length_account (self self' : FullCoveragePathPlanner)
    (start : PoseStamped) (p0 p1 : Point_t) (rest : list Point_t)
    (plan plan' : list PoseStamped) (uninit : Z * Z) (past_end : Point_t) :
  parsePointlist2Plan' self start (p0 :: p1 :: rest) plan uninit past_end
  = Done (self', plan') ->
  exists connector,
    (connector = 0 \/ connector = 2)%nat
    /\ (length plan' + length (turn_around_directions_ self')
        = length plan + length (turn_around_directions_ self)
          + 2 + connector + 2 * publications p0 (p1 :: rest))%nat.
Proof.
  unfold parsePointlist2Plan.
  destruct (compose_tiles' self (p0 :: p1 :: rest) plan uninit past_end)
    as [[[self1 plan1] |] | |] eqn:Hc; cbn [bind]; try discriminate.
  - destruct (compose_tiles_inv _ _ _ _ _ _ _ _ _ Hc) as (_ & Hlen & _).
    unfold connect_start. destruct plan1 as [| front plan1]; [discriminate |].
    cbn [bind]. intros [= <- <-].
    exists (length (start_connector' start front)).
    split; [apply start_connector_length |].
    cbn [length]. rewrite length_app. cbn [length] in *. lia.
  - apply compose_tiles_None in Hc. discriminate.
Qed.

(** The plan a call on a visit list that is not empty leaves, in parts. *)
Lemma parsePointlist2Plan_appends
    (self self' : FullCoveragePathPlanner) (start : PoseStamped)
    (goalpoints : list Point_t) (plan plan' : list PoseStamped)
    (uninit : Z * Z) (past_end : Point_t) :
  goalpoints <> [] ->
  parsePointlist2Plan' self start goalpoints plan uninit past_end
  = Done (self', plan') ->
  exists front ext,
    hd_error (plan ++ ext) = Some front
    /\ ext <> []
    /\ plan' = start :: start_connector' start front ++ plan ++ ext
    /\ Forall (on_tile self goalpoints) ext.
Proof.
  intros Hne. unfold parsePointlist2Plan.
  destruct (compose_tiles' self goalpoints plan uninit past_end)
    as [[[self1 plan1] |] | |] eqn:Hc; cbn [bind]; try discriminate.
  - assert (exists ext,
               plan1 = plan ++ ext /\ ext <> []
               /\ Forall (on_tile self goalpoints) ext) as (ext & -> & Hext & Hon).
    { destruct goalpoints as [| p0 [| p1 rest]]; [congruence | |].
      - injection Hc as _ <-. eexists. split; [reflexivity |].
        split; [discriminate |].
        constructor; [apply on_tile_goal_at; now left | constructor].
      - destruct (compose_tiles_inv _ _ _ _ _ _ _ _ _ Hc)
          as (_ & _ & mid & -> & Hmid & Hgoal).
        eexists. split; [reflexivity |]. split; [discriminate |].
        constructor; [apply on_tile_goal_at; now left |].
        apply Forall_app. split; [exact Hmid |].
        constructor; [| constructor].
        rewrite Hgoal. apply on_tile_goal_at.
        destruct rest as [| p2 rest2]; [right; now left |].
        right. right. apply last_cons_In. }
    unfold connect_start.
    destruct (plan ++ ext) as [| front tl] eqn:E;
      [apply app_eq_nil in E as [_ E]; contradiction |].
    cbn [bind]. intros [= _ <-].
    exists front, ext. rewrite E. repeat split; assumption.
  - apply compose_tiles_None in Hc. contradiction.
Qed.

(** A call on a visit list that is not empty keeps the incoming plan, in
    order, behind the start pose and the connector, and appends only poses at
    centres of tiles of the visit list. *)
Theorem plan_keeps_incoming_and_adds_tile_poses
    (self self' : FullCoveragePathPlanner) (start : PoseStamped)
    (goalpoints : list Point_t) (plan plan' : list PoseStamped)
    (uninit : Z * Z) (past_end : Point_t) :
  goalpoints <> [] ->
  parsePointlist2Plan' self start goalpoints plan uninit past_end
  = Done (self', plan') ->
  exists front ext,
    hd_error (plan ++ ext) = Some front
    /\ ext <> []
    /\ plan' = start :: start_connector' start front ++ plan ++ ext
    /\ Forall (on_tile self goalpoints) ext.
Proof.
  intros Hne H.
  exact (parsePointlist2Plan_appends self self' start goalpoints plan plan'
           uninit past_end Hne H).
Qed.

(** For a visit list of two or more tiles, the tile-derived poses begin with
    the waypoint of the first tile, headed along the first step, and the plan
    ends with the waypoint of the last tile, which is what [previous_goal_]
    and [previous_orientation_] hold after the call. *)
Theorem plan_ends_with_remembered_goal (self self' : FullCoveragePathPlanner)
    (start : PoseStamped) (p0 p1 : Point_t) (rest : list Point_t)
    (plan plan' : list PoseStamped) (uninit : Z * Z) (past_end : Point_t) :
  parsePointlist2Plan' self start (p0 :: p1 :: rest) plan uninit past_end
  = Done (self', plan') ->
  let first_goal :=
    goal_at self default_PoseStamped p0
      (createQuaternionMsgFromYaw (switch_orientation (step_dir p0 p1) 0)) in
  last plan' start = previous_goal_ self'
  /\ previous_goal_ self'
     = goal_at self default_PoseStamped (last rest p1)
         (createQuaternionMsgFromYaw (previous_orientation_ self'))
  /\ exists front mid,
       plan' = start :: start_connector' start front ++ plan
                 ++ first_goal :: mid ++ [previous_goal_ self'].
Proof.
  intros H first_goal. unfold parsePointlist2Plan in H.
  destruct (compose_tiles' self (p0 :: p1 :: rest) plan uninit past_end)
    as [[[self1 plan1] |] | |] eqn:Hc; cbn [bind] in H; try discriminate.
  - destruct (compose_tiles_inv _ _ _ _ _ _ _ _ _ Hc)
      as (_ & _ & mid & -> & _ & Hgoal).
    fold first_goal in H. unfold connect_start in H.
    destruct (plan ++ first_goal :: mid ++ [previous_goal_ self1])
      as [| front tl] eqn:E; [discriminate |].
    cbn [bind] in H. injection H as <- <-. rewrite <- E.
    assert (Hplan : start :: start_connector' start front ++ plan
                      ++ first_goal :: mid ++ [previous_goal_ self1]
                    = (start :: start_connector' start front ++ plan
                         ++ first_goal :: mid) ++ [previous_goal_ self1]).
    { cbn [app]. f_equal. rewrite <- !app_assoc. reflexivity. }
    split; [rewrite Hplan; apply last_last |].
    split; [exact Hgoal |]. exists front, mid. reflexivity.
  - apply compose_tiles_None in Hc. discriminate.
Qed.

(** A call never changes [initialized_], [tile_size_] or [grid_origin_]; on a
    visit list of fewer than two tiles it leaves the whole planner as it was,
    [previous_goal_] included. *)
Theorem parsePointlist2Plan_keeps_scale (self self' : FullCoveragePathPlanner)
    (start : PoseStamped) (goalpoints : list Point_t)
    (plan plan' : list PoseStamped) (uninit : Z * Z) (past_end : Point_t) :
  parsePointlist2Plan' self start goalpoints plan uninit past_end
  = Done (self', plan') ->
  same_scale self self'
  /\ ((length goalpoints <= 1)%nat -> self' = self).
Proof.
  intros H. unfold parsePointlist2Plan in H.
  destruct goalpoints as [| p0 [| p1 rest]].
  - cbn in H. injection H as <- _. split; [apply same_scale_refl | reflexivity].
  - cbn [compose_tiles bind] in H.
    destruct (connect_start' start _) as [plan1 | |]; cbn [bind] in H;
      try discriminate.
    injection H as <- _. split; [apply same_scale_refl | reflexivity].
  - destruct (compose_tiles' self (p0 :: p1 :: rest) plan uninit past_end)
      as [[[self1 plan1] |] | |] eqn:Hc; cbn [bind] in H; try discriminate.
    + destruct (compose_tiles_inv _ _ _ _ _ _ _ _ _ Hc) as (Hs & _).
      destruct (connect_start' start plan1) as [plan2 | |]; cbn [bind] in H;
        try discriminate.
      injection H as <- _. split; [exact Hs |]. cbn. lia.
    + apply compose_tiles_None in Hc. discriminate.
Qed.

(** At a published tile after the first whose heading is the one of the
    previous waypoint, the turn stack is neither read nor changed, whatever it
    holds and whatever [cos] and [sin] return: the plan receives the previous
    goal and the new waypoint. *)
Theorem same_heading_needs_no_stack (last : bool) (uninit : Z * Z)
    (p_prev p p_next : Point_t) (s : loop_state) :
  do_publish (step_dir p_prev p) (step_dir p p_next) false last = true ->
  switch_orientation (step_dir p_prev p) (orientation_ s)
  = previous_orientation_ (self_ s) ->
  exists s',
    visit' false last uninit p_prev p p_next s = Done s'
    /\ turn_around_directions_ (self_ s') = turn_around_directions_ (self_ s)
    /\ plan_ s' =
         plan_ s
           ++ [set_orientation
                 (createQuaternionMsgFromYaw (previous_orientation_ (self_ s)))
                 (previous_goal_ (self_ s));
               goal_at (self_ s) (new_goal_ s) p
                 (createQuaternionMsgFromYaw (previous_orientation_ (self_ s)))].
Proof.
  intros Hpub Ho.
  rewrite visit_eq, dir_now_later, dir_next_later, Hpub. cbv zeta.
  rewrite Ho. cbn [negb].
  rewrite republish_plain by apply reversal_same.
  cbn [bind fst snd]. eexists. split; [reflexivity |].
  split; [reflexivity |]. cbn [plan_]. unfold push_back.
  now rewrite <- app_assoc.
Qed.

End PathComposerInvariants.

(** ** The direction code *)

(** On the steps between neighbouring tiles (one axis, at most one cell) the
    code [dx + dy * 2] tells the step: each of the five codes of the header
    stands for exactly one of them. *)
Theorem move_dir_tells_axis_step (dx dy : Z) :
  -1 <= dx <= 1 -> -1 <= dy <= 1 -> dx = 0 \/ dy = 0 ->
  (move_dir dx dy = dir.none <-> dx = 0 /\ dy = 0)
  /\ (move_dir dx dy = dir.right <-> dx = 1 /\ dy = 0)
  /\ (move_dir dx dy = dir.up <-> dx = 0 /\ dy = 1)
  /\ (move_dir dx dy = dir.left <-> dx = -1 /\ dy = 0)
  /\ (move_dir dx dy = dir.down <-> dx = 0 /\ dy = -1).
Proof.
  intros Hx Hy Haxis.
  assert (Ex : dx = -1 \/ dx = 0 \/ dx = 1) by lia.
  assert (Ey : dy = -1 \/ dy = 0 \/ dy = 1) by lia.
  destruct Ex as [-> | [-> | ->]]; destruct Ey as [-> | [-> | ->]];
    try (exfalso; lia); vm_compute; intuition congruence.
Qed.

(** ** [publishPlan] and the plan of [parsePointlist2Plan] *)

Lemma fold_left_push_back (A : Type) (l acc : list A) :
  fold_left push_back l acc = acc ++ l.
Proof.
  revert acc. induction l as [| a l IH]; intros acc; cbn [fold_left].
  - now rewrite app_nil_r.
  - rewrite IH. unfold push_back. now rewrite <- app_assoc.
Qed.

Lemma publishPlan_initialized (self : FullCoveragePathPlanner)
    (first : PoseStamped) (path : list PoseStamped) (plan_pub_ : list Path) :
  initialized_ self = true ->
  publishPlan self (first :: path) plan_pub_
  = Done (plan_pub_ ++ [mkPath (header first) (first :: path)]).
Proof.
  intros Hi. unfold publishPlan. rewrite Hi. cbn [negb].
  rewrite fold_left_push_back. cbn [app]. unfold push_back.
  destruct (header first). reflexivity.
Qed.

Section PublishingThePlan.

Variable cos sin : float -> float.
Variable atan2 : float -> float -> float.
Variable createQuaternionMsgFromYaw : float -> Quaternion.

Local Abbreviation compose_tiles' := (compose_tiles cos sin createQuaternionMsgFromYaw).
Local Abbreviation connect_start' := (connect_start atan2 createQuaternionMsgFromYaw).
Local Abbreviation parsePointlist2Plan' :=
  (parsePointlist2Plan cos sin atan2 createQuaternionMsgFromYaw).

(** What a call leaves of [initialized_], and the head of its plan. *)
Lemma parsePointlist2Plan_initialized_and_head
    (self self' : FullCoveragePathPlanner) (start : PoseStamped)
    (goalpoints : list Point_t) (plan plan' : list PoseStamped)
    (uninit : Z * Z) (past_end : Point_t) :
  parsePointlist2Plan' self start goalpoints plan uninit past_end
  = Done (self', plan') ->
  initialized_ self' = initialized_ self
  /\ (goalpoints = [] /\ plan' = plan
      \/ goalpoints <> [] /\ exists rest, plan' = start :: rest).
Proof.
  intros H. unfold parsePointlist2Plan in H.
  destruct goalpoints as [| p0 [| p1 rest]].
  - cbn in H. injection H as <- <-. split; [reflexivity |]. now left.
  - cbn [compose_tiles bind] in H. unfold connect_start, push_back in H.
    destruct (plan ++ _) as [| front tl]; cbn [bind] in H; [discriminate |].
    injection H as <- <-. split; [reflexivity |]. right.
    split; [discriminate |]. eexists. reflexivity.
  - destruct (compose_tiles' self (p0 :: p1 :: rest) plan uninit past_end)
      as [[[self1 plan1] |] | |] eqn:Hc; cbn [bind] in H; try discriminate.
    + destruct (compose_tiles_inv _ _ _ _ _ _ _ _ _ _ _ _ Hc) as ((Hi & _) & _).
      unfold connect_start in H.
      destruct plan1 as [| front tl]; cbn [bind] in H; [discriminate |].
      injection H as <- <-. split; [exact Hi |]. right.
      split; [discriminate |]. eexists. reflexivity.
    + apply compose_tiles_None in Hc. discriminate.
Qed.

(** On an initialized planner, the plan of a visit list that is not empty can
    be published: one message, with the poses of the plan in order and the
    frame and stamp of the start pose. *)
Theorem plan_of_nonempty_list_is_published
    (self self' : FullCoveragePathPlanner) (start : PoseStamped)
    (goalpoints : list Point_t) (plan plan' : list PoseStamped)
    (uninit : Z * Z) (past_end : Point_t) (plan_pub_ : list Path) :
  initialized_ self = true -> goalpoints <> [] ->
  parsePointlist2Plan' self start goalpoints plan uninit past_end
  = Done (self', plan') ->
  publishPlan self' plan' plan_pub_
  = Done (plan_pub_ ++ [mkPath (header start) plan']).
Proof.
  intros Hi Hne H.
  destruct (parsePointlist2Plan_initialized_and_head _ _ _ _ _ _ _ _ H)
    as (Hi' & [[E _] | [_ (rest & ->)]]); [contradiction |].
  apply publishPlan_initialized. congruence.
Qed.

(** On an initialized planner, publishing what a call on the empty visit list
    leaves of an empty plan is undefined: the early return adds no pose and
    [publishPlan] reads [path[0]]. *)
Theorem plan_of_empty_list_is_not_publishable
    (self self' : FullCoveragePathPlanner) (start : PoseStamped)
    (plan' : list PoseStamped) (uninit : Z * Z) (past_end : Point_t)
    (plan_pub_ : list Path) :
  initialized_ self = true ->
  parsePointlist2Plan' self start [] [] uninit past_end = Done (self', plan') ->
  publishPlan self' plan' plan_pub_ = Undefined.
Proof.
  intros Hi H. cbn in H. injection H as <- <-.
  unfold publishPlan. rewrite Hi. reflexivity.
Qed.

(** A planner as the constructor leaves it publishes nothing, before and
    after any call of [parsePointlist2Plan] and for every path, the empty one
    included: no call sets [initialized_]. *)
Theorem nothing_published_before_initialization
    (tile_size : float) (grid_origin : dPoint_t) (previous_orientation : float)
    (self' : FullCoveragePathPlanner) (start : PoseStamped)
    (goalpoints : list Point_t) (plan plan' path : list PoseStamped)
    (uninit : Z * Z) (past_end : Point_t) (plan_pub_ : list Path) :
  let self :=
    FullCoveragePathPlanner_new tile_size grid_origin previous_orientation in
  parsePointlist2Plan' self start goalpoints plan uninit past_end
  = Done (self', plan') ->
  publishPlan self path plan_pub_ = Done plan_pub_
  /\ publishPlan self' path plan_pub_ = Done plan_pub_.
Proof.
  intros self H. split; [reflexivity |].
  destruct (parsePointlist2Plan_initialized_and_head _ _ _ _ _ _ _ _ H)
    as (Hi & _).
  unfold publishPlan. rewrite Hi. reflexivity.
Qed.

End PublishingThePlan.

(** ** The shape of the grid *)

Lemma ceil_div_step (a b : Z) : 0 < b -> ceil_div a b = 1 + ceil_div (a - b) b.
Proof.
  intros Hb. unfold ceil_div.
  replace (a + b - 1) with (a - b + b - 1 + 1 * b) by ring.
  rewrite Z.div_add by lia. lia.
Qed.

Lemma ceil_div_none (a b : Z) : - b < a <= 0 -> ceil_div a b = 0.
Proof.
  intros H. unfold ceil_div. apply Z.div_small. lia.
Qed.

Section ScaleGridShape.

Variable COVERAGE_COST : Z.
Variable n_rows n_cols node_size : Z.
Variable cpp_costmap_data : Z -> Z.
Variable budget : nat.

Hypothesis rows_range : 0 <= n_rows < UInt.modulus.
Hypothesis cols_range : 0 <= n_cols < UInt.modulus.
Hypothesis node_range : 1 <= node_size < SizeT.modulus.

Local Abbreviation scan_rows' :=
  (scan_rows COVERAGE_COST n_rows n_cols node_size cpp_costmap_data budget).
Local Abbreviation row_tiles' :=
  (row_tiles COVERAGE_COST n_rows n_cols node_size cpp_costmap_data budget).
Local Abbreviation grid_rows' :=
  (grid_rows COVERAGE_COST n_rows n_cols node_size cpp_costmap_data budget).

Lemma row_tiles_length (iy : Z) :
  forall (fuel : nat) (ix : Z) (grid_row out : list bool),
    0 <= ix -> ix = 0 \/ node_size <= ix -> ix < n_cols + node_size ->
    row_tiles' fuel iy ix grid_row = Done out ->
    Z.of_nat (length out)
    = Z.of_nat (length grid_row) + ceil_div (n_cols - ix) node_size.
Proof.
  unfold SizeT.modulus, UInt.modulus in *.
  induction fuel as [| fuel IH]; intros ix grid_row out Hix Hinv Hlt H;
    [discriminate |].
  cbn [row_tiles] in H.
  destruct (ix <? n_cols) eqn:E.
  - apply Z.ltb_lt in E.
    destruct (scan_rows' budget iy ix 0 false) as [b | |]; cbn [bind] in H;
      try discriminate.
    rewrite SizeT_add_small in H by (unfold SizeT.modulus; lia).
    apply IH in H; [| lia | right; lia | lia].
    rewrite H. unfold push_back. rewrite length_app. cbn [length].
    rewrite (ceil_div_step (n_cols - ix)) by lia.
    replace (n_cols - (ix + node_size)) with (n_cols - ix - node_size) by lia.
    lia.
  - apply Z.ltb_ge in E. injection H as <-.
    rewrite ceil_div_none by lia. lia.
Qed.

Lemma grid_rows_shape :
  forall (fuel : nat) (iy : Z) (grid out : list (list bool)),
    0 <= iy -> iy = 0 \/ node_size <= iy -> iy < n_rows + node_size ->
    grid_rows' fuel iy grid = Done out ->
    exists rows,
      out = grid ++ rows
      /\ Z.of_nat (length rows) = ceil_div (n_rows - iy) node_size
      /\ Forall (fun grid_row =>
                   Z.of_nat (length grid_row) = ceil_div n_cols node_size)
           rows.
Proof.
  unfold SizeT.modulus, UInt.modulus in *.
  induction fuel as [| fuel IH]; intros iy grid out Hiy Hinv Hlt H;
    [discriminate |].
  cbn [grid_rows] in H.
  destruct (iy <? n_rows) eqn:E.
  - apply Z.ltb_lt in E.
    destruct (row_tiles' budget iy 0 []) as [grid_row | |] eqn:Hrow;
      cbn [bind] in H; try discriminate.
    apply row_tiles_length in Hrow; [| lia | now left | lia].
    rewrite Z.sub_0_r in Hrow. cbn [length Z.of_nat] in Hrow.
    rewrite SizeT_add_small in H by (unfold SizeT.modulus; lia).
    apply IH in H; [| lia | right; lia | lia].
    destruct H as (rows & -> & Hlen & Hall).
    exists (grid_row :: rows). split; [| split].
    + unfold push_back. now rewrite <- app_assoc.
    + cbn [length]. rewrite (ceil_div_step (n_rows - iy)) by lia.
      replace (n_rows - iy - node_size) with (n_rows - (iy + node_size)) by lia.
      lia.
    + constructor; [lia | exact Hall].
  - apply Z.ltb_ge in E. injection H as <-.
    exists []. rewrite app_nil_r. split; [reflexivity |].
    split; [| constructor].
    rewrite ceil_div_none by lia. reflexivity.
Qed.

End ScaleGridShape.

(** Whatever the sizes are, the rows are appended to the grid that comes
    in. *)
Lemma grid_rows_appends (COVERAGE_COST n_rows n_cols node_size : Z)
    (cpp_costmap_data : Z -> Z) (budget : nat) :
  forall (fuel : nat) (iy : Z) (grid out : list (list bool)),
    grid_rows COVERAGE_COST n_rows n_cols node_size cpp_costmap_data budget
      fuel iy grid = Done out ->
    exists rows, out = grid ++ rows.
Proof.
  induction fuel as [| fuel IH]; intros iy grid out H; [discriminate |].
  cbn [grid_rows] in H.
  destruct (iy <? n_rows).
  - destruct (row_tiles _ _ _ _ _ _ _ _ _ _) as [grid_row | |];
      cbn [bind] in H; try discriminate.
    apply IH in H as (rows & ->). exists (grid_row :: rows).
    unfold push_back. now rewrite <- app_assoc.
  - injection H as <-. exists []. now rewrite app_nil_r.
Qed.

(** ** More of [parseGrid] *)

Lemma to_unsigned_trunc (modulus : Z) (d : float) (z : Z) :
  Double.to_unsigned modulus d = Some z -> Double.trunc d = Some z.
Proof.
  unfold Double.to_unsigned. destruct (Double.trunc d) as [t |]; [| discriminate].
  destruct ((0 <=? t) && (t <? modulus)); [| discriminate].
  intros H. exact H.
Qed.

Section GridBuilderMore.

Variable ceil floor : float -> float.
Variable getAngle : Quaternion -> float.
Variable COVERAGE_COST : Z.

Local Abbreviation node_size_of' := (node_size_of ceil).
Local Abbreviation scale_start' := (scale_start floor).
Local Abbreviation parseGrid' := (parseGrid ceil floor getAngle COVERAGE_COST).

(** A call that returns, by cases on the returned flag. *)
Lemma parseGrid_inv (fuel : nat) (self : FullCoveragePathPlanner)
    (cpp_costmap : Costmap2D) (grid : list (list bool)) (grid_size : float)
    (real_start : PoseStamped) (scaled_start : Point_t) (yaw_start : float)
    (r : parseGrid_result) :
  parseGrid' fuel self cpp_costmap grid grid_size real_start scaled_start yaw_start
  = Done r ->
  exists node_size,
    node_size_of' cpp_costmap grid_size = Some node_size
    /\ (((getSizeInCellsY cpp_costmap = 0 \/ getSizeInCellsX cpp_costmap = 0)
         /\ r = mkGridResult false self grid scaled_start yaw_start)
        \/ (getSizeInCellsY cpp_costmap <> 0 /\ getSizeInCellsX cpp_costmap <> 0
            /\ exists x y grid',
                 grid_rows COVERAGE_COST (getSizeInCellsY cpp_costmap)
                   (getSizeInCellsX cpp_costmap) node_size
                   (getCharMap cpp_costmap) fuel fuel 0 grid = Done grid'
                 /\ r = mkGridResult true
                          (set_scale
                             (mkdPoint_t (fst (mapToWorld cpp_costmap 0 0))
                                (snd (mapToWorld cpp_costmap 0 0)))
                             (Double.of_Z node_size * getResolution cpp_costmap)
                             self)
                          grid' (mkPoint_t x y)
                          (getAngle (orientation (pose real_start))))).
Proof.
  unfold parseGrid.
  destruct (node_size_of' cpp_costmap grid_size) as [ns |];
    cbn [from_option bind]; [| discriminate].
  intros H. exists ns. split; [reflexivity |].
  destruct ((getSizeInCellsY cpp_costmap =? 0) || (getSizeInCellsX cpp_costmap =? 0))
    eqn:Hz.
  - injection H as <-. left. split; [| reflexivity].
    apply orb_true_iff in Hz. now rewrite !Z.eqb_eq in Hz.
  - right. apply orb_false_iff in Hz. rewrite !Z.eqb_neq in Hz.
    destruct Hz as [Hy Hx]. split; [exact Hy |]. split; [exact Hx |].
    cbv zeta in H.
    destruct (scale_start' (pos_x _) _ _ _) as [x |]; cbn [from_option bind] in H;
      [| discriminate].
    destruct (scale_start' (pos_y _) _ _ _) as [y |]; cbn [from_option bind] in H;
      [| discriminate].
    destruct (grid_rows _ _ _ _ _ _ _ _ _) as [grid' | |] eqn:Hg;
      cbn [bind] in H; try discriminate.
    injection H as <-. eexists _, _, grid'. split; reflexivity.
Qed.

(** Whatever the fuel and the map: a call that returns never touches the
    memory of the path composer nor [initialized_], and keeps the rows of the
    incoming grid in front.  When it returns [false] the map has no rows or
    no columns and nothing at all has changed; when it returns [true] the
    grid origin is the world position of cell (0, 0) and the start yaw the
    angle of the start orientation. *)
Theorem parseGrid_effects (fuel : nat) (self : FullCoveragePathPlanner)
    (cpp_costmap : Costmap2D) (grid : list (list bool)) (grid_size : float)
    (real_start : PoseStamped) (scaled_start : Point_t) (yaw_start : float)
    (r : parseGrid_result) :
  parseGrid' fuel self cpp_costmap grid grid_size real_start scaled_start yaw_start
  = Done r ->
  (initialized_ (planner r) = initialized_ self
   /\ previous_goal_ (planner r) = previous_goal_ self
   /\ previous_orientation_ (planner r) = previous_orientation_ self
   /\ turn_around_directions_ (planner r) = turn_around_directions_ self)
  /\ (exists rows, grid_out r = grid ++ rows)
  /\ (returned r = false ->
      (getSizeInCellsY cpp_costmap = 0 \/ getSizeInCellsX cpp_costmap = 0)
      /\ r = mkGridResult false self grid scaled_start yaw_start)
  /\ (returned r = true ->
      getSizeInCellsY cpp_costmap <> 0 /\ getSizeInCellsX cpp_costmap <> 0
      /\ grid_origin_ (planner r)
         = mkdPoint_t (fst (mapToWorld cpp_costmap 0 0))
             (snd (mapToWorld cpp_costmap 0 0))
      /\ yaw_start_out r = getAngle (orientation (pose real_start))).
Proof.
  intros H.
  destruct (parseGrid_inv _ _ _ _ _ _ _ _ _ H)
    as (ns & _ & [[Hz ->] | (Hy & Hx & x & y & grid' & Hg & ->)]).
  - cbn [planner grid_out returned]. split; [repeat split |].
    split; [exists []; now rewrite app_nil_r |].
    split; [intros _; split; [exact Hz | reflexivity] | discriminate].
  - cbn [planner grid_out returned yaw_start_out set_scale initialized_
           previous_goal_ previous_orientation_ turn_around_directions_
           grid_origin_].
    split; [repeat split |].
    split; [exact (grid_rows_appends _ _ _ _ _ _ _ _ _ _ Hg) |].
    split; [discriminate |]. intros _. repeat split; assumption.
Qed.

(** On a map with cells, the grid out is the grid in followed by
    [ceil(rows / node_size)] rows of [ceil(columns / node_size)] tiles each,
    and each tile tells whether its footprint is occupied. *)
Lemma parseGrid_nonempty_shape (fuel : nat) (self : FullCoveragePathPlanner)
    (cpp_costmap : Costmap2D) (grid : list (list bool)) (grid_size : float)
    (real_start : PoseStamped) (scaled_start : Point_t) (yaw_start : float) :
  sizes_in_range cpp_costmap -> index_fits_int cpp_costmap ->
  getSizeInCellsY cpp_costmap <> 0 -> getSizeInCellsX cpp_costmap <> 0 ->
  node_size_in_range ceil cpp_costmap grid_size ->
  start_bounds_in_range ceil floor cpp_costmap grid_size ->
  Z.max (getSizeInCellsX cpp_costmap) (getSizeInCellsY cpp_costmap)
  < Z.of_nat fuel ->
  exists r node_size rows,
    parseGrid' fuel self cpp_costmap grid grid_size real_start scaled_start yaw_start
    = Done r
    /\ node_size_of' cpp_costmap grid_size = Some node_size
    /\ 1 <= node_size
    /\ grid_out r = grid ++ rows
    /\ Z.of_nat (length rows) = ceil_div (getSizeInCellsY cpp_costmap) node_size
    /\ Forall (fun grid_row =>
                 Z.of_nat (length grid_row)
                 = ceil_div (getSizeInCellsX cpp_costmap) node_size) rows
    /\ forall (ty tx : nat) (b : bool),
         tile rows ty tx = Some b ->
         (b = true <->
          footprint_occupied cpp_costmap COVERAGE_COST node_size
            (Z.of_nat ty) (Z.of_nat tx)).
Proof.
  intros Hsizes Hfits Hy Hx Hn Hb Hfuel.
  destruct (parseGrid_nonempty ceil floor getAngle COVERAGE_COST fuel self
              cpp_costmap grid grid_size real_start scaled_start yaw_start
              Hsizes Hfits Hy Hx Hn Hb Hfuel)
    as (ns & x & y & zx & zy & rows & Hrun & Hns & Hns1 & _ & _ & _ & _ & Htiles).
  cbv zeta in Hrun.
  destruct (parseGrid_inv _ _ _ _ _ _ _ _ _ Hrun)
    as (ns' & Hns' & [[_ Hr] | (_ & _ & x' & y' & grid' & Hg & Hr)]);
    [discriminate |].
  assert (ns' = ns) as -> by congruence.
  apply (f_equal grid_out) in Hr. cbn [grid_out] in Hr. subst grid'.
  destruct (node_size_of_defined ceil _ _ Hn) as (ns'' & Hns'' & Hrange & _).
  assert (ns'' = ns) as -> by congruence.
  destruct Hsizes as [Hsx Hsy].
  destruct (grid_rows_shape COVERAGE_COST _ _ _ (getCharMap cpp_costmap) fuel
              Hsy Hsx Hrange fuel 0 grid _ ltac:(lia) ltac:(now left)
              ltac:(lia) Hg)
    as (rows' & Heq & Hlen & Hall).
  apply app_inv_head in Heq. subst rows'. rewrite Z.sub_0_r in Hlen.
  eexists _, ns, rows. split; [exact Hrun |].
  repeat split; solve [assumption | reflexivity | apply Htiles; assumption].
Qed.

(** The grid has [ceil(rows / node_size)] rows of [ceil(columns / node_size)]
    tiles, appended to the grid that came in. *)
Theorem grid_dimensions (fuel : nat) (self : FullCoveragePathPlanner)
    (cpp_costmap : Costmap2D) (grid : list (list bool)) (grid_size : float)
    (real_start : PoseStamped) (scaled_start : Point_t) (yaw_start : float) :
  sizes_in_range cpp_costmap -> index_fits_int cpp_costmap ->
  getSizeInCellsY cpp_costmap <> 0 -> getSizeInCellsX cpp_costmap <> 0 ->
  node_size_in_range ceil cpp_costmap grid_size ->
  start_bounds_in_range ceil floor cpp_costmap grid_size ->
  Z.max (getSizeInCellsX cpp_costmap) (getSizeInCellsY cpp_costmap)
  < Z.of_nat fuel ->
  exists r node_size rows,
    parseGrid' fuel self cpp_costmap grid grid_size real_start scaled_start yaw_start
    = Done r
    /\ node_size_of' cpp_costmap grid_size = Some node_size
    /\ grid_out r = grid ++ rows
    /\ Z.of_nat (length rows) = ceil_div (getSizeInCellsY cpp_costmap) node_size
    /\ Forall (fun grid_row =>
                 Z.of_nat (length grid_row)
                 = ceil_div (getSizeInCellsX cpp_costmap) node_size) rows.
Proof.
  intros Hsizes Hfits Hy Hx Hn Hb Hfuel.
  destruct (parseGrid_nonempty_shape fuel self cpp_costmap grid grid_size
              real_start scaled_start yaw_start Hsizes Hfits Hy Hx Hn Hb Hfuel)
    as (r & ns & rows & Hrun & Hns & _ & Hgrid & Hlen & Hall & _).
  exists r, ns, rows. repeat split; assumption.
Qed.

(** The three regimes of a scaled start coordinate, for a bound in range: a
    quotient above the bound, or not a number, gives the bound; a negative
    one gives 0; one in between is truncated. *)
Theorem scale_start_regimes (real origin tile_size : float) (cells : Z) :
  let a := ((real - origin) / tile_size)%float in
  let hi := start_bound floor cells tile_size in
  bound_in_range hi ->
  ((a <=? hi)%float = false ->
   scale_start' real origin tile_size cells = Double.trunc hi)
  /\ ((a <=? hi)%float = true -> (0 <=? a)%float = false ->
      scale_start' real origin tile_size cells = Some 0)
  /\ ((a <=? hi)%float = true -> (0 <=? a)%float = true ->
      scale_start' real origin tile_size cells = Double.trunc a).
Proof.
  intros a hi [H0 H1].
  destruct (to_unsigned_int_clamp a hi H0 H1) as (z & zhi & Hz & _).
  pose proof (to_unsigned_trunc _ _ _ Hz) as Ht.
  unfold scale_start. fold a. fold hi. rewrite Hz, <- Ht.
  unfold clamp, dmax, dmin, Double.geb.
  repeat split.
  - intros Ha. now rewrite Ha, H0.
  - intros Ha Hneg. now rewrite Ha, Hneg.
  - intros Ha Hpos. now rewrite Ha, Hpos.
Qed.

End GridBuilderMore.

(** ** The occupancy threshold *)

Lemma footprint_occupied_threshold (cpp_costmap : Costmap2D)
    (low high node_size ty tx : Z) :
  low <= high ->
  footprint_occupied cpp_costmap high node_size ty tx ->
  footprint_occupied cpp_costmap low node_size ty tx.
Proof.
  intros Hle (r & c & Hr & Hc & Hcost). exists r, c.
  split; [exact Hr |]. split; [exact Hc | lia].
Qed.

Lemma tile_defined (rows : list (list bool)) (width : Z) (ty tx : nat) (b : bool) :
  Forall (fun grid_row => Z.of_nat (length grid_row) = width) rows ->
  tile rows ty tx = Some b ->
  (ty < length rows)%nat /\ Z.of_nat tx < width.
Proof.
  intros Hall. unfold tile.
  destruct (nth_error rows ty) as [grid_row |] eqn:Hrow; [| discriminate].
  intros Hb. split.
  - apply nth_error_Some. congruence.
  - rewrite Forall_forall in Hall.
    rewrite <- (Hall grid_row (nth_error_In _ _ Hrow)).
    apply Nat2Z.inj_lt, nth_error_Some. congruence.
Qed.

Lemma tile_in_shape (rows : list (list bool)) (width : Z) (ty tx : nat) :
  Forall (fun grid_row => Z.of_nat (length grid_row) = width) rows ->
  (ty < length rows)%nat -> Z.of_nat tx < width ->
  exists b, tile rows ty tx = Some b.
Proof.
  intros Hall Hty Htx. unfold tile.
  destruct (nth_error rows ty) as [grid_row |] eqn:Hrow.
  - rewrite Forall_forall in Hall.
    rewrite <- (Hall grid_row (nth_error_In _ _ Hrow)) in Htx.
    apply Nat2Z.inj_lt in Htx.
    destruct (nth_error grid_row tx) as [b |] eqn:Hb; [now exists b |].
    apply nth_error_None in Hb. lia.
  - apply nth_error_None in Hrow. lia.
Qed.

Section GridThreshold.

Variable ceil floor : float -> float.
Variable getAngle : Quaternion -> float.

(** Two runs of [parseGrid] that differ in the threshold only, on a map with
    cells: both return, with grids of the same number of rows; a tile that is
    occupied under the higher threshold is occupied under the lower one; and
    the planner, the scaled start and the start yaw do not depend on the
    threshold. *)
Theorem lower_threshold_keeps_occupied_tiles (low high : Z) (fuel : nat)
    (self : FullCoveragePathPlanner) (cpp_costmap : Costmap2D)
    (grid : list (list bool)) (grid_size : float) (real_start : PoseStamped)
    (scaled_start : Point_t) (yaw_start : float) :
  low <= high ->
  sizes_in_range cpp_costmap -> index_fits_int cpp_costmap ->
  getSizeInCellsY cpp_costmap <> 0 -> getSizeInCellsX cpp_costmap <> 0 ->
  node_size_in_range ceil cpp_costmap grid_size ->
  start_bounds_in_range ceil floor cpp_costmap grid_size ->
  Z.max (getSizeInCellsX cpp_costmap) (getSizeInCellsY cpp_costmap)
  < Z.of_nat fuel ->
  exists r_low r_high rows_low rows_high,
    parseGrid ceil floor getAngle low fuel self cpp_costmap grid grid_size
      real_start scaled_start yaw_start = Done r_low
    /\ parseGrid ceil floor getAngle high fuel self cpp_costmap grid grid_size
         real_start scaled_start yaw_start = Done r_high
    /\ grid_out r_low = grid ++ rows_low
    /\ grid_out r_high = grid ++ rows_high
    /\ length rows_low = length rows_high
    /\ (forall ty tx : nat,
          tile rows_high ty tx = Some true -> tile rows_low ty tx = Some true)
    /\ planner r_low = planner r_high
    /\ scaled_start_out r_low = scaled_start_out r_high
    /\ yaw_start_out r_low = yaw_start_out r_high.
Proof.
  intros Hle Hsizes Hfits Hy Hx Hn Hb Hfuel.
  destruct (parseGrid_nonempty_shape ceil floor getAngle low fuel self
              cpp_costmap grid grid_size real_start scaled_start yaw_start
              Hsizes Hfits Hy Hx Hn Hb Hfuel)
    as (r1 & ns & rows1 & Hrun1 & Hns & _ & Hgrid1 & Hlen1 & Hall1 & Htiles1).
  destruct (parseGrid_nonempty_shape ceil floor getAngle high fuel self
              cpp_costmap grid grid_size real_start scaled_start yaw_start
              Hsizes Hfits Hy Hx Hn Hb Hfuel)
    as (r2 & ns' & rows2 & Hrun2 & Hns' & _ & Hgrid2 & Hlen2 & Hall2 & Htiles2).
  assert (ns' = ns) as -> by congruence.
  exists r1, r2, rows1, rows2.
  split; [exact Hrun1 |]. split; [exact Hrun2 |].
  split; [exact Hgrid1 |]. split; [exact Hgrid2 |].
  split; [lia |]. split.
  - intros ty tx Hhigh.
    destruct (tile_defined _ _ _ _ _ Hall2 Hhigh) as [Hty Htx].
    destruct (tile_in_shape rows1 _ ty tx Hall1 ltac:(lia) Htx) as [b Hlow].
    rewrite Hlow. f_equal. apply (Htiles1 _ _ _ Hlow).
    apply (footprint_occupied_threshold _ low high); [exact Hle |].
    now apply (Htiles2 _ _ _ Hhigh).
  - clear - Hrun1 Hrun2. unfold parseGrid in Hrun1, Hrun2.
    destruct (node_size_of ceil cpp_costmap grid_size) as [node_size |];
      cbn [from_option bind] in Hrun1, Hrun2; [| discriminate].
    destruct ((getSizeInCellsY cpp_costmap =? 0)
              || (getSizeInCellsX cpp_costmap =? 0)).
    + injection Hrun1 as <-. injection Hrun2 as <-. repeat split.
    + cbv zeta in Hrun1, Hrun2.
      destruct (scale_start floor (pos_x _) _ _ _) as [x |];
        cbn [from_option bind] in Hrun1, Hrun2; [| discriminate].
      destruct (scale_start floor (pos_y _) _ _ _) as [y |];
        cbn [from_option bind] in Hrun1, Hrun2; [| discriminate].
      destruct (grid_rows low _ _ _ _ _ _ _ _) as [grid1 | |];
        cbn [bind] in Hrun1; try discriminate.
      destruct (grid_rows high _ _ _ _ _ _ _ _) as [grid2 | |];
        cbn [bind] in Hrun2; try discriminate.
      injection Hrun1 as <-. injection Hrun2 as <-. repeat split.
Qed.

End GridThreshold.

(** ** From the map to the plan *)

Section GridThenPlan.

Variable cos sin : float -> float.
Variable atan2 : float -> float -> float.
Variable createQuaternionMsgFromYaw : float -> Quaternion.
Variable ceil floor : float -> float.
Variable getAngle : Quaternion -> float.
Variable COVERAGE_COST : Z.

Local Abbreviation start_connector'' := (start_connector atan2 createQuaternionMsgFromYaw).
Local Abbreviation parsePointlist2Plan'' :=
  (parsePointlist2Plan cos sin atan2 createQuaternionMsgFromYaw).
Local Abbreviation parseGrid'' := (parseGrid ceil floor getAngle COVERAGE_COST).

(** The plan composed on the planner [parseGrid] leaves, for a map with cells
    and a visit list that is not empty: every pose the call appends is in
    frame "map", at height 0, at the centre of a tile of the visit list
    measured with the scale of the map: tiles of [node_size] cells of the
    map's resolution, counted from the world position of cell (0, 0). *)
Theorem plan_poses_at_tile_centres_of_the_map
    (fuel : nat) (self self' : FullCoveragePathPlanner)
    (cpp_costmap : Costmap2D) (grid : list (list bool)) (grid_size : float)
    (real_start : PoseStamped) (scaled_start : Point_t) (yaw_start : float)
    (r : parseGrid_result) (start : PoseStamped) (goalpoints : list Point_t)
    (plan plan' : list PoseStamped) (uninit : Z * Z) (past_end : Point_t) :
  parseGrid'' fuel self cpp_costmap grid grid_size real_start scaled_start
    yaw_start = Done r ->
  returned r = true ->
  goalpoints <> [] ->
  parsePointlist2Plan'' (planner r) start goalpoints plan uninit past_end
  = Done (self', plan') ->
  exists node_size front ext,
    node_size_of ceil cpp_costmap grid_size = Some node_size
    /\ plan' = start :: start_connector'' start front ++ plan ++ ext
    /\ Forall
         (fun w =>
            exists p,
              In p goalpoints
              /\ frame_id (header w) = "map"%string
              /\ position (pose w)
                 = mkPoint
                     (tile_center
                        (Double.of_Z node_size * getResolution cpp_costmap)
                        (fst (mapToWorld cpp_costmap 0 0)) (pt_x p))
                     (tile_center
                        (Double.of_Z node_size * getResolution cpp_costmap)
                        (snd (mapToWorld cpp_costmap 0 0)) (pt_y p))
                     0)
         ext.
Proof.
  intros Hgrid Hret Hne Hplan.
  destruct (parseGrid_inv _ _ _ _ _ _ _ _ _ _ _ _ _ Hgrid)
    as (ns & Hns & [[_ Hr] | (_ & _ & x & y & grid' & _ & Hr)]);
    [rewrite Hr in Hret; discriminate |].
  destruct (parsePointlist2Plan_appends _ _ _ _ _ _ _ _ _ _ _ _ Hne Hplan)
    as (front & ext & _ & _ & Hplan' & Hon).
  exists ns, front, ext. split; [exact Hns |]. split; [exact Hplan' |].
  revert Hon. apply Forall_impl. intros w (p & Hin & Hw).
  exists p. split; [exact Hin |]. rewrite Hw, Hr. split; reflexivity.
Qed.

(** A planner as the constructor leaves it still publishes nothing after
    [parseGrid] and [parsePointlist2Plan] have run on it, whatever the map,
    the visit list and the path: neither sets [initialized_]. *)
Theorem planner_of_this_file_never_publishes
    (tile_size : float) (grid_origin : dPoint_t) (previous_orientation : float)
    (fuel : nat) (self' : FullCoveragePathPlanner)
    (cpp_costmap : Costmap2D) (grid : list (list bool)) (grid_size : float)
    (real_start : PoseStamped) (scaled_start : Point_t) (yaw_start : float)
    (r : parseGrid_result) (start : PoseStamped) (goalpoints : list Point_t)
    (plan plan' path : list PoseStamped) (uninit : Z * Z) (past_end : Point_t)
    (plan_pub_ : list Path) :
  parseGrid'' fuel
    (FullCoveragePathPlanner_new tile_size grid_origin previous_orientation)
    cpp_costmap grid grid_size real_start scaled_start yaw_start = Done r ->
  parsePointlist2Plan'' (planner r) start goalpoints plan uninit past_end
  = Done (self', plan') ->
  publishPlan (planner r) path plan_pub_ = Done plan_pub_
  /\ publishPlan self' path plan_pub_ = Done plan_pub_.
Proof.
  intros Hgrid Hplan.
  assert (initialized_ (planner r) = false) as Hi.
  { destruct (parseGrid_inv _ _ _ _ _ _ _ _ _ _ _ _ _ Hgrid)
      as (ns & _ & [[_ ->] | (_ & _ & x & y & grid' & _ & ->)]); reflexivity. }
  destruct (parsePointlist2Plan_initialized_and_head _ _ _ _ _ _ _ _ _ _ _ _ Hplan)
    as (Hi' & _).
  unfold publishPlan. rewrite Hi', Hi. split; reflexivity.
Qed.

End GridThenPlan.

(** ** The further properties on the sample *)

Section MoreOnTheSample.

Import Sample.

Local Abbreviation visit2 := (visit cos sin createQuaternionMsgFromYaw).
Local Abbreviation start_connector2 :=
  (start_connector atan2 createQuaternionMsgFromYaw).
Local Abbreviation parsePointlist2Plan2 :=
  (parsePointlist2Plan cos sin atan2 createQuaternionMsgFromYaw).
Local Abbreviation parseGrid2 := (parseGrid ceil floor getAngle).

Local Ltac run_of H := vm_compute in H; discriminate.

(** Out and back over two tiles with two turns pending: seven poses and one
    turn left, for two publications and a connector of two poses. *)
Lemma plan_length_account_witness :
  exists self' plan' connector,
    parsePointlist2Plan2 planner2 (pose_at 3 4)
      [mkPoint_t 0 0; mkPoint_t 1 0; mkPoint_t 0 0] [] (7, 9) (mkPoint_t 55 66)
    = Done (self', plan')
    /\ (connector = 0 \/ connector = 2)%nat
    /\ (length plan' + length (turn_around_directions_ self')
        = 0 + 2 + 2 + connector
          + 2 * publications (mkPoint_t 0 0) [mkPoint_t 1 0; mkPoint_t 0 0])%nat.
Proof.
  destruct (parsePointlist2Plan2 planner2 (pose_at 3 4)
              [mkPoint_t 0 0; mkPoint_t 1 0; mkPoint_t 0 0] [] (7, 9)
              (mkPoint_t 55 66)) as [[self' plan'] | |] eqn:H;
    [| run_of H ..].
  destruct (plan_length_account cos sin atan2 createQuaternionMsgFromYaw
              planner2 self' (pose_at 3 4) (mkPoint_t 0 0) (mkPoint_t 1 0)
              [mkPoint_t 0 0] [] plan' (7, 9) (mkPoint_t 55 66) H)
    as (connector & Hc & Hlen).
  exists self', plan', connector. split; [reflexivity |].
  split; [exact Hc | exact Hlen].
Defined.

Lemma plan_keeps_incoming_and_adds_tile_poses_witness :
  [mkPoint_t 0 0; mkPoint_t 1 0; mkPoint_t 0 0] <> []
  /\ exists self' plan' front ext,
       parsePointlist2Plan2 planner2 (pose_at 3 4)
         [mkPoint_t 0 0; mkPoint_t 1 0; mkPoint_t 0 0] [pose_at 9 9] (7, 9)
         (mkPoint_t 55 66)
       = Done (self', plan')
       /\ hd_error ([pose_at 9 9] ++ ext) = Some front
       /\ ext <> []
       /\ plan' = pose_at 3 4 :: start_connector2 (pose_at 3 4) front
                    ++ [pose_at 9 9] ++ ext
       /\ Forall
            (on_tile planner2 [mkPoint_t 0 0; mkPoint_t 1 0; mkPoint_t 0 0]) ext.
Proof.
  split; [discriminate |].
  destruct (parsePointlist2Plan2 planner2 (pose_at 3 4)
              [mkPoint_t 0 0; mkPoint_t 1 0; mkPoint_t 0 0] [pose_at 9 9] (7, 9)
              (mkPoint_t 55 66)) as [[self' plan'] | |] eqn:H;
    [| run_of H ..].
  destruct (plan_keeps_incoming_and_adds_tile_poses cos sin atan2
              createQuaternionMsgFromYaw planner2 self' (pose_at 3 4)
              [mkPoint_t 0 0; mkPoint_t 1 0; mkPoint_t 0 0] [pose_at 9 9] plan'
              (7, 9) (mkPoint_t 55 66) ltac:(discriminate) H)
    as (front & ext & Hfront & Hext & Hplan & Hon).
  exists self', plan', front, ext. split; [reflexivity |].
  repeat split; assumption.
Defined.

Lemma plan_ends_with_remembered_goal_witness :
  exists self' plan',
    parsePointlist2Plan2 planner2 (pose_at 3 4)
      [mkPoint_t 0 0; mkPoint_t 1 0; mkPoint_t 1 1] [] (7, 9) (mkPoint_t 55 66)
    = Done (self', plan')
    /\ last plan' (pose_at 3 4) = previous_goal_ self'
    /\ previous_goal_ self'
       = goal_at planner2 default_PoseStamped (mkPoint_t 1 1)
           (createQuaternionMsgFromYaw (previous_orientation_ self')).
Proof.
  destruct (parsePointlist2Plan2 planner2 (pose_at 3 4)
              [mkPoint_t 0 0; mkPoint_t 1 0; mkPoint_t 1 1] [] (7, 9)
              (mkPoint_t 55 66)) as [[self' plan'] | |] eqn:H;
    [| run_of H ..].
  destruct (plan_ends_with_remembered_goal cos sin atan2
              createQuaternionMsgFromYaw planner2 self' (pose_at 3 4)
              (mkPoint_t 0 0) (mkPoint_t 1 0) [mkPoint_t 1 1] [] plan' (7, 9)
              (mkPoint_t 55 66) H)
    as (Hlast & Hgoal & _).
  exists self', plan'. split; [reflexivity |].
  split; [exact Hlast | exact Hgoal].
Defined.

Lemma parsePointlist2Plan_keeps_scale_witness :
  exists self' plan',
    parsePointlist2Plan2 planner2 (pose_at 3 4)
      [mkPoint_t 0 0; mkPoint_t 1 0; mkPoint_t 0 0] [] (7, 9) (mkPoint_t 55 66)
    = Done (self', plan')
    /\ same_scale planner2 self'.
Proof.
  destruct (parsePointlist2Plan2 planner2 (pose_at 3 4)
              [mkPoint_t 0 0; mkPoint_t 1 0; mkPoint_t 0 0] [] (7, 9)
              (mkPoint_t 55 66)) as [[self' plan'] | |] eqn:H;
    [| run_of H ..].
  destruct (parsePointlist2Plan_keeps_scale cos sin atan2
              createQuaternionMsgFromYaw planner2 self' (pose_at 3 4)
              [mkPoint_t 0 0; mkPoint_t 1 0; mkPoint_t 0 0] [] plan' (7, 9)
              (mkPoint_t 55 66) H)
    as (Hs & _).
  exists self', plan'. split; [reflexivity | exact Hs].
Defined.

(** Heading right and going on to the right before a turn upwards: the
    heading of the previous waypoint is kept. *)
Lemma same_heading_needs_no_stack_witness :
  exists s',
    visit2 false false (7, 9) (mkPoint_t 1 0) (mkPoint_t 2 0) (mkPoint_t 2 1)
      heading_right = Done s'
    /\ turn_around_directions_ (self_ s')
       = turn_around_directions_ (self_ heading_right)
    /\ length (plan_ s') = 5%nat.
Proof.
  destruct (same_heading_needs_no_stack cos sin createQuaternionMsgFromYaw
              false (7, 9) (mkPoint_t 1 0) (mkPoint_t 2 0) (mkPoint_t 2 1)
              heading_right)
    as (s' & Hrun & Hstack & Hplan).
  - vm_compute. reflexivity.
  - vm_compute. reflexivity.
  - exists s'. split; [exact Hrun |]. split; [exact Hstack |].
    rewrite Hplan. reflexivity.
Defined.

Lemma move_dir_tells_axis_step_witness :
  move_dir (-1) 0 = dir.left <-> -1 = -1 /\ 0 = 0.
Proof.
  destruct (move_dir_tells_axis_step (-1) 0 ltac:(lia) ltac:(lia)
              ltac:(right; reflexivity))
    as (_ & _ & _ & H & _).
  exact H.
Defined.

Lemma plan_of_nonempty_list_is_published_witness :
  exists self' plan',
    parsePointlist2Plan2 planner2 (pose_at 3 4)
      [mkPoint_t 0 0; mkPoint_t 1 0; mkPoint_t 0 0] [] (7, 9) (mkPoint_t 55 66)
    = Done (self', plan')
    /\ publishPlan self' plan' [] = Done [mkPath (header (pose_at 3 4)) plan'].
Proof.
  destruct (parsePointlist2Plan2 planner2 (pose_at 3 4)
              [mkPoint_t 0 0; mkPoint_t 1 0; mkPoint_t 0 0] [] (7, 9)
              (mkPoint_t 55 66)) as [[self' plan'] | |] eqn:H;
    [| run_of H ..].
  exists self', plan'. split; [reflexivity |].
  exact (plan_of_nonempty_list_is_published cos sin atan2
           createQuaternionMsgFromYaw planner2 self' (pose_at 3 4)
           [mkPoint_t 0 0; mkPoint_t 1 0; mkPoint_t 0 0] [] plan' (7, 9)
           (mkPoint_t 55 66) [] eq_refl ltac:(discriminate) H).
Defined.

Lemma plan_of_empty_list_is_not_publishable_witness :
  exists self' plan',
    parsePointlist2Plan2 planner0 (pose_at 3 4) [] [] (7, 9) (mkPoint_t 55 66)
    = Done (self', plan')
    /\ publishPlan self' plan' [] = Undefined.
Proof.
  exists planner0, []. split; [reflexivity |].
  exact (plan_of_empty_list_is_not_publishable cos sin atan2
           createQuaternionMsgFromYaw planner0 planner0 (pose_at 3 4) [] (7, 9)
           (mkPoint_t 55 66) [] eq_refl eq_refl).
Defined.

Lemma nothing_published_before_initialization_witness :
  exists self' plan',
    parsePointlist2Plan2
      (FullCoveragePathPlanner_new 1 (mkdPoint_t 0 0) 0) (pose_at 3 4)
      [mkPoint_t 0 0; mkPoint_t 1 0] [] (7, 9) (mkPoint_t 55 66)
    = Done (self', plan')
    /\ publishPlan self' plan' [] = Done [].
Proof.
  destruct (parsePointlist2Plan2
              (FullCoveragePathPlanner_new 1 (mkdPoint_t 0 0) 0) (pose_at 3 4)
              [mkPoint_t 0 0; mkPoint_t 1 0] [] (7, 9) (mkPoint_t 55 66))
    as [[self' plan'] | |] eqn:H; [| run_of H ..].
  exists self', plan'. split; [reflexivity |].
  exact (proj2
           (nothing_published_before_initialization cos sin atan2
              createQuaternionMsgFromYaw 1 (mkdPoint_t 0 0) 0 self' (pose_at 3 4)
              [mkPoint_t 0 0; mkPoint_t 1 0] [] plan' plan' (7, 9)
              (mkPoint_t 55 66) [] H)).
Defined.

Lemma parseGrid_effects_witness :
  exists r,
    parseGrid2 COVERAGE_COST 6 planner2 costmap [[true]] 2 (pose_at 3.25 100)
      (mkPoint_t 0 0) 0 = Done r
    /\ turn_around_directions_ (planner r) = turn_around_directions_ planner2
    /\ exists rows, grid_out r = [[true]] ++ rows.
Proof.
  destruct (parseGrid2 COVERAGE_COST 6 planner2 costmap [[true]] 2
              (pose_at 3.25 100) (mkPoint_t 0 0) 0) as [r | |] eqn:H;
    [| run_of H ..].
  destruct (parseGrid_effects ceil floor getAngle COVERAGE_COST 6 planner2
              costmap [[true]] 2 (pose_at 3.25 100) (mkPoint_t 0 0) 0 r H)
    as ((_ & _ & _ & Hstack) & Hrows & _).
  exists r. split; [reflexivity |]. split; [exact Hstack | exact Hrows].
Defined.

(** The map of 3 rows and 5 columns in tiles of 2 cells: 2 rows of 3 tiles. *)
Lemma grid_dimensions_witness :
  exists r rows,
    parseGrid2 COVERAGE_COST 6 planner0 costmap [] 2 (pose_at 3.25 100)
      (mkPoint_t 0 0) 0 = Done r
    /\ grid_out r = [] ++ rows
    /\ Z.of_nat (length rows) = 2
    /\ Forall (fun grid_row => Z.of_nat (length grid_row) = 3) rows.
Proof.
  destruct (grid_dimensions ceil floor getAngle COVERAGE_COST 6 planner0 costmap
              [] 2 (pose_at 3.25 100) (mkPoint_t 0 0) 0
              costmap_sizes_in_range costmap_index_fits_int
              ltac:(cbn; lia) ltac:(cbn; lia)
              costmap_node_size_in_range costmap_start_bounds_in_range
              ltac:(cbn; lia))
    as (r & node_size & rows & Hrun & Hns & Hgrid & Hlen & Hall).
  vm_compute in Hns. injection Hns as <-.
  exists r, rows. split; [exact Hrun |]. split; [exact Hgrid |].
  split; [exact Hlen | exact Hall].
Defined.

(** A start far beyond the map is put on the bound, [floor (5 / 2)]. *)
Lemma scale_start_regimes_witness :
  bound_in_range (start_bound floor 5 2)
  /\ scale_start floor 100 0.5 2 5 = Double.trunc (start_bound floor 5 2).
Proof.
  assert (Hb : bound_in_range (start_bound floor 5 2))
    by (vm_compute; split; reflexivity).
  split; [exact Hb |].
  destruct (scale_start_regimes floor 100 0.5 2 5 Hb) as (H & _).
  apply H. vm_compute. reflexivity.
Defined.

Lemma lower_threshold_keeps_occupied_tiles_witness :
  exists r_low r_high rows_low rows_high,
    parseGrid2 65 6 planner0 costmap [] 2 (pose_at 3.25 100) (mkPoint_t 0 0) 0
    = Done r_low
    /\ parseGrid2 200 6 planner0 costmap [] 2 (pose_at 3.25 100) (mkPoint_t 0 0) 0
       = Done r_high
    /\ grid_out r_low = [] ++ rows_low
    /\ grid_out r_high = [] ++ rows_high
    /\ (forall ty tx : nat,
          tile rows_high ty tx = Some true -> tile rows_low ty tx = Some true)
    /\ planner r_low = planner r_high.
Proof.
  destruct (lower_threshold_keeps_occupied_tiles ceil floor getAngle 65 200 6
              planner0 costmap [] 2 (pose_at 3.25 100) (mkPoint_t 0 0) 0
              ltac:(lia) costmap_sizes_in_range costmap_index_fits_int
              ltac:(cbn; lia) ltac:(cbn; lia)
              costmap_node_size_in_range costmap_start_bounds_in_range
              ltac:(cbn; lia))
    as (r1 & r2 & rows1 & rows2 & H1 & H2 & Hg1 & Hg2 & _ & Ht & Hp & _).
  exists r1, r2, rows1, rows2. repeat split; assumption.
Defined.

Lemma plan_poses_at_tile_centres_of_the_map_witness :
  exists r self' plan' front ext,
    parseGrid2 COVERAGE_COST 6 planner0 costmap [] 2 (pose_at 3.25 100)
      (mkPoint_t 0 0) 0 = Done r
    /\ parsePointlist2Plan2 (planner r) (pose_at 3.25 100)
         [mkPoint_t 0 0; mkPoint_t 1 0] [] (7, 9) (mkPoint_t 55 66)
       = Done (self', plan')
    /\ plan' = pose_at 3.25 100 :: start_connector2 (pose_at 3.25 100) front
                 ++ [] ++ ext
    /\ Forall
         (fun w =>
            exists p,
              In p [mkPoint_t 0 0; mkPoint_t 1 0]
              /\ frame_id (header w) = "map"%string
              /\ position (pose w)
                 = mkPoint
                     (tile_center (Double.of_Z 2 * getResolution costmap)
                        (fst (mapToWorld costmap 0 0)) (pt_x p))
                     (tile_center (Double.of_Z 2 * getResolution costmap)
                        (snd (mapToWorld costmap 0 0)) (pt_y p))
                     0)
         ext.
Proof.
  destruct (parseGrid2 COVERAGE_COST 6 planner0 costmap [] 2 (pose_at 3.25 100)
              (mkPoint_t 0 0) 0) as [r | |] eqn:Hg;
    [| run_of Hg ..].
  assert (Hr : returned r = true)
    by (pose proof Hg as Hg'; vm_compute in Hg'; injection Hg' as <-;
        reflexivity).
  destruct (parsePointlist2Plan2 (planner r) (pose_at 3.25 100)
              [mkPoint_t 0 0; mkPoint_t 1 0] [] (7, 9) (mkPoint_t 55 66))
    as [[self' plan'] | |] eqn:Hp;
    [| exfalso; revert Hp; vm_compute in Hg; injection Hg as <-; vm_compute;
       discriminate ..].
  destruct (plan_poses_at_tile_centres_of_the_map cos sin atan2
              createQuaternionMsgFromYaw ceil floor getAngle COVERAGE_COST 6
              planner0 self' costmap [] 2 (pose_at 3.25 100) (mkPoint_t 0 0) 0 r
              (pose_at 3.25 100) [mkPoint_t 0 0; mkPoint_t 1 0] [] plan' (7, 9)
              (mkPoint_t 55 66) Hg Hr ltac:(discriminate) Hp)
    as (node_size & front & ext & Hns & Hplan & Hon).
  vm_compute in Hns. injection Hns as <-.
  exists r, self', plan', front, ext. split; [reflexivity |].
  split; [exact Hp |]. split; [exact Hplan | exact Hon].
Defined.

Lemma planner_of_this_file_never_publishes_witness :
  exists r self' plan',
    parseGrid2 COVERAGE_COST 6
      (FullCoveragePathPlanner_new 1 (mkdPoint_t 0 0) 0) costmap [] 2
      (pose_at 3.25 100) (mkPoint_t 0 0) 0 = Done r
    /\ parsePointlist2Plan2 (planner r) (pose_at 3.25 100)
         [mkPoint_t 0 0; mkPoint_t 1 0] [] (7, 9) (mkPoint_t 55 66)
       = Done (self', plan')
    /\ publishPlan self' plan' [] = Done [].
Proof.
  destruct (parseGrid2 COVERAGE_COST 6
              (FullCoveragePathPlanner_new 1 (mkdPoint_t 0 0) 0) costmap [] 2
              (pose_at 3.25 100) (mkPoint_t 0 0) 0) as [r | |] eqn:Hg;
    [| run_of Hg ..].
  destruct (parsePointlist2Plan2 (planner r) (pose_at 3.25 100)
              [mkPoint_t 0 0; mkPoint_t 1 0] [] (7, 9) (mkPoint_t 55 66))
    as [[self' plan'] | |] eqn:Hp;
    [| exfalso; revert Hp; vm_compute in Hg; injection Hg as <-; vm_compute;
       discriminate ..].
  exists r, self', plan'. split; [reflexivity |]. split; [exact Hp |].
  exact (proj2
           (planner_of_this_file_never_publishes cos sin atan2
              createQuaternionMsgFromYaw ceil floor getAngle COVERAGE_COST
              1 (mkdPoint_t 0 0) 0 6 self' costmap [] 2 (pose_at 3.25 100)
              (mkPoint_t 0 0) 0 r (pose_at 3.25 100)
              [mkPoint_t 0 0; mkPoint_t 1 0] [] plan' plan' (7, 9)
              (mkPoint_t 55 66) [] Hg Hp)).
Defined.

End MoreOnTheSample.
